(** * pbparser: a shallow embedding of the parser (parser.go) and the
    verifier (verifier.go) of the protobuf IDL parser, with the properties
    of the specification proved or refuted against it.

    Runes: the input is a [string] whose characters are read as runes
    U+0000..U+00FF (one Rocq [ascii] per rune).  The Go code compares
    runes only against ASCII characters, so this covers its behaviour on
    that range of code points. *)

From Stdlib Require Import ZArith String Ascii Bool List Lia.
From stdpp Require Import base gmap strings list.

Open Scope string_scope.
Open Scope Z_scope.
#[local] Set Warnings "-register-all".

(* ------------------------------------------------------------------ *)
(** ** Go built-ins: int arithmetic, characters and the strings package *)

(** Go's [int] is 64 bits wide and wraps around. *)
Definition wrap64 (z : Z) : Z := ((z + 2 ^ 63) mod 2 ^ 64) - 2 ^ 63.
Definition go_inc (z : Z) : Z := wrap64 (z + 1).
Definition go_dec (z : Z) : Z := wrap64 (z - 1).

Definition code (c : ascii) : Z := Z.of_nat (nat_of_ascii c).
Definition chr (n : Z) : ascii := ascii_of_nat (Z.to_nat n).

(** [var eof = rune(0)] *)
Definition eof : ascii := "000"%char.
Definition dq : ascii := "034"%char.
Definition sq : ascii := "039"%char.
Definition bs : ascii := "092"%char.
Definition nl : ascii := "010"%char.

Definition char_eqb (a b : ascii) : bool := Ascii.eqb a b.
Definition str1 (c : ascii) : string := String c EmptyString.

Definition isLetter (c : ascii) : bool :=
  ((97 <=? code c) && (code c <=? 122)) || ((65 <=? code c) && (code c <=? 90)).
Definition isDigit (c : ascii) : bool := (48 <=? code c) && (code c <=? 57).
Definition isWhitespace (c : ascii) : bool :=
  char_eqb c " " || char_eqb c "009"%char || char_eqb c "013"%char || char_eqb c nl.
Definition isStartOfComment (c : ascii) : bool := char_eqb c "/".
Definition isValidCharInWord (c : ascii) (f : option (ascii -> bool)) : bool :=
  if isLetter c || isDigit c || char_eqb c "_" || char_eqb c "-" || char_eqb c "."
  then true
  else match f with Some g => g c | None => false end.

(** Unicode white space on the rune range of the model (strings.TrimSpace). *)
Definition isSpaceRune (c : ascii) : bool :=
  let n := code c in ((9 <=? n) && (n <=? 13)) || (n =? 32) || (n =? 133) || (n =? 160).

Definition string_rev (s : string) : string :=
  string_of_list_ascii (rev (list_ascii_of_string s)).

Fixpoint trimLeft (s : string) : string :=
  match s with
  | String c s' => if isSpaceRune c then trimLeft s' else s
  | EmptyString => EmptyString
  end.
Definition TrimSpace (s : string) : string :=
  string_rev (trimLeft (string_rev (trimLeft s))).

(** strings.Split with a one-character separator. *)
Fixpoint split_acc (sep : ascii) (s : string) (cur : string) : list string :=
  match s with
  | EmptyString => [string_rev cur]
  | String c s' =>
      if char_eqb c sep then string_rev cur :: split_acc sep s' EmptyString
      else split_acc sep s' (String c cur)
  end.
Definition Split (s : string) (sep : ascii) : list string := split_acc sep s EmptyString.

Fixpoint HasPrefix (s p : string) : bool :=
  match p, s with
  | EmptyString, _ => true
  | String c p', String d s' => char_eqb c d && HasPrefix s' p'
  | String _ _, EmptyString => false
  end.

Fixpoint ContainsRune (s : string) (r : ascii) : bool :=
  match s with
  | EmptyString => false
  | String c s' => char_eqb c r || ContainsRune s' r
  end.

(** ASCII lower-casing; strings.ToLower also maps U+00C0..U+00DE, which never
    turns a name into one of the (ASCII) keys of the scalar table. *)
Definition lower (c : ascii) : ascii :=
  if (65 <=? code c) && (code c <=? 90) then chr (code c + 32) else c.
Fixpoint ToLower (s : string) : string :=
  match s with EmptyString => EmptyString | String c s' => String (lower c) (ToLower s') end.

Fixpoint string_join (sep : string) (l : list string) : string :=
  match l with
  | [] => ""
  | [x] => x
  | x :: l' => x +:+ sep +:+ string_join sep l'
  end.

(** Decimal and hexadecimal printing (fmt's %v on int, strconv escapes). *)
Definition digit_char (d : Z) : ascii :=
  if d <? 10 then chr (48 + d) else chr (87 + d).
Fixpoint digits_rev (fuel : nat) (base n : Z) : string :=
  match fuel with
  | O => EmptyString
  | S f => if n <? base then str1 (digit_char n)
           else String (digit_char (n mod base)) (digits_rev f base (n / base))
  end.
Definition show_Z (z : Z) : string :=
  if z <? 0 then "-" +:+ string_rev (digits_rev 80 10 (- z))
  else string_rev (digits_rev 80 10 z).
Definition hex_fixed (width : nat) (n : Z) : string :=
  let s := string_rev (digits_rev 80 16 n) in
  string_of_list_ascii (repeat "0"%char (width - String.length s)) +:+ s.

(** strconv's rune escaping (appendEscapedRune), for runes U+0000..U+00FF. *)
Definition isPrint (c : ascii) : bool :=
  let n := code c in ((32 <=? n) && (n <? 127)) || ((161 <=? n) && (n <=? 255) && negb (n =? 173)).
Definition escapeRune (quote : ascii) (c : ascii) : string :=
  let n := code c in
  if char_eqb c quote || char_eqb c bs then String bs (str1 c)
  else if isPrint c then str1 c
  else if n =? 7 then String bs "a" else if n =? 8 then String bs "b"
  else if n =? 12 then String bs "f" else if n =? 10 then String bs "n"
  else if n =? 13 then String bs "r" else if n =? 9 then String bs "t"
  else if n =? 11 then String bs "v"
  else if (n <? 32) || (n =? 127) then String bs ("x" +:+ hex_fixed 2 n)
  else String bs ("u" +:+ hex_fixed 4 n).
(** strconv.QuoteRune *)
Definition QuoteRune (c : ascii) : string := String sq (escapeRune sq c +:+ str1 sq).
(** strconv.Quote *)
Fixpoint quote_body (s : string) : string :=
  match s with EmptyString => EmptyString | String c s' => escapeRune dq c +:+ quote_body s' end.
Definition Quote (s : string) : string := String dq (quote_body s +:+ str1 dq).

(** A Go [(T, error)] pair. *)
Inductive goResult (A : Type) : Type :=
| GoOk (a : A)
| GoErr (msg : string).
Arguments GoOk {A} a.
Arguments GoErr {A} msg.

(** strconv.Atoi on a 64-bit platform: the fast path for 1..18 characters,
    ParseInt (ParseUint) otherwise; the error text names Atoi and quotes
    the whole input. *)
Definition atoiSyntax (s0 : string) : string :=
  "strconv.Atoi: parsing " +:+ Quote s0 +:+ ": invalid syntax".
Definition atoiRange (s0 : string) : string :=
  "strconv.Atoi: parsing " +:+ Quote s0 +:+ ": value out of range".
Definition maxUint64 : Z := 2 ^ 64 - 1.

Inductive uintScan := UintVal (n : Z) | UintSyntax | UintRange.

Fixpoint atoi_fast_digits (s : string) (n : Z) : option Z :=
  match s with
  | EmptyString => Some n
  | String c s' => if isDigit c then atoi_fast_digits s' (n * 10 + (code c - 48)) else None
  end.
Fixpoint parseUint_loop (s : string) (n : Z) : uintScan :=
  match s with
  | EmptyString => UintVal n
  | String c s' =>
      if negb (isDigit c) then UintSyntax
      else if maxUint64 / 10 + 1 <=? n then UintRange
      else let n1 := n * 10 + (code c - 48) in
           if maxUint64 <? n1 then UintRange else parseUint_loop s' n1
  end.
Definition sign_split (s : string) : bool * string :=
  match s with
  | String c s' => if char_eqb c "-" then (true, s')
                   else if char_eqb c "+" then (false, s') else (false, s)
  | EmptyString => (false, s)
  end.
Definition Atoi (s0 : string) : goResult Z :=
  let len := String.length s0 in
  let '(neg, s) := sign_split s0 in
  if (0 <? len)%nat && (len <? 19)%nat then
    if String.eqb s "" then GoErr (atoiSyntax s0)
    else match atoi_fast_digits s 0 with
         | Some n => GoOk (if neg then - n else n)
         | None => GoErr (atoiSyntax s0)
         end
  else if String.eqb s0 "" then GoErr (atoiSyntax s0)
  else if String.eqb s "" then GoErr (atoiSyntax s0)
  else match parseUint_loop s 0 with
       | UintSyntax => GoErr (atoiSyntax s0)
       | UintRange => GoErr (atoiRange s0)
       | UintVal un =>
           if negb neg && (2 ^ 63 <=? un) then GoErr (atoiRange s0)
           else if neg && (2 ^ 63 <? un) then GoErr (atoiRange s0)
           else GoOk (if neg then - un else un)
       end.

(** parenthesisRemovalRegex.ReplaceAllString(s, group 1): the regex is an
    open parenthesis, a greedy run of non-double-quote runes (group 1) and a
    close parenthesis; with leftmost-first matching the run from a '(' ends
    at the last ')' before the next double quote. *)
Fixpoint take_no_dq (l : list ascii) : list ascii :=
  match l with [] => [] | c :: l' => if char_eqb c dq then [] else c :: take_no_dq l' end.
Fixpoint last_index_of (c : ascii) (l : list ascii) (i : nat) (acc : option nat) : option nat :=
  match l with
  | [] => acc
  | d :: l' => last_index_of c l' (S i) (if char_eqb c d then Some i else acc)
  end.
Fixpoint paren_replace (fuel : nat) (l : list ascii) : list ascii :=
  match fuel with
  | O => l
  | S f =>
      match l with
      | [] => []
      | c :: l' =>
          if char_eqb c "(" then
            match last_index_of ")" (take_no_dq l') 0 None with
            | Some j => firstn j l' ++ paren_replace f (skipn (S j) l')
            | None => c :: paren_replace f l'
            end
          else c :: paren_replace f l'
      end
  end.
(** quoteRemovalRegex.ReplaceAllString(s, group 1): a double quote, a run
    of non-double-quote runes (group 1), a double quote. *)
Fixpoint split_at_dq (l : list ascii) : option (list ascii * list ascii) :=
  match l with
  | [] => None
  | c :: l' => if char_eqb c dq then Some ([], l')
               else match split_at_dq l' with Some (g, r) => Some (c :: g, r) | None => None end
  end.
Fixpoint quote_replace (fuel : nat) (l : list ascii) : list ascii :=
  match fuel with
  | O => l
  | S f =>
      match l with
      | [] => []
      | c :: l' =>
          if char_eqb c dq then
            match split_at_dq l' with
            | Some (g, r) => g ++ quote_replace f r
            | None => l
            end
          else c :: quote_replace f l'
      end
  end.
Definition parenthesisRemovalRegex_Replace (s : string) : string :=
  let l := list_ascii_of_string s in string_of_list_ascii (paren_replace (length l) l).
Definition quoteRemovalRegex_Replace (s : string) : string :=
  let l := list_ascii_of_string s in string_of_list_ascii (quote_replace (length l) l).

(** [s[0]] and [s[len(s)-1]]; [None] is Go's index-out-of-range panic. *)
Definition first_char (s : string) : option ascii := String.get 0 s.
Definition last_char (s : string) : option ascii := String.get (String.length s - 1) s.

(* ------------------------------------------------------------------ *)
(** ** The data model (datatype.go, elements.go) *)

(** DataTypeCategory *)
Inductive DataTypeCategory := ScalarDataTypeCategory | MapDataTypeCategory | NamedDataTypeCategory.

(** ScalarType *)
Inductive ScalarType :=
| AnyScalar | BoolScalar | BytesScalar | DoubleScalar | FloatScalar | Fixed32Scalar
| Fixed64Scalar | Int32Scalar | Int64Scalar | Sfixed32Scalar | Sfixed64Scalar
| Sint32Scalar | Sint64Scalar | StringScalar | Uint32Scalar | Uint64Scalar.

(** scalarLookupMap; [None] is the zero value returned for a missing key. *)
Definition scalarLookupMap (k : string) : option ScalarType :=
  if String.eqb k "any" then Some AnyScalar
  else if String.eqb k "bool" then Some BoolScalar
  else if String.eqb k "bytes" then Some BytesScalar
  else if String.eqb k "double" then Some DoubleScalar
  else if String.eqb k "float" then Some FloatScalar
  else if String.eqb k "fixed32" then Some Fixed32Scalar
  else if String.eqb k "fixed64" then Some Fixed64Scalar
  else if String.eqb k "int32" then Some Int32Scalar
  else if String.eqb k "int64" then Some Int64Scalar
  else if String.eqb k "sfixed32" then Some Sfixed32Scalar
  else if String.eqb k "sfixed64" then Some Sfixed64Scalar
  else if String.eqb k "sint32" then Some Sint32Scalar
  else if String.eqb k "sint64" then Some Sint64Scalar
  else if String.eqb k "string" then Some StringScalar
  else if String.eqb k "uint32" then Some Uint32Scalar
  else if String.eqb k "uint64" then Some Uint64Scalar
  else None.

(** NamedDataType *)
Record NamedDataType := mkNamed { supportsStreaming : bool; ndt_name : string }.

(** The DataType interface and its three implementations. *)
Inductive DataType :=
| ScalarDataType (scalarType : ScalarType) (sname : string)
| MapDataType (keyType valueType : DataType)
| NamedDT (ndt : NamedDataType).

Fixpoint Name (dt : DataType) : string :=
  match dt with
  | ScalarDataType _ n => n
  | MapDataType k v => "map<" +:+ Name k +:+ ", " +:+ Name v +:+ ">"
  | NamedDT ndt => ndt_name ndt
  end.
Definition Category (dt : DataType) : DataTypeCategory :=
  match dt with
  | ScalarDataType _ _ => ScalarDataTypeCategory
  | MapDataType _ _ => MapDataTypeCategory
  | NamedDT _ => NamedDataTypeCategory
  end.
Definition is_named (dt : DataType) : bool :=
  match Category dt with NamedDataTypeCategory => true | _ => false end.
Definition is_map (dt : DataType) : bool :=
  match Category dt with MapDataTypeCategory => true | _ => false end.

(** NewScalarDataType *)
Definition NewScalarDataType (s : string) : goResult DataType :=
  let key := ToLower s in
  match scalarLookupMap key with
  | None => GoErr ("'" +:+ s +:+ "' is not a valid ScalarDataType")
  | Some st => GoOk (ScalarDataType st key)
  end.

Record OptionElement := mkOption { opt_Name : string; opt_Value : string; opt_IsParenthesized : bool }.

Record EnumConstantElement := mkEnumConstant {
  ec_Name : string; ec_Documentation : string; ec_Options : list OptionElement; ec_Tag : Z }.

Record EnumElement := mkEnum {
  en_Name : string; en_QualifiedName : string; en_Documentation : string;
  en_Options : list OptionElement; en_EnumConstants : list EnumConstantElement }.

Record RPCElement := mkRPC {
  rpc_Name : string; rpc_Documentation : string; rpc_Options : list OptionElement;
  rpc_RequestType : NamedDataType; rpc_ResponseType : NamedDataType }.

Record ServiceElement := mkService {
  svc_Name : string; svc_QualifiedName : string; svc_Documentation : string;
  svc_Options : list OptionElement; svc_RPCs : list RPCElement }.

Record FieldElement := mkField {
  fe_Name : string; fe_Documentation : string; fe_Options : list OptionElement;
  fe_Label : string; fe_Type : DataType; fe_Tag : Z }.

Record OneOfElement := mkOneOf {
  oo_Name : string; oo_Documentation : string; oo_Options : list OptionElement;
  oo_Fields : list FieldElement }.

Record ExtensionsElement := mkExtensions { xe_Documentation : string; xe_Start : Z; xe_End : Z }.

Record ReservedRangeElement := mkReservedRange { rr_Documentation : string; rr_Start : Z; rr_End : Z }.

Record ExtendElement := mkExtend {
  ext_Name : string; ext_QualifiedName : string; ext_Documentation : string;
  ext_Fields : list FieldElement }.

(** MessageElement, with the fields the parser and verifier use on it
    (Messages and ExtendDeclarations included). *)
Inductive MessageElement := mkMessage {
  me_Name : string; me_QualifiedName : string; me_Documentation : string;
  me_Options : list OptionElement; me_Fields : list FieldElement;
  me_Enums : list EnumElement; me_Messages : list MessageElement;
  me_OneOfs : list OneOfElement; me_ExtendDeclarations : list ExtendElement;
  me_Extensions : list ExtensionsElement; me_ReservedRanges : list ReservedRangeElement;
  me_ReservedNames : list string }.

Record ProtoFile := mkProtoFile {
  FilePath : string; PackageName : string; Syntax : string;
  Dependencies : list string; PublicDependencies : list string;
  pf_Options : list OptionElement; pf_Enums : list EnumElement;
  pf_Messages : list MessageElement; pf_Services : list ServiceElement;
  pf_ExtendDeclarations : list ExtendElement }.

Definition emptyProtoFile : ProtoFile := mkProtoFile "" "" "" [] [] [] [] [] [] [].

(** Appending to the slices of a record, as [x.F = append(x.F, v)] does. *)
Definition me_set (me : MessageElement) (opts : list OptionElement) (fs : list FieldElement)
    (ens : list EnumElement) (ms : list MessageElement) (oos : list OneOfElement)
    (exts : list ExtendElement) (xes : list ExtensionsElement)
    (rrs : list ReservedRangeElement) (rns : list string) : MessageElement :=
  mkMessage (me_Name me) (me_QualifiedName me) (me_Documentation me) opts fs ens ms oos exts xes rrs rns.
Definition me_add_Option me o := me_set me (me_Options me ++ [o]) (me_Fields me) (me_Enums me)
  (me_Messages me) (me_OneOfs me) (me_ExtendDeclarations me) (me_Extensions me) (me_ReservedRanges me) (me_ReservedNames me).
Definition me_add_Field me f := me_set me (me_Options me) (me_Fields me ++ [f]) (me_Enums me)
  (me_Messages me) (me_OneOfs me) (me_ExtendDeclarations me) (me_Extensions me) (me_ReservedRanges me) (me_ReservedNames me).
Definition me_add_Enum me e := me_set me (me_Options me) (me_Fields me) (me_Enums me ++ [e])
  (me_Messages me) (me_OneOfs me) (me_ExtendDeclarations me) (me_Extensions me) (me_ReservedRanges me) (me_ReservedNames me).
Definition me_add_Message me m := me_set me (me_Options me) (me_Fields me) (me_Enums me)
  (me_Messages me ++ [m]) (me_OneOfs me) (me_ExtendDeclarations me) (me_Extensions me) (me_ReservedRanges me) (me_ReservedNames me).
Definition me_add_OneOf me o := me_set me (me_Options me) (me_Fields me) (me_Enums me)
  (me_Messages me) (me_OneOfs me ++ [o]) (me_ExtendDeclarations me) (me_Extensions me) (me_ReservedRanges me) (me_ReservedNames me).
Definition me_add_Extend me x := me_set me (me_Options me) (me_Fields me) (me_Enums me)
  (me_Messages me) (me_OneOfs me) (me_ExtendDeclarations me ++ [x]) (me_Extensions me) (me_ReservedRanges me) (me_ReservedNames me).
Definition me_add_Extensions me x := me_set me (me_Options me) (me_Fields me) (me_Enums me)
  (me_Messages me) (me_OneOfs me) (me_ExtendDeclarations me) (me_Extensions me ++ [x]) (me_ReservedRanges me) (me_ReservedNames me).
Definition me_add_ReservedRange me r := me_set me (me_Options me) (me_Fields me) (me_Enums me)
  (me_Messages me) (me_OneOfs me) (me_ExtendDeclarations me) (me_Extensions me) (me_ReservedRanges me ++ [r]) (me_ReservedNames me).
Definition me_add_ReservedName me n := me_set me (me_Options me) (me_Fields me) (me_Enums me)
  (me_Messages me) (me_OneOfs me) (me_ExtendDeclarations me) (me_Extensions me) (me_ReservedRanges me) (me_ReservedNames me ++ [n]).

Definition oo_add_Option (o : OneOfElement) x := mkOneOf (oo_Name o) (oo_Documentation o) (oo_Options o ++ [x]) (oo_Fields o).
Definition oo_add_Field (o : OneOfElement) f := mkOneOf (oo_Name o) (oo_Documentation o) (oo_Options o) (oo_Fields o ++ [f]).
Definition en_add_Option (e : EnumElement) x :=
  mkEnum (en_Name e) (en_QualifiedName e) (en_Documentation e) (en_Options e ++ [x]) (en_EnumConstants e).
Definition en_add_Constant (e : EnumElement) c :=
  mkEnum (en_Name e) (en_QualifiedName e) (en_Documentation e) (en_Options e) (en_EnumConstants e ++ [c]).
Definition svc_add_Option (s : ServiceElement) x :=
  mkService (svc_Name s) (svc_QualifiedName s) (svc_Documentation s) (svc_Options s ++ [x]) (svc_RPCs s).
Definition svc_add_RPC (s : ServiceElement) r :=
  mkService (svc_Name s) (svc_QualifiedName s) (svc_Documentation s) (svc_Options s) (svc_RPCs s ++ [r]).
Definition rpc_add_Option (r : RPCElement) x :=
  mkRPC (rpc_Name r) (rpc_Documentation r) (rpc_Options r ++ [x]) (rpc_RequestType r) (rpc_ResponseType r).
Definition ext_add_Field (e : ExtendElement) f :=
  mkExtend (ext_Name e) (ext_QualifiedName e) (ext_Documentation e) (ext_Fields e ++ [f]).

Definition pf_set (p : ProtoFile) pkg syn deps pdeps opts ens ms svcs exts : ProtoFile :=
  mkProtoFile (FilePath p) pkg syn deps pdeps opts ens ms svcs exts.
Definition pf_set_PackageName p n := pf_set p n (Syntax p) (Dependencies p) (PublicDependencies p)
  (pf_Options p) (pf_Enums p) (pf_Messages p) (pf_Services p) (pf_ExtendDeclarations p).
Definition pf_set_Syntax p n := pf_set p (PackageName p) n (Dependencies p) (PublicDependencies p)
  (pf_Options p) (pf_Enums p) (pf_Messages p) (pf_Services p) (pf_ExtendDeclarations p).
Definition pf_add_Dependency p d := pf_set p (PackageName p) (Syntax p) (Dependencies p ++ [d]) (PublicDependencies p)
  (pf_Options p) (pf_Enums p) (pf_Messages p) (pf_Services p) (pf_ExtendDeclarations p).
Definition pf_add_PublicDependency p d := pf_set p (PackageName p) (Syntax p) (Dependencies p) (PublicDependencies p ++ [d])
  (pf_Options p) (pf_Enums p) (pf_Messages p) (pf_Services p) (pf_ExtendDeclarations p).
Definition pf_add_Option p o := pf_set p (PackageName p) (Syntax p) (Dependencies p) (PublicDependencies p)
  (pf_Options p ++ [o]) (pf_Enums p) (pf_Messages p) (pf_Services p) (pf_ExtendDeclarations p).
Definition pf_add_Enum p e := pf_set p (PackageName p) (Syntax p) (Dependencies p) (PublicDependencies p)
  (pf_Options p) (pf_Enums p ++ [e]) (pf_Messages p) (pf_Services p) (pf_ExtendDeclarations p).
Definition pf_add_Message p m := pf_set p (PackageName p) (Syntax p) (Dependencies p) (PublicDependencies p)
  (pf_Options p) (pf_Enums p) (pf_Messages p ++ [m]) (pf_Services p) (pf_ExtendDeclarations p).
Definition pf_add_Service p s := pf_set p (PackageName p) (Syntax p) (Dependencies p) (PublicDependencies p)
  (pf_Options p) (pf_Enums p) (pf_Messages p) (pf_Services p ++ [s]) (pf_ExtendDeclarations p).
Definition pf_add_Extend p x := pf_set p (PackageName p) (Syntax p) (Dependencies p) (PublicDependencies p)
  (pf_Options p) (pf_Enums p) (pf_Messages p) (pf_Services p) (pf_ExtendDeclarations p ++ [x]).

(* ------------------------------------------------------------------ *)
(** ** The parse context (parseCtx in datatype.go) *)

Inductive ctxType := fileCtx | msgCtx | oneOfCtx | enumCtx | rpcCtx | extendCtx | serviceCtx.

Definition ctxType_eqb (a b : ctxType) : bool :=
  match a, b with
  | fileCtx, fileCtx | msgCtx, msgCtx | oneOfCtx, oneOfCtx | enumCtx, enumCtx
  | rpcCtx, rpcCtx | extendCtx, extendCtx | serviceCtx, serviceCtx => true
  | _, _ => false
  end.

(** [obj interface{}]: the in-progress record the context points to. *)
Inductive ctxObj :=
| NoObj
| MsgObj (me : MessageElement)
| OneOfObj (oe : OneOfElement)
| EnumObj (ee : EnumElement)
| RPCObj (re : RPCElement)
| ExtendObj (ee : ExtendElement)
| ServiceObj (se : ServiceElement).

Record parseCtx := mkCtx { obj : ctxObj; ctxTypeOf : ctxType }.

Definition ctxTypeToString (t : ctxType) : string :=
  match t with
  | fileCtx => "file" | msgCtx => "message" | oneOfCtx => "oneof" | enumCtx => "enum"
  | rpcCtx => "rpc" | extendCtx => "extend" | serviceCtx => "service"
  end.

Definition permitsPackage (pc : parseCtx) := ctxType_eqb (ctxTypeOf pc) fileCtx.
Definition permitsSyntax (pc : parseCtx) := ctxType_eqb (ctxTypeOf pc) fileCtx.
Definition permitsImport (pc : parseCtx) := ctxType_eqb (ctxTypeOf pc) fileCtx.
Definition permitsField (pc : parseCtx) :=
  ctxType_eqb (ctxTypeOf pc) msgCtx || ctxType_eqb (ctxTypeOf pc) oneOfCtx || ctxType_eqb (ctxTypeOf pc) extendCtx.
Definition permitsOption (pc : parseCtx) :=
  ctxType_eqb (ctxTypeOf pc) fileCtx || ctxType_eqb (ctxTypeOf pc) msgCtx ||
  ctxType_eqb (ctxTypeOf pc) oneOfCtx || ctxType_eqb (ctxTypeOf pc) enumCtx ||
  ctxType_eqb (ctxTypeOf pc) serviceCtx || ctxType_eqb (ctxTypeOf pc) rpcCtx.
Definition permitsExtensions (pc : parseCtx) := ctxType_eqb (ctxTypeOf pc) msgCtx.
Definition permitsExtend (pc : parseCtx) := ctxType_eqb (ctxTypeOf pc) fileCtx || ctxType_eqb (ctxTypeOf pc) msgCtx.
Definition permitsReserved (pc : parseCtx) := ctxType_eqb (ctxTypeOf pc) msgCtx.
Definition permitsRPC (pc : parseCtx) := ctxType_eqb (ctxTypeOf pc) serviceCtx.
Definition permitsOneOf (pc : parseCtx) := ctxType_eqb (ctxTypeOf pc) msgCtx.
Definition permitsEnum (pc : parseCtx) := ctxType_eqb (ctxTypeOf pc) fileCtx || ctxType_eqb (ctxTypeOf pc) msgCtx.
Definition permitsMsg (pc : parseCtx) := ctxType_eqb (ctxTypeOf pc) fileCtx || ctxType_eqb (ctxTypeOf pc) msgCtx.

(* ------------------------------------------------------------------ *)
(** ** The parser state and its monad *)

(** The fields of [parser] and of its [location], the bufio.Reader as the
    rest of the input plus the rune that UnreadRune may push back (set by a
    successful ReadRune, cleared by every other reader operation), and the
    ProtoFile that the parser functions fill through their [pf] pointer. *)
Record pstate := mkPState {
  input : string;
  lastRune : option ascii;
  line : Z;
  column : Z;
  lastColumnRead : Z;
  eofReached : bool;
  prefix : string;
  pf : ProtoFile }.

Definition set_reader (st : pstate) inp lr ln col lcr : pstate :=
  mkPState inp lr ln col lcr (eofReached st) (prefix st) (pf st).
Definition set_eofReached (st : pstate) : pstate :=
  mkPState (input st) (lastRune st) (line st) (column st) (lastColumnRead st) true (prefix st) (pf st).
Definition set_prefix (st : pstate) (p : string) : pstate :=
  mkPState (input st) (lastRune st) (line st) (column st) (lastColumnRead st) (eofReached st) p (pf st).
Definition set_pf (st : pstate) (p : ProtoFile) : pstate :=
  mkPState (input st) (lastRune st) (line st) (column st) (lastColumnRead st) (eofReached st) (prefix st) p.

(** Outcomes: a value, a returned [error], a Go panic, or the fuel bound of
    the model reached (the Go loop is still running). *)
Inductive outcome (A : Type) : Type :=
| Ok (a : A)
| Err (e : string)
| Panic (e : string)
| NoFuel.
Arguments Ok {A} a.
Arguments Err {A} e.
Arguments Panic {A} e.
Arguments NoFuel {A}.

Definition PM (A : Type) : Type := pstate -> outcome A * pstate.

Definition pm_ret {A} (a : A) : PM A := fun st => (Ok a, st).
Definition pm_bind {A B} (m : PM A) (k : A -> PM B) : PM B := fun st =>
  match m st with
  | (Ok a, st') => k a st'
  | (Err e, st') => (Err e, st')
  | (Panic e, st') => (Panic e, st')
  | (NoFuel, st') => (NoFuel, st')
  end.
Global Instance PM_ret : MRet PM := @pm_ret.
Global Instance PM_bind : MBind PM := fun A B k m => pm_bind m k.

Definition fail {A} (e : string) : PM A := fun st => (Err e, st).
Definition panic {A} (e : string) : PM A := fun st => (Panic e, st).
Definition nofuel {A} : PM A := fun st => (NoFuel, st).
Definition gets {A} (f : pstate -> A) : PM A := fun st => (Ok (f st), st).
Definition modify (f : pstate -> pstate) : PM unit := fun st => (Ok tt, f st).

(** [if v, err := m; err != nil { return h(err) }]: handle a returned error. *)
Definition catch_err {A} (m : PM A) (h : string -> PM A) : PM A := fun st =>
  match m st with
  | (Err e, st') => h e st'
  | r => r
  end.

(** errline, errcol, throw, unexpected *)
Definition errline {A} (msg : string) : PM A := fun st =>
  (Err (msg +:+ " on line: " +:+ show_Z (line st)), st).
Definition errcol {A} (msg : string) : PM A := fun st =>
  (Err (msg +:+ " on line: " +:+ show_Z (line st) +:+ ", column: " +:+ show_Z (column st)), st).
Definition throw {A} (expected actual : ascii) : PM A :=
  errcol ("Expected " +:+ QuoteRune expected +:+ ", but found: " +:+ QuoteRune actual).
Definition unexpected {A} (label : string) (ctx : parseCtx) : PM A :=
  errline ("Unexpected '" +:+ label +:+ "' in context: " +:+ ctxTypeToString (ctxTypeOf ctx)).

(* ------------------------------------------------------------------ *)
(** ** Reader primitives (parser.go: read, unread, skipWhitespace, ...) *)

(** read: ReadRune; at the end of the input it returns [eof] and leaves the
    location alone. *)
Definition read : PM ascii := fun st =>
  match input st with
  | EmptyString => (Ok eof, set_reader st EmptyString None (line st) (column st) (lastColumnRead st))
  | String c rest =>
      if char_eqb c nl
      then (Ok c, set_reader st rest (Some c) (go_inc (line st)) 0 (column st))
      else (Ok c, set_reader st rest (Some c) (line st) (go_inc (column st)) (column st))
  end.

(** unread: UnreadRune only succeeds right after a successful ReadRune. *)
Definition unread : PM unit := fun st =>
  let atLineStart := (column st =? 0) in
  let ln := if atLineStart then go_dec (line st) else line st in
  let col := if atLineStart then lastColumnRead st else column st in
  match lastRune st with
  | Some c => (Ok tt, set_reader st (String c (input st)) None ln col (lastColumnRead st))
  | None => (Ok tt, set_reader st (input st) None ln col (lastColumnRead st))
  end.

Definition setEofReached : PM unit := modify set_eofReached.

Fixpoint skipWhitespace (n : nat) : PM unit :=
  match n with
  | O => nofuel
  | S n' =>
      c ← read;
      if char_eqb c eof then setEofReached
      else if negb (isWhitespace c) then unread
      else skipWhitespace n'
  end.

Fixpoint readWordAdvanced_loop (n : nat) (f : option (ascii -> bool)) (buf : string) : PM string :=
  match n with
  | O => nofuel
  | S n' =>
      c ← read;
      if isValidCharInWord c f then readWordAdvanced_loop n' f (buf +:+ str1 c)
      else (unread ;; mret buf)
  end.
Definition readWordAdvanced (n : nat) (f : option (ascii -> bool)) : PM string :=
  readWordAdvanced_loop n f "".
Definition readWord (n : nat) : PM string := readWordAdvanced n None.

Fixpoint readInt_loop (n : nat) (buf : string) : PM string :=
  match n with
  | O => nofuel
  | S n' =>
      c ← read;
      if isDigit c then readInt_loop n' (buf +:+ str1 c) else (unread ;; mret buf)
  end.
(** readInt: the digits, then strconv.Atoi (whose error is returned as is). *)
Definition readInt (n : nat) : PM Z :=
  s ← readInt_loop n "";
  match Atoi s with GoOk v => mret v | GoErr e => fail e end.

(** bufio.Reader.ReadString(delim): up to and including [delim], or the
    whole rest with io.EOF; it does not go through [read], so the location
    is not updated, and UnreadRune is disabled afterwards. *)
Fixpoint read_string_until (delim : ascii) (s : string) : string * string * bool :=
  match s with
  | EmptyString => (EmptyString, EmptyString, true)
  | String c s' =>
      if char_eqb c delim then (str1 c, s', false)
      else let '(got, rest, ateof) := read_string_until delim s' in (String c got, rest, ateof)
  end.
Fixpoint trimSuffixChar (s : string) (c : ascii) : string :=
  match s with
  | EmptyString => EmptyString
  | String d EmptyString => if char_eqb c d then EmptyString else s
  | String d s' => String d (trimSuffixChar s' c)
  end.
Definition readUntil (delimiter : ascii) : PM string := fun st =>
  let '(got, rest, ateof) := read_string_until delimiter (input st) in
  let st1 := set_reader st rest None (line st) (column st) (lastColumnRead st) in
  (Ok (trimSuffixChar got delimiter), if ateof then set_eofReached st1 else st1).
Definition readUntilNewline : PM string := readUntil nl.

Fixpoint skipUntilNewline (n : nat) : PM unit :=
  match n with
  | O => nofuel
  | S n' =>
      c ← read;
      if char_eqb c nl then mret tt
      else if char_eqb c eof then setEofReached
      else skipUntilNewline n'
  end.

Fixpoint readMultiLineComment_loop (n : nat) (buf : string) : PM string :=
  match n with
  | O => nofuel
  | S n' =>
      c ← read;
      if negb (char_eqb c "*") then readMultiLineComment_loop n' (buf +:+ str1 c)
      else (c2 ← read;
            if char_eqb c2 "/" then mret buf
            else readMultiLineComment_loop n' (buf +:+ str1 c2))
  end.
Definition readMultiLineComment (n : nat) : PM string :=
  buf ← readMultiLineComment_loop n ""; mret (TrimSpace buf).

Fixpoint readSingleLineComment_loop (n : nat) (str : string) : PM string :=
  match n with
  | O => nofuel
  | S n' =>
      skipWhitespace n ;;
      c ← read;
      if negb (char_eqb c "/") then (unread ;; mret str)
      else (c' ← read;
            if negb (char_eqb c' "/") then (unread ;; mret str)
            else (l ← readUntilNewline;
                  readSingleLineComment_loop n' (str +:+ " " +:+ TrimSpace l)))
  end.
(** Reads one or multiple single line comments. *)
Definition readSingleLineComment (n : nat) : PM string :=
  l ← readUntilNewline; readSingleLineComment_loop n (TrimSpace l).

Definition readDocumentation (n : nat) : PM string :=
  c ← read;
  if char_eqb c "/" then readSingleLineComment n
  else if char_eqb c "*" then readMultiLineComment n
  else errline ("Expected '/' or '*', but found: " +:+ QuoteRune c).

Fixpoint readDocumentationIfFound (n : nat) : PM string :=
  match n with
  | O => nofuel
  | S n' =>
      c ← read;
      if char_eqb c eof then (setEofReached ;; mret "")
      else if isWhitespace c then (skipWhitespace n ;; readDocumentationIfFound n')
      else if isStartOfComment c then readDocumentation n
      else (unread ;; mret "")
  end.

(** enclosure *)
Inductive enclosure := parenthesis | bracket | unenclosed.

Definition readName (n : nat) : PM (string * enclosure) :=
  c ← read;
  if char_eqb c "(" then
    (name ← readWord n; c' ← read;
     if negb (char_eqb c' ")") then errline "Expected ')'" else (unread ;; mret (name, parenthesis)))
  else if char_eqb c "[" then
    (name ← readWord n; c' ← read;
     if negb (char_eqb c' "]") then errline "Expected ']'" else (unread ;; mret (name, bracket)))
  else (unread ;; name ← readWord n; mret (name, unenclosed)).

Definition readQuotedString (n : nat) (f : option (ascii -> bool)) : PM string :=
  c ← read;
  if negb (char_eqb c dq) then throw dq c
  else (str ← readWordAdvanced n f;
        c' ← read;
        if negb (char_eqb c' dq) then throw dq c' else mret str).

(** Go's string constants. *)
Definition proto3 : string := "proto3".
Definition optional : string := "optional".
Definition required : string := "required".
Definition repeated : string := "repeated".

(* ------------------------------------------------------------------ *)
(** ** Data types, options, reserved ranges (parser.go) *)

Fixpoint readDataType (n : nat) : PM DataType :=
  match n with
  | O => nofuel
  | S n' => name ← readWord n'; skipWhitespace n' ;; readDataTypeInternal n' name
  end
with readDataTypeInternal (n : nat) (name : string) : PM DataType :=
  if String.eqb name "map" then
    match n with
    | O => nofuel
    | S n' =>
        c ← read;
        if negb (char_eqb c "<") then throw "<" c else
        keyType ← readDataType n';
        c1 ← read;
        if negb (char_eqb c1 ",") then throw "," c1 else
        skipWhitespace n' ;;
        valueType ← readDataType n';
        c2 ← read;
        if negb (char_eqb c2 ">") then throw ">" c2 else
        mret (MapDataType keyType valueType)
    end
  else match NewScalarDataType name with
       | GoOk sdt => mret sdt
       | GoErr _ => mret (NamedDT (mkNamed false name))
       end.

Definition readRequestResponseType (n : nat) : PM NamedDataType :=
  name ← readWord n;
  '(requiresStreaming, name) ←
    (if String.eqb name "stream" then (skipWhitespace n ;; nm ← readWord n; mret (true, nm))
     else mret (false, name));
  skipWhitespace n ;;
  catch_err
    (dt ← readDataTypeInternal n name;
     match dt with
     | NamedDT ndt => mret (mkNamed requiresStreaming (ndt_name ndt))
     | _ => fail "Expected message type"
     end)
    (fun _ => fail "Expected message type").

Definition index_panic : string := "runtime error: index out of range [0] with length 0".

Definition stripParenthesis (s : string) : PM (string * bool) :=
  match first_char s with
  | None => panic index_panic
  | Some c0 =>
      if char_eqb c0 "(" && match last_char s with Some c => char_eqb c ")" | None => false end
      then mret (parenthesisRemovalRegex_Replace s, true)
      else mret (s, false)
  end.
Definition stripQuotes (s : string) : PM string :=
  match first_char s with
  | None => panic index_panic
  | Some c0 =>
      if char_eqb c0 dq && match last_char s with Some c => char_eqb c dq | None => false end
      then mret (quoteRemovalRegex_Replace s)
      else mret s
  end.

Fixpoint readListOptions_pairs (pairs : list string) (acc : list OptionElement) : PM (list OptionElement) :=
  match pairs with
  | [] => mret acc
  | pair' :: rest =>
      let arr := Split pair' "=" in
      match arr with
      | [a0; a1] =>
          '(oname, hasParenthesis) ← stripParenthesis (TrimSpace a0);
          oval ← stripQuotes (TrimSpace a1);
          readListOptions_pairs rest (acc ++ [mkOption oname oval hasParenthesis])
      | _ => errline ("Option '[" +:+ string_join " " arr +:+ "]' is not specified as expected")
      end
  end.
Definition readListOptions : PM (list OptionElement) :=
  optionsStr ← readUntil "]";
  readListOptions_pairs (Split optionsStr ",") [].

(** readListOptionsOnALine *)
Definition readListOptionsOnALine (n : nat) : PM (list OptionElement) :=
  skipWhitespace n ;;
  c ← read;
  options ←
    (if char_eqb c "[" then
       (options ← readListOptions;
        c2 ← read;
        if negb (char_eqb c2 ";") then throw ";" c2 else mret options)
     else if negb (char_eqb c ";") then throw ";" c
     else mret []);
  skipUntilNewline n ;;
  mret options.

Fixpoint readReservedRanges (n : nat) (documentation : string) (me : MessageElement) : PM MessageElement :=
  match n with
  | O => nofuel
  | S n' =>
      start ← readInt n;
      let rr := mkReservedRange documentation start start in
      c ← read;
      if char_eqb c ";" then mret (me_add_ReservedRange me rr)
      else if char_eqb c "," then
        (skipWhitespace n ;; readReservedRanges n' documentation (me_add_ReservedRange me rr))
      else
        (unread ;; skipWhitespace n ;;
         w ← readWord n;
         if negb (String.eqb w "to") then errline ("Expected 'to', but found: " +:+ w) else
         skipWhitespace n ;;
         end_ ← readInt n;
         let rr := mkReservedRange documentation start end_ in
         c2 ← read;
         if char_eqb c2 ";" then mret (me_add_ReservedRange me rr)
         else if char_eqb c2 "," then
           (skipWhitespace n ;; readReservedRanges n' documentation (me_add_ReservedRange me rr))
         else errline ("Expected ',' or ';', but found: " +:+ QuoteRune c2))
  end.

Fixpoint readReservedNames (n : nat) (documentation : string) (me : MessageElement) : PM MessageElement :=
  match n with
  | O => nofuel
  | S n' =>
      name ← readQuotedString n None;
      let me := me_add_ReservedName me name in
      c ← read;
      if char_eqb c ";" then mret me
      else if negb (char_eqb c ",") then throw "," c
      else (skipWhitespace n ;; readReservedNames n' documentation me)
  end.

Definition readReserved (n : nat) (documentation : string) (ctx : parseCtx) : PM parseCtx :=
  match obj ctx with
  | MsgObj me =>
      skipWhitespace n ;;
      c ← read; unread ;;
      me' ← (if isDigit c then readReservedRanges n documentation me
             else readReservedNames n documentation me);
      mret (mkCtx (MsgObj me') (ctxTypeOf ctx))
  | _ => panic "interface conversion: interface {} is not *pbparser.MessageElement"
  end.

(* ------------------------------------------------------------------ *)
(** ** Fields, options, extensions, enum constants, imports, syntax *)

Definition modify_pf (f : ProtoFile -> ProtoFile) : PM unit :=
  modify (fun st => set_pf st (f (pf st))).

Definition is_label (l : string) : bool :=
  String.eqb l required || String.eqb l optional || String.eqb l repeated.

Definition optional_in_proto3_msg : string :=
  "Explicit 'optional' labels are disallowed in the proto3 syntax. " +:+
  "To define 'optional' fields in proto3, simply remove the 'optional' label, as fields " +:+
  "are 'optional' by default.".

(** The extra checks of readField on a field of map type. *)
Definition checkMapField (feLabel : string) (ctx : parseCtx) (ty : DataType) : PM unit :=
  if is_label feLabel then errline ("Label " +:+ feLabel +:+ " is not allowed on map fields")
  else if ctxType_eqb (ctxTypeOf ctx) oneOfCtx then errline "Map fields are not allowed in oneofs"
  else if ctxType_eqb (ctxTypeOf ctx) extendCtx then errline "Map fields are not allowed to be extensions"
  else match ty with
       | MapDataType keyType _ =>
           if String.eqb (Name keyType) "float" || String.eqb (Name keyType) "double"
              || String.eqb (Name keyType) "bytes"
           then errline "Key in map fields cannot be float, double or bytes"
           else if is_named keyType then errline "Key in map fields cannot be a named type"
           else mret tt
       | _ => panic "interface conversion: pbparser.DataType is not pbparser.MapDataType"
       end.

(** Adds a field to the record of a message, extend or oneof context. *)
Definition addField (ctx : parseCtx) (fe : FieldElement) : PM parseCtx :=
  match ctxTypeOf ctx, obj ctx with
  | msgCtx, MsgObj me => mret (mkCtx (MsgObj (me_add_Field me fe)) msgCtx)
  | extendCtx, ExtendObj ee => mret (mkCtx (ExtendObj (ext_add_Field ee fe)) extendCtx)
  | oneOfCtx, OneOfObj oe => mret (mkCtx (OneOfObj (oo_add_Field oe fe)) oneOfCtx)
  | msgCtx, _ | extendCtx, _ | oneOfCtx, _ => panic "interface conversion"
  | _, _ => mret ctx
  end.

Definition readField (n : nat) (label documentation : string) (ctx : parseCtx) : PM parseCtx :=
  syntax ← gets (fun st => Syntax (pf st));
  if String.eqb label optional && String.eqb syntax proto3 then errline optional_in_proto3_msg
  else if String.eqb label required && String.eqb syntax proto3 then
    errline "Required fields are not allowed in proto3"
  else if String.eqb label required && ctxType_eqb (ctxTypeOf ctx) extendCtx then
    errline "Message extensions cannot have required fields"
  else
  '(feLabel, dataTypeStr) ←
    (if is_label label then
       (if ctxType_eqb (ctxTypeOf ctx) oneOfCtx then
          errline ("Label '" +:+ label +:+ "' is disallowed in oneoff field")
        else (skipWhitespace n ;; w ← readWord n; mret (label, w)))
     else mret ("", label));
  feType ← readDataTypeInternal n dataTypeStr;
  (if is_map feType then checkMapField feLabel ctx feType else mret tt) ;;
  skipWhitespace n ;;
  '(feName, _) ← readName n;
  skipWhitespace n ;;
  c ← read;
  if negb (char_eqb c "=") then throw "=" c else
  skipWhitespace n ;;
  feTag ← readInt n;
  feOptions ← readListOptionsOnALine n;
  addField ctx (mkField feName documentation feOptions feLabel feType feTag).

Definition addOption (ctx : parseCtx) (oe : OptionElement) : PM parseCtx :=
  match ctxTypeOf ctx, obj ctx with
  | msgCtx, MsgObj me => mret (mkCtx (MsgObj (me_add_Option me oe)) msgCtx)
  | oneOfCtx, OneOfObj o => mret (mkCtx (OneOfObj (oo_add_Option o oe)) oneOfCtx)
  | enumCtx, EnumObj ee => mret (mkCtx (EnumObj (en_add_Option ee oe)) enumCtx)
  | serviceCtx, ServiceObj se => mret (mkCtx (ServiceObj (svc_add_Option se oe)) serviceCtx)
  | rpcCtx, RPCObj re => mret (mkCtx (RPCObj (rpc_add_Option re oe)) rpcCtx)
  | fileCtx, _ => modify_pf (fun p => pf_add_Option p oe) ;; mret ctx
  | extendCtx, _ => mret ctx
  | _, _ => panic "interface conversion"
  end.

Definition readOption (n : nat) (documentation : string) (ctx : parseCtx) : PM parseCtx :=
  skipWhitespace n ;;
  '(oname, enc) ← readName n;
  let isParen := match enc with parenthesis => true | _ => false end in
  skipWhitespace n ;;
  c ← read;
  if negb (char_eqb c "=") then throw "=" c else
  skipWhitespace n ;;
  c1 ← read;
  value ← (if char_eqb c1 dq then readUntil dq else (unread ;; readWord n));
  skipWhitespace n ;;
  c2 ← read;
  if negb (char_eqb c2 ";") then throw ";" c2 else
  addOption ctx (mkOption oname value isParen).

Definition readExtensions (n : nat) (documentation : string) (ctx : parseCtx) : PM parseCtx :=
  syntax ← gets (fun st => Syntax (pf st));
  if String.eqb syntax proto3 then errline "Extension ranges are not allowed in proto3" else
  skipWhitespace n ;;
  start ← readInt n;
  c ← read;
  end_ ←
    (if negb (char_eqb c ";") then
       (unread ;; skipWhitespace n ;;
        w ← readWord n;
        if negb (String.eqb w "to") then errline ("Expected 'to', but found: " +:+ w) else
        skipWhitespace n ;;
        endStr ← readWord n;
        if String.eqb endStr "max" then mret 536870911
        else match Atoi endStr with GoOk v => mret v | GoErr e => fail e end)
     else mret start);
  let xe := mkExtensions documentation start end_ in
  match obj ctx with
  | MsgObj me => mret (mkCtx (MsgObj (me_add_Extensions me xe)) (ctxTypeOf ctx))
  | _ => panic "interface conversion: interface {} is not *pbparser.MessageElement"
  end.

Definition readEnumConstant (n : nat) (label documentation : string) (ctx : parseCtx) : PM parseCtx :=
  skipWhitespace n ;;
  c ← read;
  if negb (char_eqb c "=") then throw "=" c else
  skipWhitespace n ;;
  tag ← catch_err (readInt n)
          (fun e => errline ("Unable to read tag for Enum Constant: " +:+ label +:+ " due to: " +:+ e));
  options ← readListOptionsOnALine n;
  let ec := mkEnumConstant label documentation options tag in
  match obj ctx with
  | EnumObj ee => mret (mkCtx (EnumObj (en_add_Constant ee ec)) (ctxTypeOf ctx))
  | _ => panic "interface conversion: interface {} is not *pbparser.EnumElement"
  end.

Definition isPathSeparator (r : ascii) : bool := char_eqb r "/".

Definition readImport (n : nat) : PM unit :=
  skipWhitespace n ;;
  c ← read; unread ;;
  (if char_eqb c dq then
     (importString ← readQuotedString n (Some isPathSeparator);
      modify_pf (fun p => pf_add_Dependency p importString))
   else
     (publicStr ← readWord n;
      if negb (String.eqb "public" publicStr) then errline ("Expected 'public', but found: " +:+ publicStr) else
      skipWhitespace n ;;
      importString ← readQuotedString n (Some isPathSeparator);
      modify_pf (fun p => pf_add_PublicDependency p importString))) ;;
  c' ← read;
  if negb (char_eqb c' ";") then throw ";" c' else mret tt.

Definition readSyntax (n : nat) : PM unit :=
  skipWhitespace n ;;
  c ← read;
  if negb (char_eqb c "=") then throw "=" c else
  skipWhitespace n ;;
  syntax ← readQuotedString n None;
  if negb (String.eqb syntax "proto2") && negb (String.eqb syntax proto3) then
    errline ("'syntax' must be 'proto2' or 'proto3'. Found: " +:+ syntax) else
  c' ← read;
  if negb (char_eqb c' ";") then throw ";" c' else
  modify_pf (fun p => pf_set_Syntax p syntax).

(* ------------------------------------------------------------------ *)
(** ** Declarations (parser.go: readDeclaration and the block readers) *)

(** [defer func() { p.prefix = previousPrefix }()]: runs on every return. *)
Definition with_prefix_restored {A} (previousPrefix : string) (m : PM A) : PM A := fun st =>
  let '(r, st') := m st in (r, set_prefix st' previousPrefix).

Definition isEofReached : PM bool := gets eofReached.

Definition ctxMsgPanic {A} : PM A := panic "interface conversion: interface {} is not *pbparser.MessageElement".

Section Blocks.
(** The block readers call back into readDeclaration(pf, documentation, ctx). *)
Variable readDecl : string -> parseCtx -> PM parseCtx.

Fixpoint readDeclarationsInLoop (n : nat) (ctx : parseCtx) : PM parseCtx :=
  match n with
  | O => nofuel
  | S n' =>
      doc ← readDocumentationIfFound n;
      skipWhitespace n ;;
      e ← isEofReached;
      if (e : bool) then fail ("Reached end of input in " +:+ ctxTypeToString (ctxTypeOf ctx) +:+ " definition (missing '}')")
      else (c ← read;
            if char_eqb c "}" then mret ctx
            else (unread ;; ctx' ← readDecl doc ctx; readDeclarationsInLoop n' ctx'))
  end.

Definition readMessage (n : nat) (documentation : string) (ctx : parseCtx) : PM parseCtx :=
  skipWhitespace n ;;
  '(name, _) ← readName n;
  previousPrefix ← gets prefix;
  let me := mkMessage name (previousPrefix +:+ name) documentation [] [] [] [] [] [] [] [] [] in
  with_prefix_restored previousPrefix
    (modify (fun st => set_prefix st (previousPrefix +:+ name +:+ ".")) ;;
     skipWhitespace n ;;
     c ← read;
     if negb (char_eqb c "{") then throw "{" c else
     inner ← readDeclarationsInLoop n (mkCtx (MsgObj me) msgCtx);
     let me := match obj inner with MsgObj m => m | _ => me end in
     if ctxType_eqb (ctxTypeOf ctx) msgCtx then
       match obj ctx with
       | MsgObj parent => mret (mkCtx (MsgObj (me_add_Message parent me)) msgCtx)
       | _ => ctxMsgPanic
       end
     else (modify_pf (fun p => pf_add_Message p me) ;; mret ctx)).

Definition readOneOf (n : nat) (documentation : string) (ctx : parseCtx) : PM parseCtx :=
  skipWhitespace n ;;
  '(name, _) ← readName n;
  let oe := mkOneOf name documentation [] [] in
  skipWhitespace n ;;
  c ← read;
  if negb (char_eqb c "{") then throw "{" c else
  inner ← readDeclarationsInLoop n (mkCtx (OneOfObj oe) oneOfCtx);
  let oe := match obj inner with OneOfObj o => o | _ => oe end in
  match obj ctx with
  | MsgObj me => mret (mkCtx (MsgObj (me_add_OneOf me oe)) (ctxTypeOf ctx))
  | _ => ctxMsgPanic
  end.

Definition readExtend (n : nat) (documentation : string) (ctx : parseCtx) : PM parseCtx :=
  skipWhitespace n ;;
  '(name, _) ← readName n;
  pfx ← gets prefix;
  let qualifiedName :=
    if negb (ContainsRune name ".") && negb (String.eqb pfx "") then pfx +:+ name else name in
  let ee := mkExtend name qualifiedName documentation [] in
  skipWhitespace n ;;
  c ← read;
  if negb (char_eqb c "{") then throw "{" c else
  inner ← readDeclarationsInLoop n (mkCtx (ExtendObj ee) extendCtx);
  let ee := match obj inner with ExtendObj x => x | _ => ee end in
  if ctxType_eqb (ctxTypeOf ctx) msgCtx then
    match obj ctx with
    | MsgObj me => mret (mkCtx (MsgObj (me_add_Extend me ee)) msgCtx)
    | _ => ctxMsgPanic
    end
  else (modify_pf (fun p => pf_add_Extend p ee) ;; mret ctx).

Fixpoint readRPC_body (n : nat) (ctx : parseCtx) : PM parseCtx :=
  match n with
  | O => nofuel
  | S n' =>
      c2 ← read;
      if char_eqb c2 "}" then mret ctx else
      unread ;;
      e ← isEofReached;
      if (e : bool) then mret ctx else
      withinRPCBracketsDocumentation ← readDocumentationIfFound n;
      skipWhitespace n ;;
      ctx' ← readDecl withinRPCBracketsDocumentation ctx;
      readRPC_body n' ctx'
  end.

Definition readRPC (n : nat) (se : ServiceElement) (documentation : string) : PM ServiceElement :=
  skipWhitespace n ;;
  '(name, _) ← readName n;
  skipWhitespace n ;;
  c ← read;
  if negb (char_eqb c "(") then throw "(" c else
  requestType ← readRequestResponseType n;
  c1 ← read;
  if negb (char_eqb c1 ")") then throw ")" c1 else
  skipWhitespace n ;;
  keyword ← readWord n;
  if negb (String.eqb keyword "returns") then errline ("Expected 'returns', but found: " +:+ keyword) else
  skipWhitespace n ;;
  c2 ← read;
  if negb (char_eqb c2 "(") then throw "(" c2 else
  responseType ← readRequestResponseType n;
  c3 ← read;
  if negb (char_eqb c3 ")") then throw ")" c3 else
  skipWhitespace n ;;
  let rpc := mkRPC name documentation [] requestType responseType in
  c4 ← read;
  rpc ← (if char_eqb c4 "{" then
           (inner ← readRPC_body n (mkCtx (RPCObj rpc) rpcCtx);
            mret (match obj inner with RPCObj r => r | _ => rpc end))
         else if negb (char_eqb c4 ";") then throw ";" c4
         else mret rpc);
  mret (svc_add_RPC se rpc).

Definition readService (n : nat) (documentation : string) : PM unit :=
  skipWhitespace n ;;
  '(name, _) ← readName n;
  skipWhitespace n ;;
  c ← read;
  if negb (char_eqb c "{") then throw "{" c else
  pfx ← gets prefix;
  let se := mkService name (pfx +:+ name) documentation [] [] in
  inner ← readDeclarationsInLoop n (mkCtx (ServiceObj se) serviceCtx);
  let se := match obj inner with ServiceObj s => s | _ => se end in
  modify_pf (fun p => pf_add_Service p se).

Definition readEnum (n : nat) (documentation : string) (ctx : parseCtx) : PM parseCtx :=
  skipWhitespace n ;;
  '(name, _) ← readName n;
  skipWhitespace n ;;
  c ← read;
  if negb (char_eqb c "{") then throw "{" c else
  pfx ← gets prefix;
  let ee := mkEnum name (pfx +:+ name) documentation [] [] in
  inner ← readDeclarationsInLoop n (mkCtx (EnumObj ee) enumCtx);
  let ee := match obj inner with EnumObj x => x | _ => ee end in
  if ctxType_eqb (ctxTypeOf ctx) msgCtx then
    match obj ctx with
    | MsgObj me => mret (mkCtx (MsgObj (me_add_Enum me ee)) msgCtx)
    | _ => ctxMsgPanic
    end
  else (modify_pf (fun p => pf_add_Enum p ee) ;; mret ctx).
End Blocks.

(** readDeclaration: the knot of the mutual recursion, tied by fuel. *)
Fixpoint readDeclaration (n : nat) (documentation : string) (ctx : parseCtx) : PM parseCtx :=
  match n with
  | O => nofuel
  | S n' =>
      let decl := readDeclaration n' in
      c ← read;
      if char_eqb c ";" then mret ctx else
      unread ;;
      label ← readWord n;
      if String.eqb label "package" then
        (if negb (permitsPackage ctx) then unexpected label ctx else
         skipWhitespace n ;;
         w ← readWord n;
         modify_pf (fun p => pf_set_PackageName p w) ;;
         modify (fun st => set_prefix st (w +:+ ".")) ;;
         mret ctx)
      else if String.eqb label "syntax" then
        (if negb (permitsSyntax ctx) then unexpected label ctx else readSyntax n ;; mret ctx)
      else if String.eqb label "import" then
        (if negb (permitsImport ctx) then unexpected label ctx else readImport n ;; mret ctx)
      else if String.eqb label "option" then
        (if negb (permitsOption ctx) then unexpected label ctx else readOption n documentation ctx)
      else if String.eqb label "message" then
        (if negb (permitsMsg ctx) then unexpected label ctx else readMessage decl n documentation ctx)
      else if String.eqb label "enum" then
        (if negb (permitsEnum ctx) then unexpected label ctx else readEnum decl n documentation ctx)
      else if String.eqb label "extend" then
        (if negb (permitsExtend ctx) then unexpected label ctx else readExtend decl n documentation ctx)
      else if String.eqb label "service" then
        (readService decl n documentation ;; mret ctx)
      else if String.eqb label "rpc" then
        (if negb (permitsRPC ctx) then unexpected label ctx else
         match obj ctx with
         | ServiceObj se => se' ← readRPC decl n se documentation; mret (mkCtx (ServiceObj se') (ctxTypeOf ctx))
         | _ => panic "interface conversion: interface {} is not *pbparser.ServiceElement"
         end)
      else if String.eqb label "oneof" then
        (if negb (permitsOneOf ctx) then unexpected label ctx else readOneOf decl n documentation ctx)
      else if String.eqb label "extensions" then
        (if negb (permitsExtensions ctx) then unexpected label ctx else readExtensions n documentation ctx)
      else if String.eqb label "reserved" then
        (if negb (permitsReserved ctx) then unexpected label ctx else readReserved n documentation ctx)
      else if ctxType_eqb (ctxTypeOf ctx) msgCtx || ctxType_eqb (ctxTypeOf ctx) extendCtx
              || ctxType_eqb (ctxTypeOf ctx) oneOfCtx then
        (if negb (permitsField ctx) then errline "fields must be nested" else readField n label documentation ctx)
      else if ctxType_eqb (ctxTypeOf ctx) enumCtx then readEnumConstant n label documentation ctx
      else if negb (String.eqb label "") then unexpected label ctx
      else mret ctx
  end.

(** The main loop of parser.parse. *)
Fixpoint parse_loop (n : nat) : PM unit :=
  match n with
  | O => nofuel
  | S n' =>
      documentation ← readDocumentationIfFound n;
      e1 ← isEofReached;
      if (e1 : bool) then mret tt else
      skipWhitespace n ;;
      e2 ← isEofReached;
      if (e2 : bool) then mret tt else
      _ ← readDeclaration n documentation (mkCtx NoObj fileCtx);
      e3 ← isEofReached;
      if (e3 : bool) then mret tt else parse_loop n'
  end.

(** parse: location {line: 1, column: 0}, empty prefix, zero ProtoFile. *)
Definition initState (content : string) : pstate :=
  mkPState content None 1 0 0 false "" emptyProtoFile.

Definition parse (n : nat) (content : string) : outcome ProtoFile :=
  let '(r, st) := parse_loop n (initState content) in
  match r with
  | Ok _ => Ok (pf st)
  | Err e => Err e
  | Panic e => Panic e
  | NoFuel => NoFuel
  end.

(* ------------------------------------------------------------------ *)
(** ** The verifier (verifier.go) *)

(** A Go [error] result of the verifier's helpers, chained fail-fast. *)
Definition go_then (e : goResult unit) (k : goResult unit) : goResult unit :=
  match e with GoErr m => GoErr m | GoOk _ => k end.
Fixpoint go_forall {X} (f : X -> goResult unit) (xs : list X) : goResult unit :=
  match xs with [] => GoOk tt | x :: rest => go_then (f x) (go_forall f rest) end.

(** [len(xs) > 0] *)
Definition has_elems {X} (xs : list X) : bool := match xs with [] => false | _ => true end.

(** protoFileOracle; a map[string]bool that only ever holds [true] is a set. *)
Record protoFileOracle := mkOracle { o_pf : ProtoFile; msgmap : gset string; enummap : gset string }.
Definition oracleMap := gmap string protoFileOracle.
(** [m[k]] for a missing key yields the zero oracle, whose maps are empty. *)
Definition zeroOracle : protoFileOracle := mkOracle emptyProtoFile ∅ ∅.
Definition oracle_at (m : oracleMap) (k : string) : protoFileOracle := default zeroOracle (m !! k).

Definition merge (dest src : ProtoFile) : ProtoFile :=
  pf_set dest (PackageName dest) (Syntax dest) (Dependencies dest ++ Dependencies src)
    (PublicDependencies dest ++ PublicDependencies src) (pf_Options dest ++ pf_Options src)
    (pf_Enums dest ++ pf_Enums src) (pf_Messages dest ++ pf_Messages src) (pf_Services dest)
    (pf_ExtendDeclarations dest ++ pf_ExtendDeclarations src).

Definition isDatatypeInSamePackage (datatypeName : string) (packageNames : list string) : bool * string :=
  match List.find (fun pkg => HasPrefix datatypeName (pkg +:+ ".")) packageNames with
  | Some pkg => (false, pkg)
  | None => (true, "")
  end.

Definition usesPackage (s pkg : string) (packageNames : list string) : bool :=
  if ContainsRune s "." then
    let '(inSamePkg, pkgName) := isDatatypeInSamePackage s packageNames in
    negb inSamePkg && String.eqb pkg pkgName
  else false.

(** checkImportedPackageUsage, for one message: its own fields, then its
    nested messages (when [len(msg.Messages) > 0]). *)
Fixpoint checkImportedPackageUsage_msg (pkg : string) (packageNames : list string) (msg : MessageElement) : bool :=
  let '(mkMessage _ _ _ _ fields _ nested _ _ _ _ _) := msg in
  existsb (fun f => is_named (fe_Type f) && usesPackage (Name (fe_Type f)) pkg packageNames) fields
  || (has_elems nested && existsb (checkImportedPackageUsage_msg pkg packageNames) nested).
Definition checkImportedPackageUsage (msgs : list MessageElement) (pkg : string) (packageNames : list string) : bool :=
  existsb (checkImportedPackageUsage_msg pkg packageNames) msgs.

Definition areImportedPackagesUsed (pf : ProtoFile) (packageNames : list string) : goResult unit :=
  go_forall (fun pkg =>
    let inuse :=
      existsb (fun service => existsb (fun rpc =>
          usesPackage (ndt_name (rpc_RequestType rpc)) pkg packageNames
          || usesPackage (ndt_name (rpc_ResponseType rpc)) pkg packageNames) (svc_RPCs service))
        (pf_Services pf)
      || checkImportedPackageUsage (pf_Messages pf) pkg packageNames in
    if inuse then GoOk tt else GoErr ("Imported package: " +:+ pkg +:+ " but not used"))
    packageNames.

(** validateUniqueMessageEnumNames: the set [m] is shared by the enums and
    the messages of one level. *)
Fixpoint dup_names (seen : gset string) (names : list string) : option string * gset string :=
  match names with
  | [] => (None, seen)
  | x :: rest => if decide (x ∈ seen) then (Some x, seen) else dup_names ({[x]} ∪ seen) rest
  end.
(** The duplicate checks of one level of validateUniqueMessageEnumNames. *)
Definition uniqueNamesAtLevel (ctxName : string) (enums : list EnumElement) (msgs : list MessageElement) : goResult unit :=
  let '(d1, seen) := dup_names ∅ (map en_Name enums) in
  match d1 with
  | Some x => GoErr ("Duplicate name " +:+ x +:+ " in " +:+ ctxName)
  | None =>
      match fst (dup_names seen (map me_Name msgs)) with
      | Some x => GoErr ("Duplicate name " +:+ x +:+ " in " +:+ ctxName)
      | None => GoOk tt
      end
  end.
(** The recursive call validateUniqueMessageEnumNames(message msg.Name, msg.Enums, msg.Messages). *)
Fixpoint validateUniqueInMessage (msg : MessageElement) : goResult unit :=
  let '(mkMessage name _ _ _ _ enums nested _ _ _ _ _) := msg in
  go_then (uniqueNamesAtLevel ("message " +:+ name) enums nested) (go_forall validateUniqueInMessage nested).
Definition validateUniqueMessageEnumNames (ctxName : string) (enums : list EnumElement) (msgs : list MessageElement) : goResult unit :=
  go_then (uniqueNamesAtLevel ctxName enums msgs) (go_forall validateUniqueInMessage msgs).

Definition isAllowAlias (en : EnumElement) : bool :=
  existsb (fun op => String.eqb (opt_Name op) "allow_alias" && String.eqb (opt_Value op) "true") (en_Options en).

(** One enum's loop of validateEnumConstantTagAliases, with its map[int]bool. *)
Fixpoint tagAliases_loop (en : EnumElement) (seen : gset Z) (encs : list EnumConstantElement) : goResult unit :=
  match encs with
  | [] => GoOk tt
  | enc :: rest =>
      if bool_decide (ec_Tag enc ∈ seen) && negb (isAllowAlias en)
      then GoErr (ec_Name enc +:+ " is reusing an enum value. If this is intended, set 'option allow_alias = true;' in the enum")
      else tagAliases_loop en ({[ec_Tag enc]} ∪ seen) rest
  end.
Definition validateEnumConstantTagAliases (enums : list EnumElement) : goResult unit :=
  go_forall (fun en => tagAliases_loop en ∅ (en_EnumConstants en)) enums.

Fixpoint validateEnumConstantTagAliasesInMessage (msg : MessageElement) : goResult unit :=
  let '(mkMessage _ _ _ _ _ enums nested _ _ _ _ _) := msg in
  go_then (validateEnumConstantTagAliases enums)
    ((fix go (ms : list MessageElement) : goResult unit :=
        match ms with
        | [] => GoOk tt
        | m :: rest => go_then (validateEnumConstantTagAliasesInMessage m) (go rest)
        end) nested).

(** validateEnumConstants: one map of constant names across all enums of a level. *)
Definition validateEnumConstants (ctxName : string) (enums : list EnumElement) : goResult unit :=
  match fst (dup_names ∅ (map ec_Name (concat (map en_EnumConstants enums)))) with
  | Some x => GoErr ("Enum constant " +:+ x +:+ " is already defined in " +:+ ctxName)
  | None => GoOk tt
  end.

Fixpoint validateEnumConstantsInMessage (msg : MessageElement) : goResult unit :=
  let '(mkMessage name _ _ _ _ enums nested _ _ _ _ _) := msg in
  go_then (validateEnumConstants ("message " +:+ name) enums)
    ((fix go (ms : list MessageElement) : goResult unit :=
        match ms with
        | [] => GoOk tt
        | m :: rest => go_then (validateEnumConstantsInMessage m) (go rest)
        end) nested).

Definition validateSyntax (pf : ProtoFile) : goResult unit :=
  if String.eqb (Syntax pf) "" then GoErr "No syntax specified in the proto file" else GoOk tt.

(** getDependencyPackageNames: the keys of the oracle map other than the
    main package. Go's map iteration order is unspecified; the gmap's own
    order is one admissible order. *)
Definition getDependencyPackageNames (mainPkgName : string) (m : oracleMap) : list string :=
  filter (fun k => negb (String.eqb k mainPkgName)) (map fst (map_to_list m)).

Fixpoint gatherNestedQNames (parentmsg : MessageElement) (maps : gset string * gset string) : gset string * gset string :=
  let '(mkMessage _ _ _ _ _ enums nested _ _ _ _ _) := parentmsg in
  let '(msgmap, enummap) :=
    fold_left (fun acc nestedmsg =>
                 gatherNestedQNames nestedmsg ({[me_QualifiedName nestedmsg]} ∪ acc.1, acc.2)) nested maps in
  (msgmap, fold_left (fun e en => {[en_QualifiedName en]} ∪ e) enums enummap).

Definition makeQNameLookup (dpf : ProtoFile) : gset string * gset string :=
  let '(msgmap, enummap) :=
    fold_left (fun acc msg => gatherNestedQNames msg ({[me_QualifiedName msg]} ∪ acc.1, acc.2))
      (pf_Messages dpf) (∅, ∅) in
  (msgmap, fold_left (fun e en => {[en_QualifiedName en]} ∪ e) (pf_Enums dpf) enummap).

Record fd := mkFd { fd_name : string; category : string; fd_msg : MessageElement }.

Fixpoint findFieldsToValidate_msg (msg : MessageElement) : list fd :=
  let '(mkMessage _ _ _ _ fields _ nested _ _ _ _ _) := msg in
  map (fun f => mkFd (fe_Name f) (Name (fe_Type f)) msg) (filter (fun f => is_named (fe_Type f)) fields)
  ++ (if has_elems nested then flat_map findFieldsToValidate_msg nested else []).
Definition findFieldsToValidate (msgs : list MessageElement) : list fd :=
  flat_map findFieldsToValidate_msg msgs.

Fixpoint checkMsgName_msg (m : string) (msg : MessageElement) : bool :=
  let '(mkMessage name _ _ _ _ _ nested _ _ _ _ _) := msg in
  String.eqb name m || (has_elems nested && existsb (checkMsgName_msg m) nested).
Definition checkMsgName (m : string) (msgs : list MessageElement) : bool :=
  existsb (checkMsgName_msg m) msgs.

(** The recursive call checkEnumName(s, msg.Messages, msg.Enums), made only
    when [len(msg.Messages) > 0]. *)
Fixpoint checkEnumName_msg (s : string) (msg : MessageElement) : bool :=
  let '(mkMessage _ _ _ _ _ enums nested _ _ _ _ _) := msg in
  has_elems nested
  && (existsb (fun en => String.eqb (en_Name en) s) enums || existsb (checkEnumName_msg s) nested).
Definition checkEnumName (s : string) (msgs : list MessageElement) (enums : list EnumElement) : bool :=
  existsb (fun en => String.eqb (en_Name en) s) enums || existsb (checkEnumName_msg s) msgs.

Definition checkMsgOrEnumName (s : string) (msgs : list MessageElement) (enums : list EnumElement) : bool :=
  checkMsgName s msgs || checkEnumName s msgs enums.

Definition validateFieldDataTypes (mainpkg : string) (f : fd) (msgs : list MessageElement)
    (enums : list EnumElement) (m : oracleMap) (packageNames : list string) : goResult unit :=
  let found :=
    if ContainsRune (category f) "." then
      let '(inSamePkg, pkgName) := isDatatypeInSamePackage (category f) packageNames in
      if inSamePkg then
        let orcl := oracle_at m mainpkg in
        let matchTerm := if negb (HasPrefix (category f) (mainpkg +:+ "."))
                         then mainpkg +:+ "." +:+ category f else category f in
        bool_decide (matchTerm ∈ msgmap orcl) || bool_decide (matchTerm ∈ enummap orcl)
      else
        let orcl := oracle_at m pkgName in
        bool_decide (category f ∈ msgmap orcl) || bool_decide (category f ∈ enummap orcl)
    else
      checkMsgOrEnumName (category f) (me_Messages (fd_msg f)) (me_Enums (fd_msg f))
      || checkMsgOrEnumName (category f) msgs enums in
  if found then GoOk tt
  else GoErr ("Datatype: '" +:+ category f +:+ "' referenced in field: '" +:+ fd_name f +:+ "' is not defined").

Definition validateRPCDataType (mainpkg service rpc : string) (datatype : NamedDataType)
    (msgs : list MessageElement) (m : oracleMap) (packageNames : list string) : goResult unit :=
  let dname := ndt_name datatype in
  let found :=
    if ContainsRune dname "." then
      let '(inSamePkg, pkgName) := isDatatypeInSamePackage dname packageNames in
      if inSamePkg then bool_decide ((mainpkg +:+ "." +:+ dname) ∈ msgmap (oracle_at m mainpkg))
      else bool_decide (dname ∈ msgmap (oracle_at m pkgName))
    else checkMsgName dname msgs in
  if found then GoOk tt
  else GoErr ("Datatype: '" +:+ dname +:+ "' referenced in RPC: '" +:+ rpc +:+ "' of Service: '" +:+ service
              +:+ "' is not defined OR is not a message type").

(** ImportModuleProvider.Provide(module): a reader over some content, an
    error, or a nil reader with a nil error. *)
Inductive provided := Provided (content : string) | ProvideErr (e : string) | ProvideNil.
Definition ImportModuleProvider := string -> provided.

(** Adding a parsed file's oracle: into the existing oracle of its package
    (whose maps are shared, so they are updated in place), or as a new entry. *)
Definition add_oracle (m : oracleMap) (dpf : ProtoFile) : oracleMap :=
  let '(mm, em) := makeQNameLookup dpf in
  match m !! PackageName dpf with
  | Some o => <[PackageName dpf := mkOracle (o_pf o) (msgmap o ∪ mm) (enummap o ∪ em)]> m
  | None => <[PackageName dpf := mkOracle dpf mm em]> m
  end.

Fixpoint parseDependencies (n : nat) (impr : ImportModuleProvider) (dependencies : list string) (m : oracleMap)
    : outcome oracleMap :=
  match dependencies with
  | [] => Ok m
  | d :: rest =>
      match impr d with
      | ProvideErr e =>
          Err ("ImportModuleReader is unable to provide content of dependency module " +:+ d +:+ ". Reason:: " +:+ e)
      | ProvideNil => Err ("ImportModuleReader is unable to provide reader for dependency module " +:+ d)
      | Provided content =>
          match parse n content with
          | Err e => Err ("Unable to parse dependency " +:+ d +:+ ". Reason:: " +:+ e)
          | Panic e => Panic e
          | NoFuel => NoFuel
          | Ok dpf =>
              match validateSyntax dpf with
              | GoErr e => Err e
              | GoOk _ => parseDependencies n impr rest (add_oracle m dpf)
              end
          end
      end
  end.

(** The last step of verify: allow aliases in enums, top-level and nested in
    messages (howsoever deep), only if option allow_alias is specified. *)
Definition enumAliasPhase (pf : ProtoFile) : goResult unit :=
  go_then (validateEnumConstantTagAliases (pf_Enums pf))
          (go_forall validateEnumConstantTagAliasesInMessage (pf_Messages pf)).

(** The checks of verify between the collation of the package names and the
    alias step. *)
Definition checks_before_aliases (pf : ProtoFile) (m : oracleMap) (packageNames : list string) : goResult unit :=
  let mainpkg := PackageName pf in
  go_then (areImportedPackagesUsed pf packageNames)
  (go_then (go_forall (fun f => validateFieldDataTypes mainpkg f (pf_Messages pf) (pf_Enums pf) m packageNames)
              (findFieldsToValidate (pf_Messages pf)))
  (go_then (go_forall (fun s => go_forall (fun rpc =>
              go_then (validateRPCDataType mainpkg (svc_Name s) (rpc_Name rpc) (rpc_RequestType rpc) (pf_Messages pf) m packageNames)
                      (validateRPCDataType mainpkg (svc_Name s) (rpc_Name rpc) (rpc_ResponseType rpc) (pf_Messages pf) m packageNames))
              (svc_RPCs s)) (pf_Services pf))
  (go_then (validateUniqueMessageEnumNames ("package " +:+ mainpkg) (pf_Enums pf) (pf_Messages pf))
  (go_then (validateEnumConstants ("package " +:+ mainpkg) (pf_Enums pf))
           (go_forall validateEnumConstantsInMessage (pf_Messages pf)))))).

(** The checks of verify that follow the collation of the package names. *)
Definition verify_checks (pf : ProtoFile) (m : oracleMap) (packageNames : list string) : goResult unit :=
  go_then (checks_before_aliases pf m packageNames) (enumAliasPhase pf).

(** verify; [impr = None] is a nil provider. The result carries the main
    ProtoFile as verify leaves it (merged with an imported file of the same
    package). *)
Definition verify (n : nat) (impr : option ImportModuleProvider) (pf : ProtoFile) : outcome ProtoFile :=
  match validateSyntax pf with
  | GoErr e => Err e
  | GoOk _ =>
      if (has_elems (Dependencies pf) || has_elems (PublicDependencies pf))
         && match impr with None => true | Some _ => false end
      then Err "ImportModuleProvider is required to validate imports"
      else
        let provide := default (fun _ => ProvideNil) impr in
        match parseDependencies n provide (Dependencies pf) ∅ with
        | Err e => Err e | Panic e => Panic e | NoFuel => NoFuel
        | Ok m1 =>
            match parseDependencies n provide (PublicDependencies pf) m1 with
            | Err e => Err e | Panic e => Panic e | NoFuel => NoFuel
            | Ok m2 =>
                let '(mm, em) := makeQNameLookup pf in
                let '(m, pf) :=
                  match m2 !! PackageName pf with
                  | Some o => (<[PackageName pf := mkOracle (o_pf o) (msgmap o ∪ mm) (enummap o ∪ em)]> m2,
                               merge pf (o_pf o))
                  | None => (<[PackageName pf := mkOracle pf mm em]> m2, pf)
                  end in
                let packageNames := getDependencyPackageNames (PackageName pf) m in
                match verify_checks pf m packageNames with
                | GoErr e => Err e
                | GoOk _ => Ok pf
                end
            end
        end
  end.

(** Parse: parse the main content, then verify it. *)
Definition Parse (n : nat) (content : string) (impr : option ImportModuleProvider) : outcome ProtoFile :=
  match parse n content with
  | Ok pf => verify n impr pf
  | Err e => Err e
  | Panic e => Panic e
  | NoFuel => NoFuel
  end.

(* ------------------------------------------------------------------ *)
(** ** Vocabulary of the specification *)

(** The messages of a list, each followed by its nested messages at any depth. *)
Fixpoint msg_tree (m : MessageElement) : list MessageElement :=
  let '(mkMessage _ _ _ _ _ _ nested _ _ _ _ _) := m in m :: flat_map msg_tree nested.
Definition msg_forest (msgs : list MessageElement) : list MessageElement := flat_map msg_tree msgs.

(** [sub] occurs in [s]. *)
Definition contains (s sub : string) : Prop := exists a b, s = a +:+ sub +:+ b.

(** Qualified names: a prefix in effect is empty or ends in a dot. *)
Definition dotted (p : string) : Prop := p = "" \/ exists q, p = q +:+ ".".

(** A message declared under prefix [p]: its qualified name is [p] followed
    by its name, and its body is read under the prefix [p name.]. *)
Inductive msg_qn_ok : string -> MessageElement -> Prop :=
| msg_qn_ok_intro (p : string) (M : MessageElement) :
    me_QualifiedName M = p +:+ me_Name M ->
    Forall (msg_qn_ok (p +:+ me_Name M +:+ ".")) (me_Messages M) ->
    Forall (fun e => en_QualifiedName e = p +:+ me_Name M +:+ "." +:+ en_Name e) (me_Enums M) ->
    msg_qn_ok p M.

(** Unused imports: [s] refers to [pkg] when [pkg.] is the first prefix of
    [s] among the package names. *)
Definition refers_to_package (packageNames : list string) (s pkg : string) : Prop :=
  exists pre post, packageNames = (pre ++ pkg :: post)%list /\ HasPrefix s (pkg +:+ ".") = true /\
    Forall (fun q => HasPrefix s (q +:+ ".") = false) pre.

(** A package is referenced by a named-type field declared in a message body
    (at any depth) or by a request or response type of an RPC. *)
Definition package_referenced (pf : ProtoFile) (packageNames : list string) (pkg : string) : Prop :=
  (exists msg f, In msg (msg_forest (pf_Messages pf)) /\ In f (me_Fields msg) /\
     is_named (fe_Type f) = true /\ refers_to_package packageNames (Name (fe_Type f)) pkg)
  \/ (exists svc rpc, In svc (pf_Services pf) /\ In rpc (svc_RPCs svc) /\
       (refers_to_package packageNames (ndt_name (rpc_RequestType rpc)) pkg
        \/ refers_to_package packageNames (ndt_name (rpc_ResponseType rpc)) pkg)).

(** Enum aliases: the enums of a file, top-level and nested at any depth. *)
Definition all_enums (pf : ProtoFile) : list EnumElement :=
  pf_Enums pf ++ flat_map me_Enums (msg_forest (pf_Messages pf)).
Definition has_duplicate_tag (en : EnumElement) : Prop := ~ NoDup (map ec_Tag (en_EnumConstants en)).
Definition alias_ok (en : EnumElement) : Prop :=
  isAllowAlias en = true \/ NoDup (map ec_Tag (en_EnumConstants en)).
Definition reusing_msg (enc : EnumConstantElement) : string :=
  ec_Name enc +:+ " is reusing an enum value. If this is intended, set 'option allow_alias = true;' in the enum".
(** A constant of an enum without allow_alias whose tag repeats the tag of
    an earlier constant of the enum. *)
Definition reused_tag (en : EnumElement) (enc : EnumConstantElement) : Prop :=
  isAllowAlias en = false /\
  exists pre post, en_EnumConstants en = (pre ++ enc :: post)%list /\ In (ec_Tag enc) (map ec_Tag pre).

(** Dot-free type references: a message of that name among the messages
    (at any depth), or an enum of that name at the level or declared in a
    message (at any depth) that has nested messages. *)
Definition resolves_in (s : string) (msgs : list MessageElement) (enums : list EnumElement) : Prop :=
  (exists msg, In msg (msg_forest msgs) /\ me_Name msg = s)
  \/ (exists en, In en enums /\ en_Name en = s)
  \/ (exists msg en, In msg (msg_forest msgs) /\ me_Messages msg <> [] /\ In en (me_Enums msg) /\ en_Name en = s).

(** The fields held by the record of a context. *)
Definition fields_of (ctx : parseCtx) : list FieldElement :=
  match obj ctx with
  | MsgObj me => me_Fields me
  | OneOfObj oe => oo_Fields oe
  | ExtendObj ee => ext_Fields ee
  | _ => []
  end.
Definition is_field_ctx (ctx : parseCtx) : Prop :=
  ctxTypeOf ctx = msgCtx \/ ctxTypeOf ctx = oneOfCtx \/ ctxTypeOf ctx = extendCtx.

(** The number written by a string of decimal digits. *)
Fixpoint decimal_acc (acc : Z) (s : string) : Z :=
  match s with
  | EmptyString => acc
  | String c s' => decimal_acc (acc * 10 + (code c - 48)) s'
  end.
Definition decimal_value (s : string) : Z := decimal_acc 0 s.

(** The rules on map fields: no label, not in a oneof or an extend, and a
    key type other than float, double, bytes and the named types. *)
Definition map_key_ok (k : DataType) : Prop :=
  Name k <> "float" /\ Name k <> "double" /\ Name k <> "bytes" /\ is_named k = false.

Definition map_field_ok (label : string) (ctx : parseCtx) (ty : DataType) : Prop :=
  forall k v, ty = MapDataType k v ->
    is_label label = false /\ ctxTypeOf ctx <> oneOfCtx /\ ctxTypeOf ctx <> extendCtx /\ map_key_ok k.

(** A field of named type whose type name refers to [pkg]. *)
Definition field_refers (pkgs : list string) (pkg : string) (f : FieldElement) : Prop :=
  is_named (fe_Type f) = true /\ refers_to_package pkgs (Name (fe_Type f)) pkg.

(* ------------------------------------------------------------------ *)
(** ** Invariants of the parser state *)

(** A reader leaves the prefix, the package name and the top-level lists
    of the ProtoFile as they were. *)
Definition same_struct (st st' : pstate) : Prop :=
  prefix st' = prefix st /\ pf_Messages (pf st') = pf_Messages (pf st) /\
  pf_Enums (pf st') = pf_Enums (pf st) /\ pf_Services (pf st') = pf_Services (pf st) /\
  PackageName (pf st') = PackageName (pf st).
Definition keeps {A} (m : PM A) : Prop := forall st, same_struct st (snd (m st)).

(** What a leaf reader keeps of the record of its context. *)
Definition msg_kept (me me' : MessageElement) : Prop :=
  me_Name me' = me_Name me /\ me_QualifiedName me' = me_QualifiedName me /\
  me_Messages me' = me_Messages me /\ me_Enums me' = me_Enums me.
Definition obj_kept (o o' : ctxObj) : Prop :=
  match o' with
  | MsgObj me' => exists me, o = MsgObj me /\ msg_kept me me'
  | EnumObj e' => exists e, o = EnumObj e /\ en_Name e' = en_Name e /\ en_QualifiedName e' = en_QualifiedName e
  | ServiceObj s' => exists s, o = ServiceObj s /\ svc_Name s' = svc_Name s /\ svc_QualifiedName s' = svc_QualifiedName s
  | _ => True
  end.
Definition ctx_kept (ctx ctx' : parseCtx) : Prop :=
  ctxTypeOf ctx' = ctxTypeOf ctx /\ obj_kept (obj ctx) (obj ctx').
(** [Q] holds of every value [m] returns. *)
Definition returns {A} (m : PM A) (Q : A -> Prop) : Prop := forall st a st', m st = (Ok a, st') -> Q a.

(** Qualified names of the records held by the ProtoFile, and of the
    message being filled in by the context. *)
Definition top_msg_ok (M : MessageElement) : Prop := exists q, dotted q /\ msg_qn_ok q M.
Definition en_ok (e : EnumElement) : Prop := exists q, dotted q /\ en_QualifiedName e = q +:+ en_Name e.
Definition svc_ok (s : ServiceElement) : Prop := exists q, dotted q /\ svc_QualifiedName s = q +:+ svc_Name s.
Definition pf_inv (p : ProtoFile) : Prop :=
  Forall top_msg_ok (pf_Messages p) /\ Forall en_ok (pf_Enums p) /\ Forall svc_ok (pf_Services p).
Definition st_inv (st : pstate) : Prop := dotted (prefix st) /\ pf_inv (pf st).
Definition body_ok (me : MessageElement) : Prop :=
  Forall (msg_qn_ok (me_QualifiedName me +:+ ".")) (me_Messages me) /\
  Forall (fun e => en_QualifiedName e = me_QualifiedName me +:+ "." +:+ en_Name e) (me_Enums me).
(** Inside a message body the prefix is the message's qualified name and a dot. *)
Definition ctx_inv (ctx : parseCtx) (st : pstate) : Prop :=
  forall me, obj ctx = MsgObj me ->
    ctxTypeOf ctx = msgCtx /\ prefix st = me_QualifiedName me +:+ "." /\ body_ok me.
Definition ids_kept (o o' : ctxObj) : Prop :=
  match o' with
  | MsgObj me' => exists me, o = MsgObj me /\ me_Name me' = me_Name me /\ me_QualifiedName me' = me_QualifiedName me
  | EnumObj e' => exists e, o = EnumObj e /\ en_Name e' = en_Name e /\ en_QualifiedName e' = en_QualifiedName e
  | ServiceObj s' => exists s, o = ServiceObj s /\ svc_Name s' = svc_Name s /\ svc_QualifiedName s' = svc_QualifiedName s
  | _ => True
  end.
Definition nf_same (st st' : pstate) : Prop :=
  prefix st' = prefix st /\ PackageName (pf st') = PackageName (pf st) /\
  pf_Messages (pf st') = pf_Messages (pf st) /\ pf_Enums (pf st') = pf_Enums (pf st).
(** The postcondition of a successful declaration reader. *)
Definition Post (ctx : parseCtx) (st : pstate) (ctx' : parseCtx) (st' : pstate) : Prop :=
  st_inv st' /\ ctx_inv ctx' st' /\ ids_kept (obj ctx) (obj ctx') /\ ctxTypeOf ctx' = ctxTypeOf ctx /\
  (ctxTypeOf ctx <> fileCtx -> nf_same st st').
Definition DeclOK (decl : string -> parseCtx -> PM parseCtx) : Prop :=
  forall doc ctx st ctx' st', st_inv st -> ctx_inv ctx st -> decl doc ctx st = (Ok ctx', st') -> Post ctx st ctx' st'.

(** At file level the prefix is empty or the package name and a dot; a
    file-level declaration appends messages and enums declared under it. *)
Definition file_prefix_ok (st : pstate) : Prop :=
  prefix st = "" \/ prefix st = PackageName (pf st) +:+ ".".
Definition file_step (st st' : pstate) : Prop :=
  (exists newM, pf_Messages (pf st') = (pf_Messages (pf st) ++ newM)%list /\ Forall (msg_qn_ok (prefix st)) newM) /\
  (exists newE, pf_Enums (pf st') = (pf_Enums (pf st) ++ newE)%list /\
     Forall (fun e => en_QualifiedName e = prefix st +:+ en_Name e) newE) /\
  ((prefix st' = prefix st /\ PackageName (pf st') = PackageName (pf st)) \/
   prefix st' = PackageName (pf st') +:+ ".").

(** Services: a service declared under the prefix [p] is named [p] and its
    name; one declared in the body of a message [M] is named by the
    qualified name of [M], a dot and its name. *)
Definition svc_at (p : string) (Ms : list MessageElement) (s : ServiceElement) : Prop :=
  svc_QualifiedName s = p +:+ svc_Name s \/
  exists M, In M (msg_forest Ms) /\ svc_QualifiedName s = me_QualifiedName M +:+ "." +:+ svc_Name s.
Definition svc_step (p : string) (Ms : list MessageElement) (st st' : pstate) : Prop :=
  exists newS, pf_Services (pf st') = (pf_Services (pf st) ++ newS)%list /\ Forall (svc_at p Ms) newS.
(** The messages nested in the record a context fills in. *)
Definition msgs_of (o : ctxObj) : list MessageElement :=
  match o with MsgObj me => me_Messages me | _ => [] end.
Definition msgs_grow (o o' : ctxObj) : Prop := incl (msgs_of o) (msgs_of o').
(** What a declaration reader does to the services: outside the file
    level, the services it appends are declared under the prefix in
    effect or in the body of a message it declares. *)
Definition SPost (ctx : parseCtx) (st : pstate) (ctx' : parseCtx) (st' : pstate) : Prop :=
  msgs_grow (obj ctx) (obj ctx') /\
  (ctxTypeOf ctx <> fileCtx -> svc_step (prefix st) (msgs_of (obj ctx')) st st').
Definition DeclSvc (decl : string -> parseCtx -> PM parseCtx) : Prop :=
  forall doc ctx st ctx' st', st_inv st -> ctx_inv ctx st -> decl doc ctx st = (Ok ctx', st') -> SPost ctx st ctx' st'.
(** A file-level declaration appends services declared under the prefix
    in effect or in the body of one of the messages it appends. *)
Definition file_svc (st st' : pstate) : Prop :=
  exists newM, pf_Messages (pf st') = (pf_Messages (pf st) ++ newM)%list /\
    svc_step (prefix st) newM st st'.
(** Where a service of the parsed file takes its qualified name from: a
    file-level prefix (empty, or a package name and a dot) or a message of
    the file. *)
Definition svc_named (Ms : list MessageElement) (s : ServiceElement) : Prop :=
  (svc_QualifiedName s = svc_Name s \/ exists pk, svc_QualifiedName s = pk +:+ "." +:+ svc_Name s) \/
  exists M, In M (msg_forest Ms) /\ svc_QualifiedName s = me_QualifiedName M +:+ "." +:+ svc_Name s.
Definition file_inv (st : pstate) : Prop :=
  st_inv st /\ file_prefix_ok st /\ Forall (svc_named (pf_Messages (pf st))) (pf_Services (pf st)).

(** The enum and message names declared directly in a message are distinct. *)
Definition level_unique (M : MessageElement) : Prop :=
  NoDup (map en_Name (me_Enums M) ++ map me_Name (me_Messages M)).
(** The names of the constants of some enums, in order. *)
Definition enum_constant_names (enums : list EnumElement) : list string :=
  map ec_Name (concat (map en_EnumConstants enums)).
(** The keys of scalarLookupMap. *)
Definition scalar_names : list string :=
  ["any"; "bool"; "bytes"; "double"; "float"; "fixed32"; "fixed64"; "int32"; "int64";
   "sfixed32"; "sfixed64"; "sint32"; "sint64"; "string"; "uint32"; "uint64"].

(* ------------------------------------------------------------------ *)
(** ** Inputs of the examples *)

Definition c1_content : string :=
  "package a;
message B {
  message C {
    enum F { Y = 0;
    }
  }
  enum E { X = 0;
  }
}
enum G { Z = 0;
}
service S { }
".

(** A field declaration at the start of the input, in a proto3 file. *)
Definition c8_state : pstate :=
  mkPState ("optional int32 x = 1;" +:+ str1 nl) None 2 0 0 false "" (pf_set_Syntax emptyProtoFile proto3).

(** A map field after its label [map], in a message. *)
Definition c9_ctx : parseCtx :=
  mkCtx (MsgObj (mkMessage "M" "M" "" [] [] [] [] [] [] [] [] [])) msgCtx.
Definition c9_state : pstate :=
  mkPState ("<string, int32> m = 1;" +:+ str1 nl) None 1 0 0 false "" emptyProtoFile.

(** An extensions range in a message of a proto2 file. *)
Definition c10_msg : MessageElement := mkMessage "M" "M" "" [] [] [] [] [] [] [] [] [].
Definition c10_state : pstate :=
  mkPState ("extensions 5 to max;" +:+ str1 nl) None 3 0 0 false "" (pf_set_Syntax emptyProtoFile "proto2").

(** A string literal of the proto language. *)
Definition quoted (s : string) : string := str1 dq +:+ s +:+ str1 dq.
(** A proto3 file without a package declaration. *)
Definition c3_content : string :=
  "syntax = " +:+ quoted "proto3" +:+ ";" +:+ str1 nl +:+ "message M {" +:+ str1 nl +:+ "}" +:+ str1 nl.
(** An RPC whose types are qualified with the file's own package, and the
    same reference in a field, and unqualified in an RPC. *)
Definition c6_rpc : string :=
  "syntax = " +:+ quoted "proto3" +:+ ";" +:+ str1 nl +:+ "package pkg;" +:+ str1 nl +:+
  "message Req {" +:+ str1 nl +:+ "}" +:+ str1 nl +:+
  "service S {" +:+ str1 nl +:+ "  rpc Get (pkg.Req) returns (pkg.Req);" +:+ str1 nl +:+ "}" +:+ str1 nl.
Definition c6_field : string :=
  "syntax = " +:+ quoted "proto3" +:+ ";" +:+ str1 nl +:+ "package pkg;" +:+ str1 nl +:+
  "message Req {" +:+ str1 nl +:+ "}" +:+ str1 nl +:+
  "message B {" +:+ str1 nl +:+ "  pkg.Req r = 1;" +:+ str1 nl +:+ "}" +:+ str1 nl.
Definition c6_plain : string :=
  "syntax = " +:+ quoted "proto3" +:+ ";" +:+ str1 nl +:+ "package pkg;" +:+ str1 nl +:+
  "message Req {" +:+ str1 nl +:+ "}" +:+ str1 nl +:+
  "service S {" +:+ str1 nl +:+ "  rpc Get (Req) returns (Req);" +:+ str1 nl +:+ "}" +:+ str1 nl.
(** A line of a proto file. *)
Definition with_nl (s : string) : string := s +:+ str1 nl.

(** An imported package used only by a field of a oneof, and the provider
    of the imported file. *)
Definition c4_main : string :=
  with_nl ("syntax = " +:+ quoted "proto3" +:+ ";") +:+ with_nl "package main;" +:+
  with_nl ("import " +:+ quoted "dep.proto" +:+ ";") +:+
  with_nl "message M {" +:+ with_nl "  oneof o {" +:+ with_nl "    dep.X x = 1;" +:+ with_nl "  }" +:+ with_nl "}".
Definition c4_dep : string :=
  with_nl ("syntax = " +:+ quoted "proto3" +:+ ";") +:+ with_nl "package dep;" +:+ with_nl "message X {" +:+ with_nl "}".
Definition c4_provider : ImportModuleProvider :=
  fun name => if String.eqb name "dep.proto" then Provided c4_dep else ProvideNil.

(** An enum whose two constants share a name and a tag. *)
Definition c5_content : string :=
  with_nl ("syntax = " +:+ quoted "proto3" +:+ ";") +:+ with_nl "package p;" +:+ with_nl "enum E {" +:+
  with_nl "  A = 0;" +:+ with_nl "  A = 0;" +:+ with_nl "}".

(** An enum without allow_alias whose two constants share a tag. *)
Definition c5_enum : EnumElement :=
  mkEnum "E" "E" "" [] [mkEnumConstant "A" "" [] 0; mkEnumConstant "B" "" [] 0].
Definition c5_pf : ProtoFile := mkProtoFile "" "p" "proto3" [] [] [] [c5_enum] [] [] [].

(** A field whose type is the name of a message nested in another message. *)
Definition c7_content : string :=
  with_nl ("syntax = " +:+ quoted "proto3" +:+ ";") +:+ with_nl "package p;" +:+ with_nl "message A {" +:+
  with_nl "  message Inner {" +:+ with_nl "  }" +:+ with_nl "}" +:+
  with_nl "message B {" +:+ with_nl "  Inner x = 1;" +:+ with_nl "}".
Definition c7_Inner : MessageElement := mkMessage "Inner" "p.A.Inner" "" [] [] [] [] [] [] [] [] [].
Definition c7_A : MessageElement := mkMessage "A" "p.A" "" [] [] [] [c7_Inner] [] [] [] [] [].
Definition c7_B : MessageElement :=
  mkMessage "B" "p.B" "" [] [mkField "x" "" [] "" (NamedDT (mkNamed false "Inner")) 1] [] [] [] [] [] [] [].
Definition c7_fd : fd := mkFd "x" "Inner" c7_B.

(* ------------------------------------------------------------------ *)
(** ** Proofs *)

Create HintDb keeps.

Lemma same_struct_refl st : same_struct st st.
Proof. unfold same_struct; auto. Qed.

Lemma same_struct_trans a b c : same_struct a b -> same_struct b c -> same_struct a c.
Proof. intros (?&?&?&?&?) (?&?&?&?&?). repeat split; congruence. Qed.

Lemma keeps_bind {A B} (m : PM A) (k : A -> PM B) :
  keeps m -> (forall a, keeps (k a)) -> keeps (x ← m; k x).
Proof.
  intros Hm Hk st. unfold mbind, PM_bind, pm_bind. specialize (Hm st).
  destruct (m st) as [[a|e|e|] st1] eqn:E; cbn in *; try exact Hm.
  eapply same_struct_trans; [exact Hm | apply Hk].
Qed.

Lemma keeps_ret {A} (a : A) : keeps (mret a).
Proof. intros st. repeat split. Qed.

Lemma keeps_read : keeps read.
Proof. intros [[|c r] ? ? ? ? ? ? ?]; unfold read; cbn; [|destruct (char_eqb c nl)]; repeat split. Qed.

Lemma keeps_unread : keeps unread.
Proof. intros [? [c|] ? ? ? ? ? ?]; repeat split. Qed.

Lemma keeps_fail {A} e : keeps (@fail A e).
Proof. intros st; repeat split. Qed.

Lemma keeps_panic {A} e : keeps (@panic A e).
Proof. intros st; repeat split. Qed.

Lemma keeps_nofuel {A} : keeps (@nofuel A).
Proof. intros st; repeat split. Qed.

Lemma keeps_errline {A} e : keeps (@errline A e).
Proof. intros st; repeat split. Qed.

Lemma keeps_errcol {A} e : keeps (@errcol A e).
Proof. intros st; repeat split. Qed.

Lemma keeps_throw {A} a b : keeps (@throw A a b).
Proof. apply keeps_errcol. Qed.

Lemma keeps_unexpected {A} l c : keeps (@unexpected A l c).
Proof. apply keeps_errline. Qed.

Lemma keeps_gets {A} (f : pstate -> A) : keeps (gets f).
Proof. intros st; repeat split. Qed.

Lemma keeps_isEofReached : keeps isEofReached.
Proof. apply keeps_gets. Qed.

Lemma keeps_setEofReached : keeps setEofReached.
Proof. intros st; repeat split. Qed.

Lemma keeps_catch_err {A} (m : PM A) h : keeps m -> (forall e, keeps (h e)) -> keeps (catch_err m h).
Proof.
  intros Hm Hh st. unfold catch_err. specialize (Hm st).
  destruct (m st) as [[a|e|e|] st1]; cbn in *; try exact Hm.
  eapply same_struct_trans; [exact Hm | apply Hh].
Qed.

Lemma keeps_modify_pf f :
  (forall p, pf_Messages (f p) = pf_Messages p /\ pf_Enums (f p) = pf_Enums p /\ pf_Services (f p) = pf_Services p /\
     PackageName (f p) = PackageName p) ->
  keeps (modify_pf f).
Proof. intros Hf st. destruct (Hf (pf st)) as (?&?&?&?). repeat split; cbn; auto. Qed.

Lemma keeps_readUntil d : keeps (readUntil d).
Proof.
  intros st. unfold readUntil. destruct (read_string_until d (input st)) as [[got rest] ateof].
  destruct ateof; repeat split.
Qed.

Lemma keeps_readUntilNewline : keeps readUntilNewline.
Proof. apply keeps_readUntil. Qed.

#[export] Hint Resolve keeps_ret keeps_read keeps_unread keeps_fail keeps_panic keeps_nofuel keeps_errline
  keeps_errcol keeps_throw keeps_unexpected keeps_gets keeps_isEofReached keeps_setEofReached
  keeps_readUntil keeps_readUntilNewline : keeps.
#[export] Hint Extern 2 (keeps (modify_pf _)) => apply keeps_modify_pf; intros; repeat split : keeps.

Ltac keeps_tac :=
  repeat first
    [ progress cbv zeta
    | apply keeps_bind; intros
    | apply keeps_catch_err; intros
    | solve [eauto with keeps]
    | match goal with
      | |- keeps (if ?b then _ else _) => destruct b
      | |- keeps (match ?x with _ => _ end) => destruct x
      end ].

Lemma keeps_skipWhitespace n : keeps (skipWhitespace n).
Proof. induction n; cbn; keeps_tac. Qed.
#[export] Hint Resolve keeps_skipWhitespace : keeps.

Lemma keeps_readWordAdvanced_loop n f buf : keeps (readWordAdvanced_loop n f buf).
Proof. revert buf; induction n; intros; cbn; keeps_tac. Qed.
#[export] Hint Resolve keeps_readWordAdvanced_loop : keeps.

Lemma keeps_readWord n : keeps (readWord n).
Proof. unfold readWord, readWordAdvanced; keeps_tac. Qed.
#[export] Hint Resolve keeps_readWord : keeps.

Lemma keeps_readInt_loop n buf : keeps (readInt_loop n buf).
Proof. revert buf; induction n; intros; cbn; keeps_tac. Qed.
#[export] Hint Resolve keeps_readInt_loop : keeps.

Lemma keeps_readInt n : keeps (readInt n).
Proof. unfold readInt; keeps_tac. Qed.
#[export] Hint Resolve keeps_readInt : keeps.

Lemma keeps_skipUntilNewline n : keeps (skipUntilNewline n).
Proof. induction n; cbn; keeps_tac. Qed.
#[export] Hint Resolve keeps_skipUntilNewline : keeps.

Lemma keeps_readMultiLineComment_loop n buf : keeps (readMultiLineComment_loop n buf).
Proof. revert buf; induction n; intros; cbn; keeps_tac. Qed.
#[export] Hint Resolve keeps_readMultiLineComment_loop : keeps.

Lemma keeps_readMultiLineComment n : keeps (readMultiLineComment n).
Proof. unfold readMultiLineComment; keeps_tac. Qed.
#[export] Hint Resolve keeps_readMultiLineComment : keeps.

Lemma keeps_readSingleLineComment_loop n buf : keeps (readSingleLineComment_loop n buf).
Proof. revert buf; induction n; intros; cbn; keeps_tac. Qed.
#[export] Hint Resolve keeps_readSingleLineComment_loop : keeps.

Lemma keeps_readSingleLineComment n : keeps (readSingleLineComment n).
Proof. unfold readSingleLineComment; keeps_tac. Qed.
#[export] Hint Resolve keeps_readSingleLineComment : keeps.

Lemma keeps_readDocumentation n : keeps (readDocumentation n).
Proof. unfold readDocumentation; keeps_tac. Qed.
#[export] Hint Resolve keeps_readDocumentation : keeps.

Lemma keeps_readDocumentationIfFound n : keeps (readDocumentationIfFound n).
Proof. induction n; cbn; keeps_tac. Qed.
#[export] Hint Resolve keeps_readDocumentationIfFound : keeps.

Lemma keeps_readName n : keeps (readName n).
Proof. unfold readName; keeps_tac. Qed.
#[export] Hint Resolve keeps_readName : keeps.

Lemma keeps_readQuotedString n f : keeps (readQuotedString n f).
Proof. unfold readQuotedString, readWordAdvanced; keeps_tac. Qed.
#[export] Hint Resolve keeps_readQuotedString : keeps.

Lemma keeps_readDataType n : keeps (readDataType n) /\ forall name, keeps (readDataTypeInternal n name).
Proof.
  induction n as [|n [IH1 IH2]]; split; intros; cbn; keeps_tac.
  all: destruct (String.eqb name "map"); keeps_tac.
Qed.

Lemma keeps_readDataTypeInternal n name : keeps (readDataTypeInternal n name).
Proof. apply keeps_readDataType. Qed.
#[export] Hint Resolve keeps_readDataTypeInternal : keeps.

Lemma keeps_readRequestResponseType n : keeps (readRequestResponseType n).
Proof. unfold readRequestResponseType; keeps_tac. Qed.
#[export] Hint Resolve keeps_readRequestResponseType : keeps.

Lemma keeps_stripParenthesis s : keeps (stripParenthesis s).
Proof. unfold stripParenthesis; keeps_tac. Qed.

Lemma keeps_stripQuotes s : keeps (stripQuotes s).
Proof. unfold stripQuotes; keeps_tac. Qed.
#[export] Hint Resolve keeps_stripParenthesis keeps_stripQuotes : keeps.

Lemma keeps_readListOptions_pairs l acc : keeps (readListOptions_pairs l acc).
Proof. revert acc; induction l; intros; cbn; keeps_tac. Qed.
#[export] Hint Resolve keeps_readListOptions_pairs : keeps.

Lemma keeps_readListOptions : keeps readListOptions.
Proof. unfold readListOptions; keeps_tac. Qed.
#[export] Hint Resolve keeps_readListOptions : keeps.

Lemma keeps_readListOptionsOnALine n : keeps (readListOptionsOnALine n).
Proof. unfold readListOptionsOnALine; keeps_tac. Qed.
#[export] Hint Resolve keeps_readListOptionsOnALine : keeps.

Lemma keeps_readReservedRanges n d me : keeps (readReservedRanges n d me).
Proof. revert me; induction n; intros; cbn; keeps_tac. Qed.

Lemma keeps_readReservedNames n d me : keeps (readReservedNames n d me).
Proof. revert me; induction n; intros; cbn; keeps_tac. Qed.
#[export] Hint Resolve keeps_readReservedRanges keeps_readReservedNames : keeps.

Lemma keeps_readReserved n d ctx : keeps (readReserved n d ctx).
Proof. unfold readReserved; keeps_tac. Qed.
#[export] Hint Resolve keeps_readReserved : keeps.

Lemma keeps_readField n l d ctx : keeps (readField n l d ctx).
Proof. unfold readField, checkMapField, addField; keeps_tac. Qed.

Lemma keeps_readOption n d ctx : keeps (readOption n d ctx).
Proof. unfold readOption, addOption; keeps_tac. Qed.

Lemma keeps_readExtensions n d ctx : keeps (readExtensions n d ctx).
Proof. unfold readExtensions; keeps_tac. Qed.

Lemma keeps_readEnumConstant n l d ctx : keeps (readEnumConstant n l d ctx).
Proof. unfold readEnumConstant; keeps_tac. Qed.

Lemma keeps_readImport n : keeps (readImport n).
Proof. unfold readImport; keeps_tac. Qed.

Lemma keeps_readSyntax n : keeps (readSyntax n).
Proof. unfold readSyntax; keeps_tac. Qed.
#[export] Hint Resolve keeps_readField keeps_readOption keeps_readExtensions keeps_readEnumConstant
  keeps_readImport keeps_readSyntax : keeps.

Create HintDb returns.

Lemma returns_bind {A B} (m : PM A) (k : A -> PM B) Q :
  (forall a, returns (k a) Q) -> returns (x ← m; k x) Q.
Proof.
  intros Hk st b st'. unfold mbind, PM_bind, pm_bind.
  destruct (m st) as [[a|e|e|] st1]; try discriminate. apply Hk.
Qed.

Lemma returns_weaken {A} (m : PM A) (Q R : A -> Prop) :
  returns m Q -> (forall a, Q a -> R a) -> returns m R.
Proof. intros HQ HR st a st' H. apply HR, (HQ _ _ _ H). Qed.

Lemma msg_kept_trans a b c : msg_kept a b -> msg_kept b c -> msg_kept a c.
Proof. intros (?&?&?&?) (?&?&?&?). repeat split; congruence. Qed.

Lemma returns_bind_with {A B} (m : PM A) (k : A -> PM B) P Q :
  returns m P -> (forall a, P a -> returns (k a) Q) -> returns (x ← m; k x) Q.
Proof.
  intros Hm Hk st b st'. unfold mbind, PM_bind, pm_bind.
  destruct (m st) as [[a|e|e|] st1] eqn:E; try discriminate.
  apply (Hk a (Hm _ _ _ E)).
Qed.

Lemma returns_nofuel {A} Q : returns (@nofuel A) Q.
Proof. intros st a st' H; discriminate. Qed.

Lemma returns_ret {A} (a : A) (Q : A -> Prop) : Q a -> returns (mret a) Q.
Proof. intros HQ st b st' H. injection H; intros; subst; auto. Qed.

Lemma returns_fail {A} e Q : returns (@fail A e) Q.
Proof. intros st b st' H; discriminate. Qed.

Lemma returns_panic {A} e Q : returns (@panic A e) Q.
Proof. intros st b st' H; discriminate. Qed.

Lemma returns_errline {A} e Q : returns (@errline A e) Q.
Proof. intros st b st' H; discriminate. Qed.

Lemma returns_errcol {A} e Q : returns (@errcol A e) Q.
Proof. intros st b st' H; discriminate. Qed.

Lemma returns_throw {A} a b Q : returns (@throw A a b) Q.
Proof. apply returns_errcol. Qed.

Lemma returns_unexpected {A} l c Q : returns (@unexpected A l c) Q.
Proof. apply returns_errline. Qed.
#[export] Hint Resolve returns_fail returns_panic returns_errline returns_errcol returns_throw returns_unexpected returns_nofuel : returns.

Ltac returns_tac :=
  repeat first
    [ progress cbv zeta
    | apply returns_bind; intros
    | solve [eauto with returns]
    | match goal with
      | |- returns (if ?b then _ else _) _ => destruct b eqn:?
      | |- returns (match ?x with _ => _ end) _ => destruct x eqn:?
      | |- returns (mret _) _ => apply returns_ret
      end ].

Ltac kept_close :=
  match goal with
  | |- ctx_kept ?ctx _ =>
      destruct ctx as [o t]; cbn in *; subst;
      split; [reflexivity|];
      first [ exact I
            | eexists; split; [reflexivity|]; unfold msg_kept; cbn; repeat split
            | destruct o; cbn; first [ exact I | eexists; split; [reflexivity|]; unfold msg_kept; repeat split ] ]
  end.

Lemma returns_readField n l d ctx : returns (readField n l d ctx) (ctx_kept ctx).
Proof. unfold readField, addField; returns_tac; kept_close. Qed.

Lemma returns_readOption n d ctx : returns (readOption n d ctx) (ctx_kept ctx).
Proof. unfold readOption, addOption; returns_tac; kept_close. Qed.

Lemma returns_readExtensions n d ctx : returns (readExtensions n d ctx) (ctx_kept ctx).
Proof. unfold readExtensions; returns_tac; kept_close. Qed.

Lemma returns_readEnumConstant n l d ctx : returns (readEnumConstant n l d ctx) (ctx_kept ctx).
Proof. unfold readEnumConstant; returns_tac; kept_close. Qed.

Lemma returns_readReservedRanges n d me : returns (readReservedRanges n d me) (msg_kept me).
Proof.
  revert me; induction n as [|n IH]; intros me; cbn; returns_tac.
  all: try (destruct me; repeat split; fail).
  all: eapply returns_weaken; [apply IH|]; intros x Hx; eapply msg_kept_trans; [|exact Hx]; destruct me; repeat split.
Qed.

Lemma returns_readReservedNames n d me : returns (readReservedNames n d me) (msg_kept me).
Proof.
  revert me; induction n as [|n IH]; intros me; cbn; returns_tac.
  all: try (destruct me; repeat split; fail).
  all: eapply returns_weaken; [apply IH|]; intros x Hx; eapply msg_kept_trans; [|exact Hx]; destruct me; repeat split.
Qed.

Lemma returns_readReserved n d ctx : returns (readReserved n d ctx) (ctx_kept ctx).
Proof.
  unfold readReserved. destruct ctx as [o t]; cbn.
  destruct o; try solve [returns_tac].
  do 3 (apply returns_bind; intros).
  eapply returns_bind_with with (P := msg_kept me).
  - destruct (isDigit _); [apply returns_readReservedRanges|apply returns_readReservedNames].
  - intros me' Hk. apply returns_ret. split; [reflexivity|]. cbn. eexists; split; [reflexivity|exact Hk].
Qed.

Lemma sapp_assoc (a b c : string) : a +:+ b +:+ c = (a +:+ b) +:+ c.
Proof.
  induction a as [|x a IH]; [reflexivity|].
  change (String x (a +:+ b +:+ c) = String x ((a +:+ b) +:+ c)). rewrite IH. reflexivity.
Qed.

Lemma keeps_ok {A} (m : PM A) st r st' : keeps m -> m st = (r, st') -> same_struct st st'.
Proof. intros Hk H. specialize (Hk st). rewrite H in Hk. exact Hk. Qed.

Lemma st_inv_ss st st' : same_struct st st' -> st_inv st -> st_inv st'.
Proof.
  intros (Hp & Hm & He & Hs & _) (Hd & Hm' & He' & Hs'). unfold st_inv, pf_inv.
  rewrite Hp, Hm, He, Hs. auto.
Qed.

Lemma ctx_inv_ss ctx st st' : same_struct st st' -> ctx_inv ctx st -> ctx_inv ctx st'.
Proof. intros (Hp & _) Hc me Hme. rewrite Hp. apply Hc, Hme. Qed.

Lemma ids_kept_trans a b c : ids_kept a b -> ids_kept b c -> ids_kept a c.
Proof.
  destruct c; cbn; auto.
  - intros Hab (me0 & -> & H1 & H2). cbn in Hab. destruct Hab as (me1 & -> & H3 & H4).
    eexists; split; [reflexivity|]; split; congruence.
  - intros Hab (e0 & -> & H1 & H2). cbn in Hab. destruct Hab as (e1 & -> & H3 & H4).
    eexists; split; [reflexivity|]; split; congruence.
  - intros Hab (s0 & -> & H1 & H2). cbn in Hab. destruct Hab as (s1 & -> & H3 & H4).
    eexists; split; [reflexivity|]; split; congruence.
Qed.

Lemma ids_kept_refl o : ids_kept o o.
Proof. destruct o; cbn; auto; eexists; split; eauto. Qed.

Lemma nf_same_trans a b c : nf_same a b -> nf_same b c -> nf_same a c.
Proof. intros (?&?&?&?) (?&?&?&?). repeat split; congruence. Qed.

Lemma nf_same_of_ss a b : same_struct a b -> nf_same a b.
Proof. intros (?&?&?&?&?). repeat split; congruence. Qed.

Lemma nf_same_refl a : nf_same a a.
Proof. repeat split. Qed.

Lemma Post_trans c0 s0 c1 s1 c2 s2 : Post c0 s0 c1 s1 -> Post c1 s1 c2 s2 -> Post c0 s0 c2 s2.
Proof.
  intros (_ & _ & Hi1 & Ht1 & Hp1) (Hs2 & Hc2 & Hi2 & Ht2 & Hp2).
  split; [exact Hs2|]. split; [exact Hc2|]. split; [eapply ids_kept_trans; eauto|].
  split; [congruence|]. intros Hne. eapply nf_same_trans; [apply Hp1, Hne|apply Hp2; congruence].
Qed.

Lemma Post_ss_l c0 s0 s0' c1 s1 : same_struct s0 s0' -> Post c0 s0' c1 s1 -> Post c0 s0 c1 s1.
Proof.
  intros Hss (H1 & H2 & H3 & H4 & Hp1).
  split; [exact H1|]. split; [exact H2|]. split; [exact H3|]. split; [exact H4|].
  intros Hne. eapply nf_same_trans; [apply nf_same_of_ss, Hss|apply Hp1, Hne].
Qed.

Lemma Post_ss_r c0 s0 c1 s1 s1' : same_struct s1 s1' -> Post c0 s0 c1 s1 -> Post c0 s0 c1 s1'.
Proof.
  intros Hss (Hs & Hc & H3 & H4 & Hp1).
  split; [eapply st_inv_ss; eauto|]. split; [eapply ctx_inv_ss; eauto|].
  split; [exact H3|]. split; [exact H4|].
  intros Hne. eapply nf_same_trans; [apply Hp1, Hne|apply nf_same_of_ss, Hss].
Qed.

Lemma Post_refl ctx st : st_inv st -> ctx_inv ctx st -> Post ctx st ctx st.
Proof.
  intros Hs Hc. split; [exact Hs|]. split; [exact Hc|]. split; [apply ids_kept_refl|].
  split; [reflexivity|]. intros _; apply nf_same_refl.
Qed.

Lemma leaf_post {m : PM parseCtx} ctx st ctx' st' :
  keeps m -> returns m (ctx_kept ctx) -> m st = (Ok ctx', st') ->
  st_inv st -> ctx_inv ctx st -> Post ctx st ctx' st'.
Proof.
  intros Hk Hr H Hs Hc.
  pose proof (keeps_ok m st _ st' Hk H) as Hss.
  destruct (Hr _ _ _ H) as [Ht Ho].
  split; [eapply st_inv_ss; eauto|].
  split.
  - intros me' Hme'. rewrite Hme' in Ho. cbn in Ho. destruct Ho as (me0 & Hme & Hn & Hq & Hms & Hen).
    destruct (Hc me0 Hme) as (Hct & Hp & Hb1 & Hb2). destruct Hss as (Hp' & _).
    split; [congruence|]. split; [rewrite Hp', Hp, Hq; reflexivity|].
    unfold body_ok. rewrite Hms, Hen, Hq. split; auto.
  - split; [|split; [exact Ht|intros _; apply nf_same_of_ss, Hss]].
    destruct (obj ctx'); cbn in *; auto.
    destruct Ho as (me0 & -> & Hn & Hq & _). eauto.
Qed.

Lemma bind_ok {A B} (m : PM A) (k : A -> PM B) st b st' :
  (x ← m; k x) st = (Ok b, st') -> exists a st1, m st = (Ok a, st1) /\ k a st1 = (Ok b, st').
Proof.
  unfold mbind, PM_bind, pm_bind. destruct (m st) as [[a|e|e|] st1]; intros H; try discriminate.
  eauto.
Qed.

Lemma wpr_ok {A} p (m : PM A) st a st' :
  with_prefix_restored p m st = (Ok a, st') -> exists s0, m st = (Ok a, s0) /\ st' = set_prefix s0 p.
Proof.
  unfold with_prefix_restored. destruct (m st) as [r s0]. intros H. injection H; intros; subst. eauto.
Qed.

Ltac inv_ok :=
  repeat match goal with
  | H : _ = (Ok _, _) |- _ => progress cbv beta zeta in H
  | H : mbind _ _ _ = (Ok _, _) |- _ =>
      let a := fresh "a" in let s := fresh "s" in let H1 := fresh "Hm" in
      apply bind_ok in H; destruct H as (a & s & H1 & H); cbv beta in H
  | H : with_prefix_restored _ _ _ = (Ok _, _) |- _ =>
      let s := fresh "s" in let Heq := fresh "Heq" in
      apply wpr_ok in H; destruct H as (s & H & Heq)
  | H : (match ?p with pair _ _ => _ end) _ = (Ok _, _) |- _ => destruct p
  | H : (if ?b then _ else _) _ = (Ok _, _) |- _ => destruct b eqn:?
  | H : mret _ _ = (Ok _, _) |- _ => cbv [mret PM_ret pm_ret] in H; injection H; clear H; intros; subst
  | H : gets _ _ = (Ok _, _) |- _ => cbv [gets] in H; injection H; clear H; intros; subst
  | H : isEofReached _ = (Ok _, _) |- _ => cbv [isEofReached gets] in H; injection H; clear H; intros; subst
  | H : modify _ _ = (Ok _, _) |- _ => cbv [modify] in H; injection H; clear H; intros; subst
  | H : modify_pf _ _ = (Ok _, _) |- _ => cbv [modify_pf modify] in H; injection H; clear H; intros; subst
  | H : fail _ _ = (Ok _, _) |- _ => discriminate H
  | H : panic _ _ = (Ok _, _) |- _ => discriminate H
  | H : nofuel _ = (Ok _, _) |- _ => discriminate H
  | H : ctxMsgPanic _ = (Ok _, _) |- _ => discriminate H
  | H : errline _ _ = (Ok _, _) |- _ => discriminate H
  | H : errcol _ _ = (Ok _, _) |- _ => discriminate H
  | H : throw _ _ _ = (Ok _, _) |- _ => discriminate H
  | H : unexpected _ _ _ = (Ok _, _) |- _ => discriminate H
  | H : (match ?x with _ => _ end) _ = (Ok _, _) |- _ => destruct x eqn:?
  end.

Ltac ss_all :=
  repeat match goal with
  | H : ?m ?s = (Ok _, ?s') |- _ =>
      let T := fresh "Hss" in
      assert (T : same_struct s s') by (eapply (keeps_ok m s _ s'); [solve [eauto with keeps] | exact H]);
      clear H
  end.

Ltac ss_chain :=
  repeat match goal with
  | H1 : same_struct ?a ?b, H2 : same_struct ?b ?c |- _ =>
      pose proof (same_struct_trans _ _ _ H1 H2); clear H1 H2
  end.

Lemma Post_of_ss ctx st st' : same_struct st st' -> st_inv st -> ctx_inv ctx st -> Post ctx st ctx st'.
Proof. intros Hss Hs Hc. eapply Post_ss_r; [exact Hss|]. apply Post_refl; auto. Qed.

Lemma ctxType_eqb_true a b : ctxType_eqb a b = true -> a = b.
Proof. destruct a, b; cbn; congruence. Qed.

Lemma ctx_inv_prefix ctx st st' : prefix st' = prefix st -> ctx_inv ctx st -> ctx_inv ctx st'.
Proof. intros Hp Hc me Hme. rewrite Hp. apply Hc, Hme. Qed.

Lemma Post_prefix ctx st st' : st_inv st' -> ctx_inv ctx st -> prefix st' = prefix st ->
  (ctxTypeOf ctx <> fileCtx -> nf_same st st') -> Post ctx st ctx st'.
Proof.
  intros Hs Hc Hp Hn. split; [exact Hs|]. split; [eapply ctx_inv_prefix; eauto|].
  split; [apply ids_kept_refl|]. split; [reflexivity|]. exact Hn.
Qed.

Lemma pf_inv_add_Enum p e : pf_inv p -> en_ok e -> pf_inv (pf_add_Enum p e).
Proof. intros (H1 & H2 & H3) He. split; [exact H1|]. split; [apply Forall_app; auto|exact H3]. Qed.

Lemma pf_inv_add_Message p m : pf_inv p -> top_msg_ok m -> pf_inv (pf_add_Message p m).
Proof. intros (H1 & H2 & H3) Hm. split; [apply Forall_app; auto|]. split; [exact H2|exact H3]. Qed.

Lemma pf_inv_add_Service p sv : pf_inv p -> svc_ok sv -> pf_inv (pf_add_Service p sv).
Proof. intros (H1 & H2 & H3) Hm. split; [exact H1|]. split; [exact H2|apply Forall_app; auto]. Qed.

Lemma pf_inv_add_Extend p x : pf_inv p -> pf_inv (pf_add_Extend p x).
Proof. intros H. exact H. Qed.

Lemma enum_final e0 o : ids_kept (EnumObj e0) o ->
  en_Name (match o with EnumObj x => x | _ => e0 end) = en_Name e0 /\
  en_QualifiedName (match o with EnumObj x => x | _ => e0 end) = en_QualifiedName e0.
Proof. destruct o; cbn; auto. intros (e & He & H1 & H2). injection He; intros; subst; auto. Qed.

Lemma svc_final s0 o : ids_kept (ServiceObj s0) o ->
  svc_Name (match o with ServiceObj x => x | _ => s0 end) = svc_Name s0 /\
  svc_QualifiedName (match o with ServiceObj x => x | _ => s0 end) = svc_QualifiedName s0.
Proof. destruct o; cbn; auto. intros (e & He & H1 & H2). injection He; intros; subst; auto. Qed.

Lemma msg_final m0 o : ids_kept (MsgObj m0) o ->
  me_Name (match o with MsgObj x => x | _ => m0 end) = me_Name m0 /\
  me_QualifiedName (match o with MsgObj x => x | _ => m0 end) = me_QualifiedName m0.
Proof. destruct o; cbn; auto. intros (e & He & H1 & H2). injection He; intros; subst; auto. Qed.

Lemma st_inv_nonfile_empty o t st : t <> fileCtx -> st_inv st -> (forall me, o = MsgObj me -> False) -> ctx_inv (mkCtx o t) st.
Proof. intros _ _ Ho me Hme. exfalso. eapply Ho. exact Hme. Qed.

Lemma Post_msg ctx st st' me me' :
  obj ctx = MsgObj me -> ctx_inv ctx st -> st_inv st' -> nf_same st st' ->
  me_Name me' = me_Name me -> me_QualifiedName me' = me_QualifiedName me -> body_ok me' ->
  Post ctx st (mkCtx (MsgObj me') msgCtx) st'.
Proof.
  intros Hme Hc Hs Hp Hn Hq Hb. destruct (Hc me Hme) as (Ht & Hpm & _).
  split; [exact Hs|]. split.
  - intros m0 Hm0. cbn in Hm0. injection Hm0; intros <-. split; [reflexivity|].
    split; [destruct Hp as [Hp _]; congruence|exact Hb].
  - split; [cbn; rewrite Hme; eauto|]. split; [cbn; congruence|]. intros _; exact Hp.
Qed.

Lemma permitsMsg_ctx ctx : negb (permitsMsg ctx) = false -> ctxTypeOf ctx = fileCtx \/ ctxTypeOf ctx = msgCtx.
Proof. unfold permitsMsg. destruct (ctxTypeOf ctx); cbn; auto; discriminate. Qed.

Lemma permitsEnum_ctx ctx : negb (permitsEnum ctx) = false -> ctxTypeOf ctx = fileCtx \/ ctxTypeOf ctx = msgCtx.
Proof. unfold permitsEnum. destruct (ctxTypeOf ctx); cbn; auto; discriminate. Qed.

Lemma msg_qn_ok_of_body p M : me_QualifiedName M = p +:+ me_Name M -> body_ok M -> msg_qn_ok p M.
Proof.
  intros Hq [Hb1 Hb2]. constructor; [exact Hq| |].
  - rewrite sapp_assoc, <- Hq. exact Hb1.
  - eapply Forall_impl; [exact Hb2|]. intros e He. cbv beta. rewrite He, Hq. rewrite !sapp_assoc. reflexivity.
Qed.

Lemma msg_final_body c m0 st : ctx_inv c st -> body_ok m0 ->
  body_ok (match obj c with MsgObj m => m | _ => m0 end).
Proof. intros Hc Hb. destruct (obj c) eqn:E; auto. apply (Hc _ E). Qed.

Lemma dotted_ext p s : dotted p -> dotted (p +:+ s +:+ ".").
Proof. intros _. right. exists (p +:+ s). apply sapp_assoc. Qed.

Lemma st_inv_push st nm s6 : st_inv st -> same_struct (set_prefix st (prefix st +:+ nm +:+ ".")) s6 -> st_inv s6.
Proof.
  intros Hs Hss. eapply st_inv_ss; [exact Hss|]. destruct Hs as [Hd Hp].
  split; [apply dotted_ext; exact Hd|exact Hp].
Qed.

#[export] Hint Resolve returns_readField returns_readOption returns_readExtensions
  returns_readEnumConstant returns_readReserved : returns.

Ltac ss_all_but_ctx :=
  repeat match goal with
  | H : ?m ?s = (@Ok ?T _, ?s') |- _ =>
      lazymatch T with parseCtx => fail | _ => idtac end;
      let T := fresh "Hss" in
      assert (T : same_struct s s') by (eapply (keeps_ok m s _ s'); [solve [eauto with keeps] | exact H]);
      clear H
  end.

Section BlockProofs.

Variable decl : string -> parseCtx -> PM parseCtx.

Hypothesis Hd : DeclOK decl.

Lemma loop_post n ctx st ctx' st' :
  st_inv st -> ctx_inv ctx st -> readDeclarationsInLoop decl n ctx st = (Ok ctx', st') -> Post ctx st ctx' st'.
Proof.
  revert ctx st; induction n as [|n IH]; intros ctx st Hs Hc H; cbn [readDeclarationsInLoop] in H; [discriminate|].
  inv_ok; ss_all; ss_chain.
  - apply Post_of_ss; auto.
  - match goal with
    | H : decl _ _ ?s = (Ok ?c1, ?s1) |- _ =>
        assert (P1 : Post ctx s c1 s1) by (eapply Hd; [eapply st_inv_ss|eapply ctx_inv_ss|exact H]; eauto)
    end.
    eapply Post_ss_l; [eassumption|]. eapply Post_trans; [exact P1|].
    apply IH; [apply P1|apply P1|assumption].
Qed.

Ltac loop_fact :=
  match goal with
  | H : readDeclarationsInLoop _ _ ?c0 ?s0 = (Ok ?c1, ?s1) |- _ =>
      let PL := fresh "PL" in
      assert (PL : Post c0 s0 c1 s1) by
        (eapply loop_post; [eapply st_inv_ss; eauto | intros ? Hx; discriminate Hx | exact H]);
      clear H
  end.

Lemma readEnum_post n doc ctx st ctx' st' :
  ctxTypeOf ctx = fileCtx \/ ctxTypeOf ctx = msgCtx ->
  st_inv st -> ctx_inv ctx st -> readEnum decl n doc ctx st = (Ok ctx', st') -> Post ctx st ctx' st'.
Proof.
  intros Hperm Hs Hc H. unfold readEnum in H. inv_ok; ss_all; ss_chain. all: loop_fact.
  all: destruct PL as (Hs1 & _ & Hi1 & _ & Hn1); cbn in Hn1; specialize (Hn1 ltac:(discriminate)).
  all: destruct (enum_final _ _ Hi1) as [En Eq]; cbn in En, Eq.
  all: pose proof (nf_same_trans _ _ _ (nf_same_of_ss _ _ H) Hn1) as Hn.
  - apply ctxType_eqb_true in Heqb0. destruct (Hc me Heqc) as (_ & Hpm & Hb1 & Hb2).
    destruct H as [Hp4 _].
    eapply Post_msg; [exact Heqc|exact Hc|exact Hs1|exact Hn|reflexivity|reflexivity|].
    split; [exact Hb1|]. cbn. apply Forall_app; split; [exact Hb2|].
    constructor; [|constructor]. rewrite Eq, En, Hp4, Hpm. symmetry; apply sapp_assoc.
  - destruct H as [Hp4 _]. apply Post_prefix; [| exact Hc | cbn; destruct Hn as [Hp _]; exact Hp | ].
    + destruct Hs1 as [Hd1 Hpf1]. split; [exact Hd1|]. apply pf_inv_add_Enum; [exact Hpf1|].
      exists (prefix s4). split; [rewrite Hp4; apply Hs|]. congruence.
    + intros Hne. exfalso. destruct Hperm as [Hf|Hm]; [congruence|]. rewrite Hm in Heqb0. discriminate.
Qed.

Lemma readRPC_body_post n ctx st ctx' st' :
  st_inv st -> ctx_inv ctx st -> readRPC_body decl n ctx st = (Ok ctx', st') -> Post ctx st ctx' st'.
Proof.
  revert ctx st; induction n as [|n IH]; intros ctx st Hs Hc H; cbn [readRPC_body] in H; [discriminate|].
  inv_ok; ss_all; ss_chain.
  - apply Post_of_ss; auto.
  - apply Post_of_ss; auto.
  - match goal with
    | H : decl _ _ ?s = (Ok ?c1, ?s1) |- _ =>
        assert (P1 : Post ctx s c1 s1) by (eapply Hd; [eapply st_inv_ss|eapply ctx_inv_ss|exact H]; eauto)
    end.
    eapply Post_ss_l; [eassumption|]. eapply Post_trans; [exact P1|].
    apply IH; [apply P1|apply P1|assumption].
Qed.

Lemma readService_post n doc st u st' :
  st_inv st -> readService decl n doc st = (Ok u, st') -> st_inv st' /\ nf_same st st'.
Proof.
  intros Hs H. unfold readService in H. inv_ok; ss_all; ss_chain. loop_fact.
  destruct PL as (Hs1 & _ & Hi1 & _ & Hn1); cbn in Hn1; specialize (Hn1 ltac:(discriminate)).
  pose proof (nf_same_trans _ _ _ (nf_same_of_ss _ _ H) Hn1) as Hn.
  destruct (svc_final _ _ Hi1) as [Sn Sq]; cbn in Sn, Sq. destruct H as [Hp4 _]. split.
  - destruct Hs1 as [Hd1 Hpf1]. split; [exact Hd1|]. apply pf_inv_add_Service; [exact Hpf1|].
    exists (prefix s4). split; [rewrite Hp4; apply Hs|]. congruence.
  - exact Hn.
Qed.

Lemma readExtend_post n doc ctx st ctx' st' :
  st_inv st -> ctx_inv ctx st -> readExtend decl n doc ctx st = (Ok ctx', st') -> Post ctx st ctx' st'.
Proof.
  intros Hs Hc H. unfold readExtend in H. inv_ok; ss_all; ss_chain. all: loop_fact.
  all: destruct PL as (Hs1 & _ & Hi1 & _ & Hn1); cbn in Hn1; specialize (Hn1 ltac:(discriminate)).
  all: pose proof (nf_same_trans _ _ _ (nf_same_of_ss _ _ H) Hn1) as Hn.
  - apply ctxType_eqb_true in Heqb0. destruct (Hc me Heqc) as (_ & Hpm & Hb1 & Hb2).
    eapply Post_msg; [exact Heqc|exact Hc|exact Hs1|exact Hn|reflexivity|reflexivity|exact (conj Hb1 Hb2)].
  - apply Post_prefix; [|exact Hc|cbn; apply Hn|intros _; exact Hn].
    destruct Hs1 as [Hd1 Hpf1]. split; [exact Hd1|]. apply pf_inv_add_Extend; exact Hpf1.
Qed.

Lemma readOneOf_post n doc ctx st ctx' st' :
  st_inv st -> ctx_inv ctx st -> readOneOf decl n doc ctx st = (Ok ctx', st') -> Post ctx st ctx' st'.
Proof.
  intros Hs Hc H. unfold readOneOf in H. inv_ok; ss_all; ss_chain. all: loop_fact.
  all: destruct PL as (Hs1 & _ & Hi1 & _ & Hn1); cbn in Hn1; specialize (Hn1 ltac:(discriminate)).
  all: pose proof (nf_same_trans _ _ _ (nf_same_of_ss _ _ H) Hn1) as Hn.
  destruct (Hc me Heqc) as (Ht & Hpm & Hb1 & Hb2).
  destruct ctx as [o t]; cbn in *; subst t.
  eapply Post_msg; [exact Heqc|exact Hc|exact Hs1|exact Hn|reflexivity|reflexivity|exact (conj Hb1 Hb2)].
Qed.

Lemma readMessage_post n doc ctx st ctx' st' :
  ctxTypeOf ctx = fileCtx \/ ctxTypeOf ctx = msgCtx ->
  st_inv st -> ctx_inv ctx st -> readMessage decl n doc ctx st = (Ok ctx', st') -> Post ctx st ctx' st'.
Proof.
  intros Hperm Hs Hc H. unfold readMessage in H. inv_ok; ss_all; ss_chain.
  all: match goal with
       | H : readDeclarationsInLoop _ _ ?c0 ?s0 = (Ok ?c1, ?s1) |- _ =>
           assert (PL : Post c0 s0 c1 s1); [eapply loop_post; [ | | exact H] | clear H]
       end.
  all: try (eapply st_inv_push; [eapply st_inv_ss; [exact H|exact Hs]|exact H0]).
  all: try (intros m0 Hm0; cbn in Hm0; injection Hm0; intros <-; split; [reflexivity|];
            destruct H0 as [Hp6 _]; cbn in Hp6; split; [rewrite Hp6; cbn; apply sapp_assoc|];
            split; constructor).
  all: destruct PL as (Hs3 & Hc3 & Hi3 & _ & Hn3); cbn in Hn3; specialize (Hn3 ltac:(discriminate)).
  all: destruct (msg_final _ _ Hi3) as [Fn Fq]; cbn in Fn, Fq.
  all: match type of Fn with me_Name ?X = _ => set (Mf := X) in * end.
  all: assert (HM : msg_qn_ok (prefix s2) Mf) by
         (apply msg_qn_ok_of_body; [rewrite Fq, Fn; reflexivity
                                    | apply (msg_final_body _ _ _ Hc3); split; constructor]).
  - apply ctxType_eqb_true in Heqb0. destruct (Hc me Heqc) as (_ & Hpm & Hb1 & Hb2).
    eapply Post_msg; [exact Heqc|exact Hc| | |reflexivity|reflexivity|].
    + split; [cbn; rewrite (proj1 H); apply Hs|apply Hs3].
    + destruct H as (Hp & Hm & He & Hv & Hk). destruct H0 as (Hp' & Hm' & He' & Hv' & Hk').
      destruct Hn3 as (Hp'' & Hk'' & Hm'' & He''). cbn in *.
      unfold nf_same, set_prefix; cbn. repeat split; congruence.
    + split; cbn; [|exact Hb2]. apply Forall_app; split; [exact Hb1|].
      constructor; [|constructor]. rewrite <- Hpm, <- (proj1 H). exact HM.
  - apply Post_prefix; [|exact Hc|cbn; apply H|].
    + split; [cbn; rewrite (proj1 H); apply Hs|].
      cbn. apply pf_inv_add_Message; [apply Hs3|].
      exists (prefix s2). split; [rewrite (proj1 H); apply Hs|exact HM].
    + intros Hne. exfalso. destruct Hperm as [Hf|Hm]; [congruence|]. rewrite Hm in Heqb0. discriminate.
Qed.

Lemma readRPC_post n se doc st se' st' :
  st_inv st -> readRPC decl n se doc st = (Ok se', st') ->
  st_inv st' /\ nf_same st st' /\ svc_Name se' = svc_Name se /\ svc_QualifiedName se' = svc_QualifiedName se.
Proof.
  intros Hs H. unfold readRPC in H. inv_ok; ss_all; ss_chain.
  - match goal with
    | H : readRPC_body _ _ ?c0 ?s0 = (Ok ?c1, ?s1) |- _ =>
        assert (PL : Post c0 s0 c1 s1) by
          (eapply readRPC_body_post; [eapply st_inv_ss; eauto | intros ? Hx; discriminate Hx | exact H])
    end.
    destruct PL as (Hs1 & _ & _ & _ & Hn1). specialize (Hn1 ltac:(discriminate)).
    split; [exact Hs1|]. split; [|split; reflexivity].
    exact (nf_same_trans _ _ _ (nf_same_of_ss _ _ H) Hn1).
  - split; [eapply st_inv_ss; eauto|]. split; [apply nf_same_of_ss, H|split; reflexivity].
Qed.

Lemma readEnum_file n doc st ctx' st' :
  st_inv st -> readEnum decl n doc (mkCtx NoObj fileCtx) st = (Ok ctx', st') -> file_step st st'.
Proof.
  intros Hs H. unfold readEnum in H. inv_ok; ss_all; ss_chain. all: loop_fact.
  all: destruct PL as (Hs1 & _ & Hi1 & _ & Hn1); cbn in Hn1; specialize (Hn1 ltac:(discriminate)).
  all: destruct (enum_final _ _ Hi1) as [En Eq]; cbn in En, Eq.
  all: pose proof (nf_same_trans _ _ _ (nf_same_of_ss _ _ H) Hn1) as Hn.
  - discriminate Heqc.
  - destruct H as [Hp4 _]. destruct Hn as (Hp & Hk & Hm & He).
    split; [|split].
    + exists []. cbn. rewrite app_nil_r. split; [exact Hm|constructor].
    + eexists [_]. split; [cbn; rewrite He; reflexivity|].
      constructor; [|constructor]. rewrite Eq, En, Hp4. reflexivity.
    + left. cbn. split; assumption.
Qed.

Lemma readMessage_file n doc st ctx' st' :
  st_inv st -> readMessage decl n doc (mkCtx NoObj fileCtx) st = (Ok ctx', st') -> file_step st st'.
Proof.
  intros Hs H. unfold readMessage in H. inv_ok; ss_all; ss_chain.
  all: match goal with
       | H : readDeclarationsInLoop _ _ ?c0 ?s0 = (Ok ?c1, ?s1) |- _ =>
           assert (PL : Post c0 s0 c1 s1); [eapply loop_post; [ | | exact H] | clear H]
       end.
  all: try (eapply st_inv_push; [eapply st_inv_ss; [exact H|exact Hs]|exact H0]).
  all: try (intros m0 Hm0; cbn in Hm0; injection Hm0; intros <-; split; [reflexivity|];
            destruct H0 as [Hp6 _]; cbn in Hp6; split; [rewrite Hp6; cbn; apply sapp_assoc|];
            split; constructor).
  all: destruct PL as (Hs3 & Hc3 & Hi3 & _ & Hn3); cbn in Hn3; specialize (Hn3 ltac:(discriminate)).
  all: destruct (msg_final _ _ Hi3) as [Fn Fq]; cbn in Fn, Fq.
  all: match type of Fn with me_Name ?X = _ => set (Mf := X) in * end.
  all: assert (HM : msg_qn_ok (prefix s2) Mf) by
         (apply msg_qn_ok_of_body; [rewrite Fq, Fn; reflexivity
                                    | apply (msg_final_body _ _ _ Hc3); split; constructor]).
  - discriminate Heqc.
  - destruct H as (Hp & Hm & He & Hv & Hk). destruct H0 as (Hp' & Hm' & He' & Hv' & Hk').
    destruct Hn3 as (Hp'' & Hk'' & Hm'' & He''). cbn in *.
    split; [|split].
    + exists [Mf]. cbn. split; [congruence|]. constructor; [|constructor]. rewrite <- Hp. exact HM.
    + exists []. cbn. rewrite app_nil_r. split; [congruence|constructor].
    + left. cbn. split; congruence.
Qed.

Lemma readExtend_file n doc st ctx' st' :
  st_inv st -> readExtend decl n doc (mkCtx NoObj fileCtx) st = (Ok ctx', st') -> file_step st st'.
Proof.
  intros Hs H. unfold readExtend in H. inv_ok; ss_all; ss_chain. all: loop_fact.
  all: destruct PL as (Hs1 & _ & Hi1 & _ & Hn1); cbn in Hn1; specialize (Hn1 ltac:(discriminate)).
  all: pose proof (nf_same_trans _ _ _ (nf_same_of_ss _ _ H) Hn1) as Hn.
  - discriminate Heqc.
  - destruct Hn as (Hp & Hk & Hm & He). split; [|split].
    + exists []. cbn. rewrite app_nil_r. split; [exact Hm|constructor].
    + exists []. cbn. rewrite app_nil_r. split; [exact He|constructor].
    + left. cbn. split; assumption.
Qed.

End BlockProofs.

Lemma readDeclaration_ok n : DeclOK (readDeclaration n).
Proof.
  induction n as [|n IH]; intros doc ctx st ctx' st' Hs Hc H; cbn [readDeclaration] in H; [discriminate|].
  inv_ok; ss_all_but_ctx; ss_chain.
  all: try (apply Post_of_ss; assumption).
  all: try (match goal with
            | Hx : same_struct ?st0 ?s0, Hs0 : st_inv ?st0, Hc0 : ctx_inv ?c0 ?st0 |- _ =>
                eapply Post_ss_l; [exact Hx|];
                assert (st_inv s0) by (eapply st_inv_ss; eauto);
                assert (ctx_inv c0 s0) by (eapply ctx_inv_ss; eauto)
            end).
  all: try (match goal with
            | Hx : ?m ?s0 = (Ok ?c1, ?s1) |- Post _ ?s0 ?c1 ?s1 =>
                apply (leaf_post (m := m)); [solve [eauto with keeps] | solve [eauto with returns] | exact Hx | assumption | assumption ]
            end).
  all: try (eapply readMessage_post; [exact IH|apply permitsMsg_ctx; eassumption|eassumption..]).
  all: try (eapply readEnum_post; [exact IH|apply permitsEnum_ctx; eassumption|eassumption..]).
  all: try (eapply readExtend_post; [exact IH|eassumption..]).
  all: try (eapply readOneOf_post; [exact IH|eassumption..]).
  - apply negb_false_iff, ctxType_eqb_true in Heqb1.
    split; [split; [right; exists a3; reflexivity|exact (proj2 H)]|].
    split; [intros me Hme; destruct (H1 me Hme) as [Ht _]; congruence|].
    split; [apply ids_kept_refl|]. split; [reflexivity|]. intros Hne; congruence.
  - match goal with Hx : readService _ _ _ _ = _ |- _ => destruct (readService_post _ IH _ _ _ _ _ ltac:(eassumption) Hx) as [Hs2 Hn2] end.
    apply Post_prefix; [exact Hs2|assumption|apply Hn2|intros _; exact Hn2].
  - match goal with Hx : readRPC _ _ _ _ _ = _ |- _ => destruct (readRPC_post _ IH _ _ _ _ _ _ ltac:(eassumption) Hx) as (Hs2 & Hn2 & Hnm2 & Hq2) end.
    split; [exact Hs2|]. split; [intros me Hme; discriminate Hme|].
    split; [cbn; rewrite Heqc; eexists; split; [reflexivity|split; assumption]|].
    split; [reflexivity|]. intros _; exact Hn2.
Qed.

Lemma ctx_inv_file st : ctx_inv (mkCtx NoObj fileCtx) st.
Proof. intros me Hme; discriminate Hme. Qed.

Lemma parse_loop_inv n st r st' : st_inv st -> parse_loop n st = (Ok r, st') -> st_inv st'.
Proof.
  revert st; induction n as [|n IH]; intros st Hs H; cbn [parse_loop] in H; [discriminate|].
  inv_ok; ss_all_but_ctx; ss_chain.
  all: try (eapply st_inv_ss; eassumption).
  all: match goal with
       | Hx : readDeclaration _ _ _ ?s = (Ok _, ?s'), Hy : same_struct ?s0 ?s, Hs0 : st_inv ?s0 |- _ =>
           assert (Hs' : st_inv s') by
             (apply (readDeclaration_ok _ _ _ _ _ _ (st_inv_ss _ _ Hy Hs0) (ctx_inv_file _) Hx))
       end.
  - exact Hs'.
  - exact (IH _ Hs' H).
Qed.

Lemma MessageElement_ind' (P : MessageElement -> Prop) :
  (forall M, Forall P (me_Messages M) -> P M) -> forall M, P M.
Proof.
  intros IH. exact (fix go M := IH M
    (match M as M0 return Forall P (me_Messages M0) with
     | mkMessage _ _ _ _ _ _ ms _ _ _ _ _ =>
         (fix goL (l : list MessageElement) : Forall P l :=
            match l with [] => @List.Forall_nil _ P | x :: r => @List.Forall_cons _ P x r (go x) (goL r) end) ms
     end)).
Qed.

Lemma msg_tree_eq M : msg_tree M = M :: flat_map msg_tree (me_Messages M).
Proof. destruct M; reflexivity. Qed.

Ltac sapp_norm := repeat rewrite <- sapp_assoc.

Lemma msg_qn_ok_tree M : forall p, msg_qn_ok p M -> forall N, In N (msg_tree M) ->
  (exists s, me_QualifiedName N = p +:+ s) /\ exists q, msg_qn_ok q N.
Proof.
  induction M as [M IH] using MessageElement_ind'.
  intros p Hok N HN. rewrite msg_tree_eq in HN. destruct HN as [<-|HN].
  - inversion Hok; subst. split; [eexists; eassumption|eexists; exact Hok].
  - apply in_flat_map in HN. destruct HN as (K & HK & HN).
    inversion Hok as [p0 M0 Hq Hms Hes]; subst.
    rewrite List.Forall_forall in IH, Hms.
    destruct (IH K HK _ (Hms K HK) N HN) as [[s Hs] Hq'].
    split; [|exact Hq']. exists (me_Name M +:+ "." +:+ s). rewrite Hs. sapp_norm. reflexivity.
Qed.

Lemma msg_forest_qn q M N : msg_qn_ok q M -> In N (msg_forest (me_Messages M)) ->
  exists s, me_QualifiedName N = me_QualifiedName M +:+ "." +:+ s.
Proof.
  intros Hok HN. unfold msg_forest in HN. apply in_flat_map in HN. destruct HN as (K & HK & HN).
  inversion Hok as [p0 M0 Hq Hms Hes]; subst. rewrite List.Forall_forall in Hms.
  destruct (msg_qn_ok_tree K _ (Hms K HK) N HN) as [[s Hs] _].
  exists s. rewrite Hs, Hq. sapp_norm. reflexivity.
Qed.

Lemma msg_qn_ok_children q M : msg_qn_ok q M ->
  (forall N, In N (me_Messages M) -> me_QualifiedName N = me_QualifiedName M +:+ "." +:+ me_Name N) /\
  (forall e, In e (me_Enums M) -> en_QualifiedName e = me_QualifiedName M +:+ "." +:+ en_Name e).
Proof.
  intros Hok. inversion Hok as [p0 M0 Hq Hms Hes]; subst.
  rewrite List.Forall_forall in Hms, Hes. split.
  - intros N HN. pose proof (Hms N HN) as HNok. inversion HNok as [p1 N0 HqN _ _]; subst.
    rewrite HqN, Hq. sapp_norm. reflexivity.
  - intros e He. rewrite (Hes e He), Hq. sapp_norm. reflexivity.
Qed.

Lemma forest_top_ok ms N : Forall top_msg_ok ms -> In N (msg_forest ms) -> exists q, msg_qn_ok q N.
Proof.
  intros Hall HN. unfold msg_forest in HN. apply in_flat_map in HN. destruct HN as (T & HT & HN).
  rewrite List.Forall_forall in Hall. destruct (Hall T HT) as (q & _ & Hq).
  exact (proj2 (msg_qn_ok_tree T q Hq N HN)).
Qed.

Lemma file_step_nf st st' : nf_same st st' -> file_step st st'.
Proof.
  intros (Hp & Hk & Hm & He). split; [|split].
  - exists []. rewrite app_nil_r. split; [exact Hm|constructor].
  - exists []. rewrite app_nil_r. split; [exact He|constructor].
  - left. split; assumption.
Qed.

Lemma file_step_ss_l st s st' : same_struct st s -> file_step s st' -> file_step st st'.
Proof.
  intros (Hp & Hm & He & Hv & Hk) (HM & HE & HP). rewrite Hp, Hm, He, Hk in *. split; [|split]; assumption.
Qed.

Lemma readDeclaration_file n doc st ctx' st' :
  st_inv st -> readDeclaration n doc (mkCtx NoObj fileCtx) st = (Ok ctx', st') -> file_step st st'.
Proof.
  destruct n as [|n]; intros Hs H; cbn [readDeclaration] in H; [discriminate|].
  inv_ok; ss_all_but_ctx; ss_chain.
  all: try (apply file_step_nf, nf_same_of_ss; assumption).
  all: try (match goal with
            | Hx : same_struct ?st0 ?s0, Hs0 : st_inv ?st0 |- file_step ?st0 _ =>
                eapply file_step_ss_l; [exact Hx|];
                assert (st_inv s0) by (eapply st_inv_ss; eauto)
            end).
  all: try (match goal with
            | Hx : ?m ?s0 = (Ok _, ?s1) |- file_step ?s0 ?s1 =>
                apply file_step_nf, nf_same_of_ss; eapply (keeps_ok m s0 _ s1); [solve [eauto with keeps]|exact Hx]
            end).
  all: try (eapply readMessage_file; [exact (readDeclaration_ok n)|eassumption..]).
  all: try (eapply readEnum_file; [exact (readDeclaration_ok n)|eassumption..]).
  all: try (eapply readExtend_file; [exact (readDeclaration_ok n)|eassumption..]).
  - split; [|split].
    + exists []. cbn. rewrite app_nil_r. split; [reflexivity|constructor].
    + exists []. cbn. rewrite app_nil_r. split; [reflexivity|constructor].
    + right. reflexivity.
  - apply file_step_nf. exact (proj2 (readService_post _ (readDeclaration_ok n) _ _ _ _ _ H Hm2)).
  - discriminate Heqc.
  - discriminate Heqb10.
Qed.

Lemma file_step_prefix_ok st st' : file_prefix_ok st -> file_step st st' -> file_prefix_ok st'.
Proof.
  intros Hf (_ & _ & [[Hp Hk]|Hp]); [|right; exact Hp].
  unfold file_prefix_ok. rewrite Hp, Hk. exact Hf.
Qed.

Lemma st_inv_initState content : st_inv (initState content).
Proof. split; [left; reflexivity|]. split; [constructor|split; constructor]. Qed.
Lemma msg_forest_incl Ms Ms' M : incl Ms Ms' -> In M (msg_forest Ms) -> In M (msg_forest Ms').
Proof. unfold msg_forest. intros Hi HM. apply in_flat_map in HM as [T [HT HM]]. apply in_flat_map. eauto. Qed.

Lemma svc_step_mono p Ms Ms' st st' : incl Ms Ms' -> svc_step p Ms st st' -> svc_step p Ms' st st'.
Proof.
  intros Hi (newS & Hs & Hf). exists newS. split; [exact Hs|]. eapply Forall_impl; [exact Hf|].
  intros s [H|(M & HM & H)]; [left; exact H|right; exists M; split; [eapply msg_forest_incl; eauto|exact H]].
Qed.

Lemma svc_step_trans p Ms a b c : svc_step p Ms a b -> svc_step p Ms b c -> svc_step p Ms a c.
Proof.
  intros (n1 & H1 & F1) (n2 & H2 & F2). exists (n1 ++ n2)%list.
  split; [rewrite H2, H1, app_assoc; reflexivity|apply Forall_app; auto].
Qed.

Lemma svc_step_ss p Ms a b : same_struct a b -> svc_step p Ms a b.
Proof. intros (_ & _ & _ & Hs & _). exists []. rewrite app_nil_r. split; [exact Hs|constructor]. Qed.

Lemma svc_step_ss_l p Ms a b c : same_struct a b -> svc_step p Ms b c -> svc_step p Ms a c.
Proof. intros H1 H2. eapply svc_step_trans; [apply svc_step_ss, H1|exact H2]. Qed.

Lemma svc_step_ss_r p Ms a b c : svc_step p Ms a b -> same_struct b c -> svc_step p Ms a c.
Proof. intros H1 H2. eapply svc_step_trans; [exact H1|apply svc_step_ss, H2]. Qed.

Lemma msgs_of_not_msg o o' : ids_kept o o' -> (forall me, o <> MsgObj me) -> msgs_of o' = [].
Proof. destruct o'; cbn; auto. intros (me0 & -> & _) H. exfalso. exact (H me0 eq_refl). Qed.

Lemma SPost_ss ctx st st' : same_struct st st' -> SPost ctx st ctx st'.
Proof. intros H. split; [apply incl_refl|intros _; apply svc_step_ss, H]. Qed.

Lemma SPost_trans c0 s0 c1 s1 c2 s2 :
  Post c0 s0 c1 s1 -> SPost c0 s0 c1 s1 -> SPost c1 s1 c2 s2 -> SPost c0 s0 c2 s2.
Proof.
  intros (_ & _ & _ & Ht1 & Hn1) (G1 & S1) (G2 & S2).
  split; [eapply incl_tran; eauto|]. intros Hne.
  eapply svc_step_trans; [eapply svc_step_mono; [exact G2|apply S1, Hne]|].
  destruct (Hn1 Hne) as [Hp _]. rewrite <- Hp. apply S2. congruence.
Qed.

Lemma SPost_ss_l c0 s0 s0' c1 s1 : same_struct s0 s0' -> SPost c0 s0' c1 s1 -> SPost c0 s0 c1 s1.
Proof.
  intros Hss (G & S). split; [exact G|]. intros Hne. pose proof (proj1 Hss) as Hp.
  rewrite <- Hp. eapply svc_step_ss_l; [exact Hss|apply S, Hne].
Qed.

Lemma SPost_ss_r c0 s0 c1 s1 s1' : same_struct s1 s1' -> SPost c0 s0 c1 s1 -> SPost c0 s0 c1 s1'.
Proof.
  intros Hss (G & S). split; [exact G|]. intros Hne. eapply svc_step_ss_r; [apply S, Hne|exact Hss].
Qed.

Lemma svc_step_body p nm Mf Ms0 Ms st st' :
  me_QualifiedName Mf = p +:+ nm -> incl Ms0 (me_Messages Mf) -> In Mf Ms ->
  svc_step (p +:+ nm +:+ ".") Ms0 st st' -> svc_step p Ms st st'.
Proof.
  intros Hq Hi HM (newS & Hs & Hf). exists newS. split; [exact Hs|].
  eapply Forall_impl; [exact Hf|]. intros s Hs0. right.
  destruct Hs0 as [H|(M & HM0 & H)].
  - exists Mf. split; [unfold msg_forest; apply in_flat_map; exists Mf; split; [exact HM|rewrite msg_tree_eq; left; reflexivity]|].
    rewrite H, Hq. rewrite <- !sapp_assoc. reflexivity.
  - exists M. split; [|exact H]. unfold msg_forest. apply in_flat_map. exists Mf. split; [exact HM|].
    rewrite msg_tree_eq. right. eapply msg_forest_incl; [exact Hi|exact HM0].
Qed.

Section SvcProofs.
Variable decl : string -> parseCtx -> PM parseCtx.
Hypothesis Hd : DeclOK decl.
Hypothesis Hv : DeclSvc decl.

Lemma loop_svc n ctx st ctx' st' :
  st_inv st -> ctx_inv ctx st -> readDeclarationsInLoop decl n ctx st = (Ok ctx', st') -> SPost ctx st ctx' st'.
Proof.
  revert ctx st; induction n as [|n IH]; intros ctx st Hs Hc H; cbn [readDeclarationsInLoop] in H; [discriminate|].
  inv_ok; ss_all; ss_chain.
  - apply SPost_ss; auto.
  - match goal with
    | H : decl _ _ ?s = (Ok ?c1, ?s1) |- _ =>
        assert (Hs0 : st_inv s) by (eapply st_inv_ss; eauto);
        assert (Hc0 : ctx_inv ctx s) by (eapply ctx_inv_ss; eauto);
        pose proof (Hd _ _ _ _ _ Hs0 Hc0 H) as P1; pose proof (Hv _ _ _ _ _ Hs0 Hc0 H) as S1
    end.
    eapply SPost_ss_l; [eassumption|]. eapply SPost_trans; [exact P1|exact S1|].
    apply IH; [apply P1|apply P1|assumption].
Qed.

Ltac loop_facts :=
  match goal with
  | H : readDeclarationsInLoop _ _ ?c0 ?s0 = (Ok ?c1, ?s1) |- _ =>
      let PL := fresh "PL" in let SL := fresh "SL" in
      assert (PL : Post c0 s0 c1 s1) by
        (eapply (loop_post decl Hd); [eapply st_inv_ss; eauto | intros ? Hx; discriminate Hx | exact H]);
      assert (SL : SPost c0 s0 c1 s1) by
        (eapply loop_svc; [eapply st_inv_ss; eauto | intros ? Hx; discriminate Hx | exact H]);
      clear H
  end.

Lemma readService_svc n doc st u st' :
  st_inv st -> readService decl n doc st = (Ok u, st') ->
  exists inner se, pf_Services (pf st') = (pf_Services (pf st) ++ inner ++ [se])%list /\
    Forall (svc_at (prefix st) []) inner /\ svc_QualifiedName se = prefix st +:+ svc_Name se.
Proof.
  intros Hs H. unfold readService in H. inv_ok; ss_all; ss_chain. loop_facts.
  destruct PL as (_ & _ & Hi1 & _ & _). destruct SL as (_ & S1). specialize (S1 ltac:(discriminate)).
  destruct (svc_final _ _ Hi1) as [Sn Sq]; cbn in Sn, Sq.
  rewrite (msgs_of_not_msg _ _ Hi1) in S1 by (intros ? Hx; discriminate Hx).
  destruct S1 as (inner & Hin & Fin). destruct H as (Hp & _ & _ & Hv4 & _).
  exists inner, (match obj a3 with ServiceObj s3 => s3 | _ => mkService s1 (prefix s4 +:+ s1) doc [] [] end).
  split; [|split].
  - cbn. rewrite Hin, Hv4, app_assoc. reflexivity.
  - rewrite <- Hp. exact Fin.
  - rewrite Sq, Sn, Hp. reflexivity.
Qed.

Lemma readRPC_body_svc n ctx st ctx' st' :
  st_inv st -> ctx_inv ctx st -> readRPC_body decl n ctx st = (Ok ctx', st') -> SPost ctx st ctx' st'.
Proof.
  revert ctx st; induction n as [|n IH]; intros ctx st Hs Hc H; cbn [readRPC_body] in H; [discriminate|].
  inv_ok; ss_all; ss_chain.
  - apply SPost_ss; auto.
  - apply SPost_ss; auto.
  - match goal with
    | H : decl _ _ ?s = (Ok ?c1, ?s1) |- _ =>
        assert (Hs0 : st_inv s) by (eapply st_inv_ss; eauto);
        assert (Hc0 : ctx_inv ctx s) by (eapply ctx_inv_ss; eauto);
        pose proof (Hd _ _ _ _ _ Hs0 Hc0 H) as P1; pose proof (Hv _ _ _ _ _ Hs0 Hc0 H) as S1
    end.
    eapply SPost_ss_l; [eassumption|]. eapply SPost_trans; [exact P1|exact S1|].
    apply IH; [apply P1|apply P1|assumption].
Qed.

Lemma readRPC_svc n se doc st se' st' :
  st_inv st -> readRPC decl n se doc st = (Ok se', st') -> svc_step (prefix st) [] st st'.
Proof.
  intros Hs H. unfold readRPC in H. inv_ok; ss_all; ss_chain.
  - match goal with
    | H : readRPC_body _ _ ?c0 ?s0 = (Ok ?c1, ?s1) |- _ =>
        assert (PL : Post c0 s0 c1 s1) by
          (eapply (readRPC_body_post decl Hd); [eapply st_inv_ss; eauto | intros ? Hx; discriminate Hx | exact H]);
        assert (SL : SPost c0 s0 c1 s1) by
          (eapply readRPC_body_svc; [eapply st_inv_ss; eauto | intros ? Hx; discriminate Hx | exact H]);
        clear H
    end.
    destruct PL as (_ & _ & Hi1 & _ & _). destruct SL as (_ & S1). specialize (S1 ltac:(discriminate)).
    rewrite (msgs_of_not_msg _ _ Hi1) in S1 by (intros ? Hx; discriminate Hx).
    rewrite <- (proj1 H). eapply svc_step_ss_l; [exact H|exact S1].
  - apply svc_step_ss; assumption.
Qed.

Lemma body_svc_nonmsg c0 s0 c1 s1 :
  Post c0 s0 c1 s1 -> SPost c0 s0 c1 s1 -> ctxTypeOf c0 <> fileCtx -> (forall me, obj c0 <> MsgObj me) ->
  svc_step (prefix s0) [] s0 s1.
Proof.
  intros (_ & _ & Hi1 & _ & _) (_ & S1) Hne Hno. specialize (S1 Hne).
  rewrite (msgs_of_not_msg _ _ Hi1 Hno) in S1. exact S1.
Qed.

Lemma msgs_grow_same o me me' : o = MsgObj me -> me_Messages me' = me_Messages me -> msgs_grow o (MsgObj me').
Proof. intros -> H. unfold msgs_grow. cbn. rewrite H. apply incl_refl. Qed.

Lemma svc_step_nil p Ms st st' : svc_step p [] st st' -> svc_step p Ms st st'.
Proof. apply svc_step_mono. intros ? []. Qed.

Lemma nonfile_absurd ctx : ctxTypeOf ctx = fileCtx \/ ctxTypeOf ctx = msgCtx ->
  ctxType_eqb (ctxTypeOf ctx) msgCtx = false -> ctxTypeOf ctx <> fileCtx -> False.
Proof. intros [H|H] Hb Hne; [exact (Hne H)|rewrite H in Hb; discriminate Hb]. Qed.

Lemma readEnum_svc n doc ctx st ctx' st' :
  ctxTypeOf ctx = fileCtx \/ ctxTypeOf ctx = msgCtx ->
  st_inv st -> ctx_inv ctx st -> readEnum decl n doc ctx st = (Ok ctx', st') -> SPost ctx st ctx' st'.
Proof.
  intros Hperm Hs Hc H. unfold readEnum in H. inv_ok; ss_all; ss_chain. all: loop_facts.
  all: pose proof (body_svc_nonmsg _ _ _ _ PL SL ltac:(discriminate) ltac:(intros ? Hx; discriminate Hx)) as S1.
  all: rewrite (proj1 H) in S1; pose proof (svc_step_ss_l _ _ _ _ _ H S1) as S2; clear S1.
  - split; [eapply msgs_grow_same; [eassumption|reflexivity]|intros _; apply svc_step_nil, S2].
  - split; [apply incl_refl|intros Hne; exfalso; eapply nonfile_absurd; eassumption].
Qed.

Lemma readExtend_svc n doc ctx st ctx' st' :
  st_inv st -> ctx_inv ctx st -> readExtend decl n doc ctx st = (Ok ctx', st') -> SPost ctx st ctx' st'.
Proof.
  intros Hs Hc H. unfold readExtend in H. inv_ok; ss_all; ss_chain. all: loop_facts.
  all: pose proof (body_svc_nonmsg _ _ _ _ PL SL ltac:(discriminate) ltac:(intros ? Hx; discriminate Hx)) as S1.
  all: rewrite (proj1 H) in S1; pose proof (svc_step_ss_l _ _ _ _ _ H S1) as S2; clear S1.
  - split; [eapply msgs_grow_same; [eassumption|reflexivity]|intros _; apply svc_step_nil, S2].
  - split; [apply incl_refl|intros _; apply svc_step_nil].
    destruct S2 as (newS & Hn & F). exists newS. split; [exact Hn|exact F].
Qed.

Lemma readOneOf_svc n doc ctx st ctx' st' :
  st_inv st -> ctx_inv ctx st -> readOneOf decl n doc ctx st = (Ok ctx', st') -> SPost ctx st ctx' st'.
Proof.
  intros Hs Hc H. unfold readOneOf in H. inv_ok; ss_all; ss_chain. all: loop_facts.
  all: pose proof (body_svc_nonmsg _ _ _ _ PL SL ltac:(discriminate) ltac:(intros ? Hx; discriminate Hx)) as S1.
  all: rewrite (proj1 H) in S1; pose proof (svc_step_ss_l _ _ _ _ _ H S1) as S2; clear S1.
  split; [eapply msgs_grow_same; [eassumption|reflexivity]|intros _; apply svc_step_nil, S2].
Qed.

Lemma svc_step_eq p Ms a b a' b' :
  pf_Services (pf a') = pf_Services (pf a) -> pf_Services (pf b') = pf_Services (pf b) ->
  svc_step p Ms a b -> svc_step p Ms a' b'.
Proof. intros Ha Hb (newS & Hn & F). exists newS. rewrite Ha, Hb. split; [exact Hn|exact F]. Qed.

Lemma msgs_of_final o m0 : me_Messages m0 = [] ->
  incl (msgs_of o) (me_Messages (match o with MsgObj m => m | _ => m0 end)).
Proof. intros H. destruct o; cbn; try (intros ? []); apply incl_refl. Qed.

Lemma readMessage_svc n doc ctx st ctx' st' :
  ctxTypeOf ctx = fileCtx \/ ctxTypeOf ctx = msgCtx ->
  st_inv st -> ctx_inv ctx st -> readMessage decl n doc ctx st = (Ok ctx', st') -> SPost ctx st ctx' st'.
Proof.
  intros Hperm Hs Hc H. unfold readMessage in H. inv_ok; ss_all; ss_chain.
  all: match goal with
       | H : readDeclarationsInLoop _ _ ?c0 ?s0 = (Ok ?c1, ?s1) |- _ =>
           assert (PL : Post c0 s0 c1 s1); [eapply (loop_post decl Hd); [ | | exact H] |
           assert (SL : SPost c0 s0 c1 s1); [eapply loop_svc; [ | | exact H] | clear H]]
       end.
  all: try (eapply st_inv_push; [eapply st_inv_ss; [exact H|exact Hs]|exact H0]).
  all: try (intros m0 Hm0; cbn in Hm0; injection Hm0; intros <-; split; [reflexivity|];
            destruct H0 as [Hp6 _]; cbn in Hp6; split; [rewrite Hp6; cbn; apply sapp_assoc|];
            split; constructor).
  - destruct PL as (_ & _ & Hi3 & _ & _). destruct (msg_final _ _ Hi3) as [Fn Fq]; cbn in Fn, Fq.
    match type of Fn with me_Name ?X = _ => set (Mf := X) in * end.
    destruct SL as (_ & S1). specialize (S1 ltac:(discriminate)).
    split.
    + unfold msgs_grow. rewrite Heqc. cbn. unfold me_add_Message, me_set. cbn. apply incl_appl, incl_refl.
    + intros _.
      assert (S2 : svc_step (prefix s2) (msgs_of (MsgObj (me_add_Message me Mf))) s6 s3).
      { eapply svc_step_body; [exact Fq|apply msgs_of_final; reflexivity| |].
        - cbn. unfold me_add_Message, me_set. cbn. apply in_or_app. right. left. reflexivity.
        - rewrite (proj1 H0) in S1. cbn in S1. exact S1. }
      rewrite <- (proj1 H). eapply svc_step_eq; [| |exact S2].
      * destruct H as (_ & _ & _ & Hv1 & _). destruct H0 as (_ & _ & _ & Hv2 & _). cbn in Hv2. congruence.
      * reflexivity.
  - split; [apply incl_refl|intros Hne; exfalso; eapply nonfile_absurd; eassumption].
Qed.
Lemma readService_step n doc st u st' :
  st_inv st -> readService decl n doc st = (Ok u, st') -> svc_step (prefix st) [] st st'.
Proof.
  intros Hs H. destruct (readService_svc _ _ _ _ _ Hs H) as (inner & se & Heq & F & Hq).
  exists (inner ++ [se])%list. split; [rewrite Heq; reflexivity|].
  apply Forall_app; split; [exact F|constructor; [left; exact Hq|constructor]].
Qed.
Lemma file_svc_of st st' :
  pf_Messages (pf st') = pf_Messages (pf st) -> svc_step (prefix st) [] st st' -> file_svc st st'.
Proof. intros Hm S. exists []. rewrite app_nil_r. split; [exact Hm|apply svc_step_nil, S]. Qed.

Lemma readMessage_file_svc n doc st ctx' st' :
  st_inv st -> readMessage decl n doc (mkCtx NoObj fileCtx) st = (Ok ctx', st') -> file_svc st st'.
Proof.
  intros Hs H. unfold readMessage in H. inv_ok; ss_all; ss_chain.
  all: match goal with
       | H : readDeclarationsInLoop _ _ ?c0 ?s0 = (Ok ?c1, ?s1) |- _ =>
           assert (PL : Post c0 s0 c1 s1); [eapply (loop_post decl Hd); [ | | exact H] |
           assert (SL : SPost c0 s0 c1 s1); [eapply loop_svc; [ | | exact H] | clear H]]
       end.
  all: try (eapply st_inv_push; [eapply st_inv_ss; [exact H|exact Hs]|exact H0]).
  all: try (intros m0 Hm0; cbn in Hm0; injection Hm0; intros <-; split; [reflexivity|];
            destruct H0 as [Hp6 _]; cbn in Hp6; split; [rewrite Hp6; cbn; apply sapp_assoc|];
            split; constructor).
  all: destruct PL as (Hs3 & Hc3 & Hi3 & _ & Hn3); cbn in Hn3; specialize (Hn3 ltac:(discriminate)).
  all: destruct (msg_final _ _ Hi3) as [Fn Fq]; cbn in Fn, Fq.
  all: match type of Fn with me_Name ?X = _ => set (Mf := X) in * end.
  - discriminate Heqc.
  - destruct SL as (_ & S1). specialize (S1 ltac:(discriminate)).
    rewrite (proj1 H0) in S1. cbn in S1.
    match type of S1 with svc_step _ _ ?a ?b => assert (S2 : svc_step (prefix s2) [Mf] a b) end.
    { eapply svc_step_body; [exact Fq|apply msgs_of_final; reflexivity|left; reflexivity|exact S1]. }
    destruct H as (Hp & Hm & He & Hv1 & Hk). destruct H0 as (Hp' & Hm' & He' & Hv' & Hk').
    destruct Hn3 as (Hp'' & Hk'' & Hm'' & He''). cbn in *.
    exists [Mf]. cbn. split; [congruence|]. rewrite <- Hp. eapply svc_step_eq; [| |exact S2]; cbn; congruence.
Qed.

Lemma readEnum_file_svc n doc st ctx' st' :
  st_inv st -> readEnum decl n doc (mkCtx NoObj fileCtx) st = (Ok ctx', st') -> file_svc st st'.
Proof.
  intros Hs H. unfold readEnum in H. inv_ok; ss_all; ss_chain. all: loop_facts.
  all: pose proof (body_svc_nonmsg _ _ _ _ PL SL ltac:(discriminate) ltac:(intros ? Hx; discriminate Hx)) as S1.
  all: destruct PL as (Hs1 & _ & Hi1 & _ & Hn1); cbn in Hn1; specialize (Hn1 ltac:(discriminate)).
  all: pose proof (nf_same_trans _ _ _ (nf_same_of_ss _ _ H) Hn1) as Hn.
  - discriminate Heqc.
  - rewrite (proj1 H) in S1. destruct Hn as (_ & _ & Hm & _).
    apply file_svc_of; [cbn; exact Hm|]. eapply svc_step_ss_l; [exact H|]. eapply svc_step_eq; [| |exact S1]; reflexivity.
Qed.

Lemma readExtend_file_svc n doc st ctx' st' :
  st_inv st -> readExtend decl n doc (mkCtx NoObj fileCtx) st = (Ok ctx', st') -> file_svc st st'.
Proof.
  intros Hs H. unfold readExtend in H. inv_ok; ss_all; ss_chain. all: loop_facts.
  all: pose proof (body_svc_nonmsg _ _ _ _ PL SL ltac:(discriminate) ltac:(intros ? Hx; discriminate Hx)) as S1.
  all: destruct PL as (Hs1 & _ & Hi1 & _ & Hn1); cbn in Hn1; specialize (Hn1 ltac:(discriminate)).
  all: pose proof (nf_same_trans _ _ _ (nf_same_of_ss _ _ H) Hn1) as Hn.
  - discriminate Heqc.
  - rewrite (proj1 H) in S1. destruct Hn as (_ & _ & Hm & _).
    apply file_svc_of; [cbn; exact Hm|]. eapply svc_step_ss_l; [exact H|]. eapply svc_step_eq; [| |exact S1]; reflexivity.
Qed.
End SvcProofs.

Ltac grow_close :=
  match goal with
  | |- msgs_grow _ _ =>
      unfold msgs_grow; repeat match goal with H : obj _ = _ |- _ => rewrite H end; cbn;
      unfold me_add_Option, me_add_Field, me_add_Extensions, me_add_ReservedRange, me_add_ReservedName, me_set;
      cbn; apply incl_refl
  end.

Lemma grows_readField n l d ctx : returns (readField n l d ctx) (fun c => msgs_grow (obj ctx) (obj c)).
Proof. unfold readField, addField; returns_tac; grow_close. Qed.

Lemma grows_readOption n d ctx : returns (readOption n d ctx) (fun c => msgs_grow (obj ctx) (obj c)).
Proof. unfold readOption, addOption; returns_tac; grow_close. Qed.

Lemma grows_readExtensions n d ctx : returns (readExtensions n d ctx) (fun c => msgs_grow (obj ctx) (obj c)).
Proof. unfold readExtensions; returns_tac; grow_close. Qed.

Lemma grows_readEnumConstant n l d ctx : returns (readEnumConstant n l d ctx) (fun c => msgs_grow (obj ctx) (obj c)).
Proof. unfold readEnumConstant; returns_tac; grow_close. Qed.

Lemma grows_readReserved n d ctx : returns (readReserved n d ctx) (fun c => msgs_grow (obj ctx) (obj c)).
Proof.
  unfold readReserved. destruct ctx as [o t]; cbn.
  destruct o; try solve [returns_tac; grow_close].
  do 3 (apply returns_bind; intros).
  eapply returns_bind_with with (P := msg_kept me).
  - destruct (isDigit _); [apply returns_readReservedRanges|apply returns_readReservedNames].
  - intros me' (_ & _ & Hk & _). apply returns_ret. unfold msgs_grow. cbn. rewrite Hk. apply incl_refl.
Qed.

Create HintDb grows.
#[export] Hint Resolve grows_readField grows_readOption grows_readExtensions grows_readEnumConstant
  grows_readReserved : grows.

Lemma leaf_svc {m : PM parseCtx} ctx st ctx' st' :
  keeps m -> returns m (fun c => msgs_grow (obj ctx) (obj c)) -> m st = (Ok ctx', st') -> SPost ctx st ctx' st'.
Proof. intros Hk Hr H. split; [exact (Hr _ _ _ H)|intros _; apply svc_step_ss, (keeps_ok m st _ st' Hk H)]. Qed.

Lemma readDeclaration_svc n : DeclSvc (readDeclaration n).
Proof.
  induction n as [|n IH]; intros doc ctx st ctx' st' Hs Hc H; cbn [readDeclaration] in H; [discriminate|].
  inv_ok; ss_all_but_ctx; ss_chain.
  all: try (apply SPost_ss; assumption).
  all: try (match goal with
            | Hx : same_struct ?st0 ?s0, Hs0 : st_inv ?st0, Hc0 : ctx_inv ?c0 ?st0 |- _ =>
                eapply SPost_ss_l; [exact Hx|];
                assert (st_inv s0) by (eapply st_inv_ss; eauto);
                assert (ctx_inv c0 s0) by (eapply ctx_inv_ss; eauto)
            end).
  all: try (match goal with
            | Hx : ?m ?s0 = (Ok ?c1, ?s1) |- SPost _ ?s0 ?c1 ?s1 =>
                apply (leaf_svc (m := m)); [solve [eauto with keeps] | solve [eauto with grows] | exact Hx]
            end).
  all: try (eapply readMessage_svc; [exact (readDeclaration_ok n)|exact IH|apply permitsMsg_ctx; eassumption|eassumption..]).
  all: try (eapply readEnum_svc; [exact (readDeclaration_ok n)|exact IH|apply permitsEnum_ctx; eassumption|eassumption..]).
  all: try (eapply readExtend_svc; [exact (readDeclaration_ok n)|exact IH|eassumption..]).
  all: try (eapply readOneOf_svc; [exact (readDeclaration_ok n)|exact IH|eassumption..]).
  - split; [apply incl_refl|]. intros Hne. exfalso. unfold permitsPackage in *.
    apply negb_false_iff, ctxType_eqb_true in Heqb1. exact (Hne Heqb1).
  - split; [apply incl_refl|]. intros _. apply svc_step_nil.
    eapply readService_step; [exact (readDeclaration_ok n)|exact IH|eassumption|eassumption].
  - split; [unfold msgs_grow; rewrite Heqc; cbn; intros ? []|]. intros _. apply svc_step_nil.
    eapply readRPC_svc; [exact (readDeclaration_ok n)|exact IH|eassumption|eassumption].
Qed.

Lemma file_svc_ss_l st s st' : same_struct st s -> file_svc s st' -> file_svc st st'.
Proof.
  intros Hss (newM & Hm & S). exists newM. pose proof Hss as (Hp & Hm0 & _).
  rewrite Hm0 in Hm. rewrite Hp in S. split; [exact Hm|]. eapply svc_step_ss_l; [exact Hss|exact S].
Qed.
Lemma file_svc_ss st st' : same_struct st st' -> file_svc st st'.
Proof. intros Hss. apply file_svc_of; [exact (proj1 (proj2 Hss))|apply svc_step_ss, Hss]. Qed.

Lemma readDeclaration_file_svc n doc st ctx' st' :
  st_inv st -> readDeclaration n doc (mkCtx NoObj fileCtx) st = (Ok ctx', st') -> file_svc st st'.
Proof.
  destruct n as [|n]; intros Hs H; cbn [readDeclaration] in H; [discriminate|].
  inv_ok; ss_all_but_ctx; ss_chain.
  all: try (apply file_svc_ss; assumption).
  all: try (match goal with
            | Hx : same_struct ?st0 ?s0, Hs0 : st_inv ?st0 |- file_svc ?st0 _ =>
                eapply file_svc_ss_l; [exact Hx|];
                assert (st_inv s0) by (eapply st_inv_ss; eauto)
            end).
  all: try (match goal with
            | Hx : ?m ?s0 = (Ok _, ?s1) |- file_svc ?s0 ?s1 =>
                apply file_svc_ss; eapply (keeps_ok m s0 _ s1); [solve [eauto with keeps]|exact Hx]
            end).
  all: try (eapply readMessage_file_svc; [exact (readDeclaration_ok n)|exact (readDeclaration_svc n)|eassumption..]).
  all: try (eapply readEnum_file_svc; [exact (readDeclaration_ok n)|exact (readDeclaration_svc n)|eassumption..]).
  all: try (eapply readExtend_file_svc; [exact (readDeclaration_ok n)|exact (readDeclaration_svc n)|eassumption..]).
  - exists []. cbn. rewrite app_nil_r. split; [reflexivity|]. exists []. cbn. rewrite app_nil_r. split; [reflexivity|constructor].
  - apply file_svc_of.
    + destruct (proj2 (readService_post _ (readDeclaration_ok n) _ _ _ _ _ H Hm2)) as (_ & _ & Hm & _). exact Hm.
    + eapply readService_step; [exact (readDeclaration_ok n)|exact (readDeclaration_svc n)|exact H|exact Hm2].
  - discriminate Heqc.
  - discriminate Heqb10.
Qed.


Lemma svc_named_mono Ms Ms' s : incl Ms Ms' -> svc_named Ms s -> svc_named Ms' s.
Proof.
  intros Hi [H|(M & HM & H)]; [left; exact H|right; exists M; split; [eapply msg_forest_incl; eauto|exact H]].
Qed.

Lemma svc_named_file st st' :
  file_prefix_ok st -> file_svc st st' ->
  Forall (svc_named (pf_Messages (pf st))) (pf_Services (pf st)) ->
  Forall (svc_named (pf_Messages (pf st'))) (pf_Services (pf st')).
Proof.
  intros Hf (newM & Hm & newS & Hs & F) HF. rewrite Hm, Hs. apply Forall_app. split.
  - eapply Forall_impl; [exact HF|]. intros s. apply svc_named_mono, incl_appl, incl_refl.
  - eapply Forall_impl; [exact F|]. intros s [H|(M & HM & H)].
    + left. destruct Hf as [Hp|Hp]; rewrite Hp in H; [left; exact H|right].
      eexists. rewrite H. symmetry. apply sapp_assoc.
    + right. exists M. split; [eapply msg_forest_incl; [apply incl_appr, incl_refl|exact HM]|exact H].
Qed.

Lemma file_inv_ss st st' : same_struct st st' -> file_inv st -> file_inv st'.
Proof.
  intros Hss (Hs & Hf & HF). pose proof Hss as (Hp & Hm & He & Hv & Hk).
  split; [eapply st_inv_ss; eauto|]. unfold file_prefix_ok in *. rewrite Hp, Hk, Hm, Hv. auto.
Qed.

Lemma file_inv_decl m doc st c st' :
  file_inv st -> readDeclaration m doc (mkCtx NoObj fileCtx) st = (Ok c, st') -> file_inv st'.
Proof.
  intros (Hs & Hf & HF) H.
  split; [exact (proj1 (readDeclaration_ok _ _ _ _ _ _ Hs (ctx_inv_file _) H))|].
  split; [exact (file_step_prefix_ok _ _ Hf (readDeclaration_file _ _ _ _ _ Hs H))|].
  exact (svc_named_file _ _ Hf (readDeclaration_file_svc _ _ _ _ _ Hs H) HF).
Qed.

Lemma parse_loop_file_inv n st r st' : file_inv st -> parse_loop n st = (Ok r, st') -> file_inv st'.
Proof.
  revert st; induction n as [|n IH]; intros st Hs H; cbn [parse_loop] in H; [discriminate|].
  inv_ok; ss_all_but_ctx; ss_chain.
  all: try (eapply file_inv_ss; eassumption).
  all: match goal with
       | Hx : readDeclaration _ _ _ ?s = (Ok _, ?s'), Hy : same_struct ?s0 ?s, Hs0 : file_inv ?s0 |- _ =>
           assert (Hs' : file_inv s') by (exact (file_inv_decl _ _ _ _ _ (file_inv_ss _ _ Hy Hs0) Hx))
       end.
  - exact Hs'.
  - exact (IH _ Hs' H).
Qed.

Lemma file_inv_initState content : file_inv (initState content).
Proof. split; [apply st_inv_initState|]. split; [left; reflexivity|constructor]. Qed.






Ltac pm_simpl := repeat progress (unfold mbind, mret, PM_bind, PM_ret, pm_bind, pm_ret; cbn).

(** On the input "}" an iteration of the main loop reads the brace back:
    readDeclaration reads an empty label, returns without consuming it,
    and end of input is never reached. *)
Lemma parse_loop_rbrace (n : nat) (st : pstate) :
  input st = "}" -> eofReached st = false -> fst (parse_loop n st) = NoFuel.
Proof.
  revert st. induction n as [|n IH]; intros st Hin Heof; [reflexivity|].
  destruct st as [inp lr ln col lcr eofr pfx p]; cbn in Hin, Heof; subst inp eofr.
  pm_simpl. apply IH; reflexivity.
Qed.

(** C2 (termination).  The parse of the one-character input "}" does not
    terminate: whatever the bound on the number of loop iterations, the
    main loop exhausts it without consuming input. *)
Theorem parse_rbrace_diverges (n : nat) : parse n "}" = NoFuel.
Proof.
  unfold parse. pose proof (parse_loop_rbrace n (initState "}") eq_refl eq_refl) as H.
  destruct (parse_loop n (initState "}")) as [r st]. cbn in H. subst r. reflexivity.
Qed.

Lemma sapp_nil_r (a : string) : a +:+ "" = a.
Proof.
  induction a as [|x a IH]; [reflexivity|].
  change (String x (a +:+ "") = String x a). rewrite IH. reflexivity.
Qed.
Lemma sapp_nil_l (a : string) : "" +:+ a = a.
Proof. reflexivity. Qed.
Lemma sapp_cons (x : ascii) (a b : string) : String x a +:+ b = String x (a +:+ b).
Proof. reflexivity. Qed.

(** Reading a word: the valid characters up to the first other one. *)
Lemma readWord_loop_spec n buf w c rest st :
  Forall (fun x => isValidCharInWord x None = true) (list_ascii_of_string w) ->
  input st = w +:+ String c rest -> isValidCharInWord c None = false -> (String.length w < n)%nat ->
  exists st', readWordAdvanced_loop n None buf st = (Ok (buf +:+ w), st') /\
    input st' = String c rest /\ pf st' = pf st.
Proof.
  revert n buf st. induction w as [|x w IH]; intros n buf st Hw Hin Hc Hn;
    destruct n as [|n]; cbn in Hn; try lia.
  - rewrite sapp_nil_l in Hin. destruct st as [inp lr ln col lcr eofr pfx p]; cbn in Hin; subst inp.
    cbn [readWordAdvanced_loop]. unfold mbind, PM_bind, pm_bind. cbn -[isValidCharInWord].
    destruct (char_eqb c nl); cbn -[isValidCharInWord]; rewrite Hc; cbn; eexists;
      rewrite sapp_nil_r; (split; [reflexivity|split; reflexivity]).
  - rewrite sapp_cons in Hin. cbn in Hw. inversion Hw as [|? ? Hx Hw']; subst.
    destruct st as [inp lr ln col lcr eofr pfx p]; cbn in Hin; subst inp.
    cbn [readWordAdvanced_loop]. unfold mbind, PM_bind, pm_bind. cbn -[isValidCharInWord readWordAdvanced_loop].
    destruct (char_eqb x nl); cbn -[isValidCharInWord readWordAdvanced_loop]; rewrite Hx;
    (match goal with |- context [readWordAdvanced_loop n None ?b ?s0] =>
       destruct (IH n b s0 Hw' eq_refl Hc ltac:(lia)) as (st' & E & Hi & Hp) end);
    exists st'; rewrite E; (split; [rewrite <- sapp_assoc; reflexivity|split; [exact Hi|exact Hp]]).
Qed.

Lemma readWord_spec n w c rest st :
  Forall (fun x => isValidCharInWord x None = true) (list_ascii_of_string w) ->
  input st = w +:+ String c rest -> isValidCharInWord c None = false -> (String.length w < n)%nat ->
  exists st', readWord n st = (Ok w, st') /\ input st' = String c rest /\ pf st' = pf st.
Proof.
  intros. unfold readWord, readWordAdvanced.
  destruct (readWord_loop_spec n "" w c rest st) as (st' & E & Hi & Hp); [assumption..|].
  exists st'. split; [exact E|split; assumption].
Qed.

Ltac char_eval :=
  repeat match goal with
  | |- context [isValidCharInWord (Ascii ?b0 ?b1 ?b2 ?b3 ?b4 ?b5 ?b6 ?b7) ?f] =>
      let v := eval vm_compute in (isValidCharInWord (Ascii b0 b1 b2 b3 b4 b5 b6 b7) f) in
      change (isValidCharInWord (Ascii b0 b1 b2 b3 b4 b5 b6 b7) f) with v
  end.

Ltac pm_simpl_lbl :=
  repeat progress (unfold mbind, mret, PM_bind, PM_ret, pm_bind, pm_ret; char_eval;
    cbn -[readMessage readEnum readExtend readService readRPC readOneOf readExtensions readReserved
          readOption readSyntax readImport readEnumConstant readField readWord readDeclaration]).

Ltac label_case w l :=
  match goal with Hc : isValidCharInWord ?c None = false |- context [readWordAdvanced_loop ?k None ?b ?s0] =>
    let st' := fresh "st'" in let E := fresh "E" in let Hi := fresh "Hi" in let Hp := fresh "Hp" in
    destruct (readWord_loop_spec k b w c _ s0 ltac:(repeat constructor) eq_refl Hc ltac:(cbn; lia))
      as (st' & E & Hi & Hp);
    replace (b +:+ w) with l in E by reflexivity;
    rewrite E; pm_simpl_lbl
  end.

(** A labelled field in a field context is handed to readField. *)
Lemma readDeclaration_field_label n doc ctx st label c rest :
  (10 <= n)%nat -> is_field_ctx ctx -> (label = optional \/ label = required \/ label = repeated) ->
  input st = label +:+ String c rest -> isValidCharInWord c None = false ->
  exists m st', pf st' = pf st /\ readDeclaration n doc ctx st = readField m label doc ctx st'.
Proof.
  intros Hn Hctx Hl Hin Hc. destruct n as [|n]; [lia|].
  destruct ctx as [o t]; unfold is_field_ctx in Hctx; cbn in Hctx.
  destruct st as [inp lr ln col lcr eofr pfx p]; cbn in Hin |- *; subst inp.
  destruct Hl as [ -> | [ -> | -> ]]; unfold optional, required, repeated;
  rewrite ?sapp_cons, sapp_nil_l; cbn [readDeclaration]; pm_simpl_lbl;
  [label_case "ptional" "optional" | label_case "equired" "required" | label_case "epeated" "repeated"].
  all: destruct Hctx as [ -> | [ -> | -> ]]; exists (S n), st'; (split; [rewrite Hp; reflexivity | reflexivity]).
Qed.

Lemma readField_label_errors n label doc ctx st :
  (label = optional \/ label = required \/ label = repeated) ->
  (Syntax (pf st) = proto3 -> label = optional ->
     exists e, fst (readField n label doc ctx st) = Err e /\ contains e "proto3") /\
  (Syntax (pf st) = proto3 -> label = required -> exists e, fst (readField n label doc ctx st) = Err e) /\
  (ctxTypeOf ctx = oneOfCtx -> exists e, fst (readField n label doc ctx st) = Err e).
Proof.
  intros Hl. unfold readField, gets, errline, optional_in_proto3_msg; repeat progress (unfold mbind, mret, PM_bind, PM_ret, pm_bind, pm_ret; cbn).
  split; [|split].
  - intros Hs ->. rewrite Hs. cbn. eexists; split; [reflexivity|].
    exists "Explicit 'optional' labels are disallowed in the ".
    eexists. reflexivity.
  - intros Hs ->. rewrite Hs. cbn. eexists; reflexivity.
  - intros Ho. destruct ctx as [o t]; cbn in Ho; subst t.
    destruct Hl as [ -> | [ -> | -> ]]; cbn;
    destruct (String.eqb (Syntax (pf st)) proto3); cbn; eexists; reflexivity.
Qed.

(** C8: in a message, oneof or extend body, a declaration starting with
    the label optional, required or repeated (followed by a character that
    ends the word) fails: with an error mentioning proto3 for optional in a
    proto3 file, with an error for required in a proto3 file, and with an
    error for any of the three labels inside a oneof. *)
Theorem readDeclaration_field_label_errors n doc ctx st label c rest :
  (10 <= n)%nat -> is_field_ctx ctx -> (label = optional \/ label = required \/ label = repeated) ->
  input st = label +:+ String c rest -> isValidCharInWord c None = false ->
  (Syntax (pf st) = proto3 -> label = optional ->
     exists e, fst (readDeclaration n doc ctx st) = Err e /\ contains e "proto3") /\
  (Syntax (pf st) = proto3 -> label = required -> exists e, fst (readDeclaration n doc ctx st) = Err e) /\
  (ctxTypeOf ctx = oneOfCtx -> exists e, fst (readDeclaration n doc ctx st) = Err e).
Proof.
  intros Hn Hctx Hl Hin Hc.
  destruct (readDeclaration_field_label n doc ctx st label c rest Hn Hctx Hl Hin Hc) as (m & st' & Hp & ->).
  rewrite <- Hp. apply readField_label_errors; exact Hl.
Qed.

Lemma readDeclaration_field_label_errors_witness :
  let ctx := mkCtx NoObj msgCtx in
  (Syntax (pf c8_state) = proto3 -> optional = optional ->
     exists e, fst (readDeclaration 10 "" ctx c8_state) = Err e /\ contains e "proto3") /\
  (Syntax (pf c8_state) = proto3 -> optional = required -> exists e, fst (readDeclaration 10 "" ctx c8_state) = Err e) /\
  (ctxTypeOf ctx = oneOfCtx -> exists e, fst (readDeclaration 10 "" ctx c8_state) = Err e).
Proof.
  intros ctx.
  apply (readDeclaration_field_label_errors 10 "" ctx c8_state optional " "%char ("int32 x = 1;" +:+ str1 nl)).
  - lia.
  - left; reflexivity.
  - left; reflexivity.
  - reflexivity.
  - vm_compute; reflexivity.
Defined.

Lemma returns_checkMapField fl ctx ty :
  returns (checkMapField fl ctx ty)
    (fun _ => is_label fl = false /\ ctxTypeOf ctx <> oneOfCtx /\ ctxTypeOf ctx <> extendCtx /\
              forall k v, ty = MapDataType k v -> map_key_ok k).
Proof.
  unfold checkMapField; returns_tac.
  split; [reflexivity|]. destruct ctx as [o t]; cbn in *.
  split; [intros ->; discriminate|]. split; [intros ->; discriminate|].
  intros k' v' [= <- <-]. apply orb_false_iff in Heqb2 as [Heqb2 Hb].
  apply orb_false_iff in Heqb2 as [Hf Hd]. apply String.eqb_neq in Hf, Hd, Hb.
  repeat split; assumption.
Qed.

(** C9: when readField succeeds it appends one field to the record of its
    context; if the type of that field is a map, the label read is not one
    of required, optional, repeated, the context is neither a oneof nor an
    extend, and the key type is not float, double, bytes nor a named type.
    So a map field breaking one of these rules is a parse error. *)
Theorem readField_map_checks n label doc ctx st ctx' st' :
  is_field_ctx ctx -> readField n label doc ctx st = (Ok ctx', st') ->
  exists fe, fields_of ctx' = (fields_of ctx ++ [fe])%list /\ map_field_ok label ctx (fe_Type fe).
Proof.
  intros Hctx. revert st ctx' st'. fold (returns (readField n label doc ctx)
    (fun ctx' => exists fe, fields_of ctx' = (fields_of ctx ++ [fe])%list /\ map_field_ok label ctx (fe_Type fe))).
  unfold readField. apply returns_bind; intros syntax.
  repeat match goal with |- returns (if ?b then _ else _) _ => destruct b; [apply returns_errline|] end.
  apply (returns_bind_with _ _ (fun p : string * string => (is_label label = true /\ fst p = label) \/ (is_label label = false /\ fst p = ""))).
  { destruct (is_label label) eqn:El; returns_tac; cbn; auto. }
  intros [fl dts] Hfl. apply returns_bind; intros feType.
  apply (returns_bind_with _ _ (fun _ => is_map feType = true ->
     is_label fl = false /\ ctxTypeOf ctx <> oneOfCtx /\ ctxTypeOf ctx <> extendCtx /\
     forall k v, feType = MapDataType k v -> map_key_ok k)).
  { destruct (is_map feType) eqn:Em.
    - eapply returns_weaken; [apply returns_checkMapField|]. intros u H _; exact H.
    - apply returns_ret; discriminate. }
  intros _ Hcm. returns_tac. unfold addField. returns_tac.
  all: destruct ctx as [o t]; unfold is_field_ctx in Hctx; cbn in *; subst.
  all: try (destruct Hctx as [H|[H|H]]; discriminate).
  all: eexists; split; [reflexivity|].
  all: intros k v Ht; cbn in Ht; subst feType;
    destruct (Hcm eq_refl) as (Hl & Ho & He & Hk);
    destruct Hfl as [[Hl' Hf]|[Hl' Hf]]; cbn in Hf; subst fl;
    [congruence | split; [exact Hl'|split; [exact Ho|split; [exact He|exact (Hk k v eq_refl)]]]].
Qed.

Lemma readField_map_checks_witness :
  exists ctx' st', readField 20 "map" "" c9_ctx c9_state = (Ok ctx', st') /\
  exists fe, fields_of ctx' = (fields_of c9_ctx ++ [fe])%list /\ map_field_ok "map" c9_ctx (fe_Type fe).
Proof.
  do 2 eexists. split; [vm_compute; reflexivity|].
  apply (readField_map_checks 20 "map" "" c9_ctx c9_state _ _ ltac:(left; reflexivity) ltac:(vm_compute; reflexivity)).
Defined.

Lemma pm_bind_ok {A B} (m : PM A) (k : A -> PM B) st a st' :
  m st = (Ok a, st') -> (x ← m; k x) st = k a st'.
Proof. intros H. unfold mbind, PM_bind, pm_bind. rewrite H. reflexivity. Qed.

Lemma digit_facts (d : ascii) : isDigit d = true ->
  char_eqb d eof = false /\ char_eqb d nl = false /\ isWhitespace d = false /\
  char_eqb d "-" = false /\ char_eqb d "+" = false /\ char_eqb d ";" = false.
Proof. destruct d as [[] [] [] [] [] [] [] []]; vm_compute; intros H; first [discriminate H | repeat split]. Qed.

Lemma atoi_fast_digits_ok ds acc :
  Forall (fun x => isDigit x = true) (list_ascii_of_string ds) ->
  atoi_fast_digits ds acc = Some (decimal_acc acc ds).
Proof.
  revert acc; induction ds as [|d ds IH]; intros acc H; [reflexivity|].
  inversion H as [|? ? Hd Hds]; subst. cbn. rewrite Hd. apply IH, Hds.
Qed.

Lemma Atoi_digits ds :
  Forall (fun x => isDigit x = true) (list_ascii_of_string ds) -> (0 < String.length ds < 19)%nat ->
  Atoi ds = GoOk (decimal_value ds).
Proof.
  intros H Hl. destruct ds as [|d ds']; [cbn in Hl; lia|].
  pose proof H as H'. inversion H' as [|? ? Hd _]; subst.
  destruct (digit_facts d Hd) as (_ & _ & _ & Hm & Hp & _).
  unfold Atoi. cbn [sign_split]. rewrite Hm, Hp.
  replace ((0 <? String.length (String d ds'))%nat && (String.length (String d ds') <? 19)%nat) with true
    by (symmetry; apply andb_true_iff; split; apply Nat.ltb_lt; lia).
  cbn [String.eqb]. rewrite atoi_fast_digits_ok by exact H. reflexivity.
Qed.

Lemma readInt_loop_spec n buf w c rest st :
  Forall (fun x => isDigit x = true) (list_ascii_of_string w) ->
  input st = w +:+ String c rest -> isDigit c = false -> (String.length w < n)%nat ->
  exists st', readInt_loop n buf st = (Ok (buf +:+ w), st') /\
    input st' = String c rest /\ pf st' = pf st.
Proof.
  revert n buf st. induction w as [|x w IH]; intros n buf st Hw Hin Hc Hn;
    destruct n as [|n]; cbn in Hn; try lia.
  - rewrite sapp_nil_l in Hin. destruct st as [inp lr ln col lcr eofr pfx p]; cbn in Hin; subst inp.
    cbn [readInt_loop]. unfold mbind, PM_bind, pm_bind. cbn -[isDigit].
    destruct (char_eqb c nl); cbn -[isDigit]; rewrite Hc; cbn; eexists;
      rewrite sapp_nil_r; (split; [reflexivity|split; reflexivity]).
  - rewrite sapp_cons in Hin. cbn in Hw. inversion Hw as [|? ? Hx Hw']; subst.
    destruct st as [inp lr ln col lcr eofr pfx p]; cbn in Hin; subst inp.
    cbn [readInt_loop]. unfold mbind, PM_bind, pm_bind. cbn -[isDigit readInt_loop].
    destruct (char_eqb x nl); cbn -[isDigit readInt_loop]; rewrite Hx;
    (match goal with |- context [readInt_loop n ?b ?s0] =>
       destruct (IH n b s0 Hw' eq_refl Hc ltac:(lia)) as (st' & E & Hi & Hp) end);
    exists st'; rewrite E; (split; [rewrite <- sapp_assoc; reflexivity|split; [exact Hi|exact Hp]]).
Qed.

Lemma readInt_spec n w c rest st :
  Forall (fun x => isDigit x = true) (list_ascii_of_string w) -> (0 < String.length w < 19)%nat ->
  input st = w +:+ String c rest -> isDigit c = false -> (String.length w < n)%nat ->
  exists st', readInt n st = (Ok (decimal_value w), st') /\ input st' = String c rest /\ pf st' = pf st.
Proof.
  intros Hw Hl Hin Hc Hn. unfold readInt.
  destruct (readInt_loop_spec n "" w c rest st Hw Hin Hc Hn) as (st' & E & Hi & Hp).
  exists st'. rewrite (pm_bind_ok _ _ _ _ _ E), sapp_nil_l, Atoi_digits by assumption.
  exact (conj eq_refl (conj Hi Hp)).
Qed.

Lemma read_unread_spec c r st :
  input st = String c r ->
  exists st1 st', read st = (Ok c, st1) /\ unread st1 = (Ok tt, st') /\ input st' = String c r /\ pf st' = pf st.
Proof.
  intros Hin. destruct st as [inp lr ln col lcr eofr pfx p]; cbn in Hin; subst inp.
  unfold read; cbn. destruct (char_eqb c nl); do 2 eexists; (split; [reflexivity|split; [reflexivity|split; reflexivity]]).
Qed.

Lemma skipWhitespace_spec n d r st :
  (2 <= n)%nat -> input st = String " " (String d r) -> isWhitespace d = false -> char_eqb d eof = false ->
  exists st', skipWhitespace n st = (Ok tt, st') /\ input st' = String d r /\ pf st' = pf st.
Proof.
  intros Hn Hin Hw He. destruct n as [|[|n]]; [lia|lia|].
  destruct st as [inp lr ln col lcr eofr pfx p]; cbn in Hin; subst inp.
  cbn [skipWhitespace]. unfold mbind, PM_bind, pm_bind. cbn -[isWhitespace].
  replace (isWhitespace " ") with true by reflexivity; cbn -[isWhitespace].
  destruct (char_eqb d nl); cbn -[isWhitespace]; rewrite He, Hw; cbn; eexists; (split; [reflexivity|split; reflexivity]).
Qed.

Lemma pm_bind_assoc {A B C} (m : PM A) (k : A -> PM B) (K : B -> PM C) st :
  ((x ← m; k x) ≫= K) st = (x ← m; k x ≫= K) st.
Proof. unfold mbind, PM_bind, pm_bind. destruct (m st) as [[a|e|e|] st1]; reflexivity. Qed.

Ltac step E := repeat rewrite pm_bind_assoc; erewrite pm_bind_ok by exact E; cbv beta.

Lemma readExtensions_max n doc me st ds rest :
  (20 <= n)%nat -> Syntax (pf st) <> proto3 ->
  Forall (fun x => isDigit x = true) (list_ascii_of_string ds) -> (0 < String.length ds < 19)%nat ->
  input st = String " " (ds +:+ " to max;" +:+ rest) ->
  exists st', readExtensions n doc (mkCtx (MsgObj me) msgCtx) st =
    (Ok (mkCtx (MsgObj (me_add_Extensions me (mkExtensions doc (decimal_value ds) 536870911))) msgCtx), st')
    /\ input st' = ";" +:+ rest.
Proof.
  intros Hn Hs Hd Hl Hin.
  destruct ds as [|d ds']; [cbn in Hl; lia|].
  pose proof Hd as Hd'. inversion Hd' as [|? ? Hd0 _]; subst.
  destruct (digit_facts d Hd0) as (He & _ & Hw & _).
  unfold readExtensions. erewrite (pm_bind_ok (gets (fun s => Syntax (pf s))) _ st (Syntax (pf st)) st eq_refl). cbv beta.
  rewrite (proj2 (String.eqb_neq _ _) Hs). cbv iota.
  destruct (skipWhitespace_spec n d (ds' +:+ " to max;" +:+ rest) st ltac:(lia) Hin Hw He) as (st2 & E2 & Hi2 & Hp2).
  erewrite pm_bind_ok by exact E2. cbv beta.
  destruct (readInt_spec n (String d ds') " " ("to max;" +:+ rest) st2 Hd Hl ltac:(rewrite Hi2; reflexivity)
    eq_refl ltac:(lia)) as (st3 & E3 & Hi3 & Hp3).
  erewrite pm_bind_ok by exact E3. cbv beta.
  destruct (read_unread_spec " " ("to max;" +:+ rest) st3 Hi3) as (st4 & st5 & E4 & E5 & Hi5 & Hp5).
  erewrite pm_bind_ok by exact E4. cbv beta.
  cbn [negb char_eqb Ascii.eqb Bool.eqb andb].
  step E5.
  destruct (skipWhitespace_spec n "t" ("o max;" +:+ rest) st5 ltac:(lia) Hi5 eq_refl eq_refl) as (st6 & E6 & Hi6 & Hp6).
  step E6.
  destruct (readWord_spec n "to" " " ("max;" +:+ rest) st6 ltac:(repeat constructor) Hi6 eq_refl ltac:(cbn; lia))
    as (st7 & E7 & Hi7 & Hp7).
  step E7. cbn [negb String.eqb char_eqb Ascii.eqb Bool.eqb andb].
  destruct (skipWhitespace_spec n "m" ("ax;" +:+ rest) st7 ltac:(lia) Hi7 eq_refl eq_refl) as (st8 & E8 & Hi8 & Hp8).
  step E8.
  destruct (readWord_spec n "max" ";" rest st8 ltac:(repeat constructor) Hi8 eq_refl ltac:(cbn; lia))
    as (st9 & E9 & Hi9 & Hp9).
  step E9. cbn [negb String.eqb char_eqb Ascii.eqb Bool.eqb andb].
  exists st9. split; [reflexivity|exact Hi9].
Qed.

Lemma readDeclaration_extensions n doc ctx st c rest :
  (11 <= n)%nat -> ctxTypeOf ctx = msgCtx -> input st = "extensions" +:+ String c rest ->
  isValidCharInWord c None = false ->
  exists st', pf st' = pf st /\ input st' = String c rest /\ readDeclaration n doc ctx st = readExtensions n doc ctx st'.
Proof.
  intros Hn Hctx Hin Hc. destruct n as [|n]; [lia|].
  destruct ctx as [o t]; cbn in Hctx; subst t.
  destruct st as [inp lr ln col lcr eofr pfx p]; cbn in Hin |- *; subst inp.
  rewrite ?sapp_cons, sapp_nil_l; cbn [readDeclaration]; pm_simpl_lbl.
  label_case "xtensions" "extensions".
  exists st'; split; [rewrite Hp; reflexivity|split; [exact Hi|reflexivity]].
Qed.

Lemma readExtensions_proto3 n doc ctx st :
  Syntax (pf st) = proto3 ->
  exists e, fst (readExtensions n doc ctx st) = Err e /\ contains e "Extension ranges are not allowed in proto3".
Proof.
  intros Hs. unfold readExtensions.
  erewrite (pm_bind_ok (gets (fun s => Syntax (pf s))) _ st (Syntax (pf st)) st eq_refl). cbv beta.
  rewrite Hs. cbn -[show_Z]. eexists; split; [reflexivity|]. exists "". eexists. reflexivity.
Qed.

(** C10: in a message, [extensions S to max;] (S a run of at most 18
    decimal digits) gives, in a proto2 file, an extensions range from the
    value of S to 536870911; in a proto3 file any declaration starting with
    the word [extensions] fails with an error saying that extension ranges
    are not allowed in proto3. *)
Theorem readDeclaration_extensions_max n doc me st :
  (20 <= n)%nat ->
  (forall ds rest, Syntax (pf st) <> proto3 ->
     Forall (fun x => isDigit x = true) (list_ascii_of_string ds) -> (0 < String.length ds < 19)%nat ->
     input st = "extensions " +:+ ds +:+ " to max;" +:+ rest ->
     exists st', readDeclaration n doc (mkCtx (MsgObj me) msgCtx) st =
       (Ok (mkCtx (MsgObj (me_add_Extensions me (mkExtensions doc (decimal_value ds) 536870911))) msgCtx), st')
       /\ input st' = ";" +:+ rest) /\
  (forall c rest, Syntax (pf st) = proto3 -> input st = "extensions" +:+ String c rest ->
     isValidCharInWord c None = false ->
     exists e, fst (readDeclaration n doc (mkCtx (MsgObj me) msgCtx) st) = Err e /\
       contains e "Extension ranges are not allowed in proto3").
Proof.
  intros Hn. split.
  - intros ds rest Hs Hd Hl Hin.
    destruct (readDeclaration_extensions n doc (mkCtx (MsgObj me) msgCtx) st " " (ds +:+ " to max;" +:+ rest)
      ltac:(lia) eq_refl ltac:(rewrite Hin; reflexivity) eq_refl) as (st1 & Hp1 & Hi1 & ->).
    apply readExtensions_max; [lia|rewrite Hp1; exact Hs|exact Hd|exact Hl|exact Hi1].
  - intros c rest Hs Hin Hc.
    destruct (readDeclaration_extensions n doc (mkCtx (MsgObj me) msgCtx) st c rest ltac:(lia) eq_refl Hin Hc)
      as (st1 & Hp1 & _ & ->).
    apply readExtensions_proto3. rewrite Hp1. exact Hs.
Qed.

Lemma readDeclaration_extensions_max_witness :
  exists st', readDeclaration 20 "" (mkCtx (MsgObj c10_msg) msgCtx) c10_state =
    (Ok (mkCtx (MsgObj (me_add_Extensions c10_msg (mkExtensions "" 5 536870911))) msgCtx), st')
    /\ input st' = ";" +:+ str1 nl.
Proof.
  destruct (proj1 (readDeclaration_extensions_max 20 "" c10_msg c10_state ltac:(lia)) "5" (str1 nl)
    ltac:(cbv; discriminate) ltac:(repeat constructor) ltac:(cbn; lia) eq_refl) as (st' & E & Hi).
  exists st'. split; [exact E|exact Hi].
Defined.

(** C3: a file without a package declaration is parsed and verified
    without error; its package name is the empty string. *)
Theorem verify_accepts_missing_package :
  exists p, Parse 300 c3_content None = Ok p /\ PackageName p = "".
Proof. eexists. split; [vm_compute; reflexivity|reflexivity]. Qed.

(** C6: a request or response type qualified with the file's own package
    is looked up as [pkg.pkg.Req] and rejected, while the same reference
    is accepted in a field, and the unqualified name is accepted in an RPC. *)
Theorem rpc_own_package_type_rejected :
  Parse 300 c6_rpc None =
    Err "Datatype: 'pkg.Req' referenced in RPC: 'Get' of Service: 'S' is not defined OR is not a message type" /\
  (exists p, Parse 300 c6_field None = Ok p) /\
  (exists p, Parse 300 c6_plain None = Ok p).
Proof.
  split; [vm_compute; reflexivity|].
  split; eexists; vm_compute; reflexivity.
Qed.

Lemma char_eqb_sym a b : char_eqb a b = char_eqb b a.
Proof. unfold char_eqb. destruct (Ascii.eqb a b) eqn:E, (Ascii.eqb b a) eqn:E'; try reflexivity;
  apply Ascii.eqb_eq in E || apply Ascii.eqb_eq in E'; subst; rewrite Ascii.eqb_refl in *; congruence. Qed.

Lemma HasPrefix_dot s p : HasPrefix s (p +:+ ".") = true -> ContainsRune s "." = true.
Proof.
  revert s; induction p as [|c p IH]; intros s H; destruct s as [|d s]; try discriminate.
  - change (char_eqb "." d && HasPrefix s "" = true) in H. apply andb_true_iff in H as [H _].
    cbn [ContainsRune]. rewrite char_eqb_sym, H. reflexivity.
  - change (char_eqb c d && HasPrefix s (p +:+ ".") = true) in H.
    apply andb_true_iff in H as [_ H]. cbn. rewrite (IH s H). apply orb_true_r.
Qed.

Lemma find_some_split {A} (f : A -> bool) l x :
  find f l = Some x <-> exists pre post, l = (pre ++ x :: post)%list /\ f x = true /\ Forall (fun y => f y = false) pre.
Proof.
  induction l as [|y l IH]; cbn.
  - split; [discriminate|]. intros (pre & post & H & _). destruct pre; discriminate.
  - destruct (f y) eqn:Ey. split.
    + intros [= <-]. exists [], l. split; [reflexivity|split; [exact Ey|constructor]].
    + intros (pre & post & H & Hx & Hpre). destruct pre as [|z pre]; cbn in H; injection H as -> ?; [reflexivity|].
      subst. inversion Hpre; congruence.
    + rewrite IH. split.
      * intros (pre & post & -> & Hx & Hpre). exists (y :: pre), post. split; [reflexivity|split; [exact Hx|constructor; assumption]].
      * intros (pre & post & H & Hx & Hpre). destruct pre as [|z pre]; cbn in H; injection H as -> ?; [congruence|].
        subst. inversion Hpre; subst. exists pre, post. auto.
Qed.

Lemma usesPackage_spec s pkg pkgs : usesPackage s pkg pkgs = true <-> refers_to_package pkgs s pkg.
Proof.
  unfold usesPackage, isDatatypeInSamePackage, refers_to_package. split.
  - destruct (ContainsRune s ".") ; [|discriminate].
    destruct (find _ pkgs) as [q|] eqn:E; [|discriminate].
    cbn. intros H. apply String.eqb_eq in H; subst q.
    apply find_some_split in E as (pre & post & -> & Hx & Hpre). exists pre, post. auto.
  - intros (pre & post & Hl & Hx & Hpre).
    assert (E : find (fun q => HasPrefix s (q +:+ ".")) pkgs = Some pkg)
      by (apply find_some_split; exists pre, post; auto).
    rewrite (HasPrefix_dot s pkg Hx), E. cbn. apply String.eqb_refl.
Qed.

Lemma go_forall_ok {X} (f : X -> goResult unit) xs :
  go_forall f xs = GoOk tt <-> forall x, In x xs -> f x = GoOk tt.
Proof.
  induction xs as [|x xs IH]; cbn.
  - split; [intros _ x []|reflexivity].
  - unfold go_then. destruct (f x) as [[]|e] eqn:E.
    + rewrite IH. split; [intros H y [<-|Hy]; auto|intros H y Hy; apply H; auto].
    + split; [discriminate|]. intros H. rewrite H in E by auto. discriminate.
Qed.

Lemma go_forall_first {X} (f : X -> goResult unit) pre x post e :
  (forall y, In y pre -> f y = GoOk tt) -> f x = GoErr e -> go_forall f (pre ++ x :: post)%list = GoErr e.
Proof.
  induction pre as [|y pre IH]; cbn; intros Hpre Hx.
  - rewrite Hx. reflexivity.
  - rewrite (Hpre y (or_introl eq_refl)). apply IH; auto.
Qed.

Lemma go_then_ok (a b : goResult unit) : go_then a b = GoOk tt <-> a = GoOk tt /\ b = GoOk tt.
Proof. destruct a as [[]|e]; cbn; [tauto|split; [discriminate|intros [H _]; discriminate]]. Qed.

Lemma go_then_err (a b : goResult unit) e : go_then a b = GoErr e -> a = GoErr e \/ (a = GoOk tt /\ b = GoErr e).
Proof. destruct a as [[]|e']; cbn; auto. Qed.

Lemma go_forall_err {X} (f : X -> goResult unit) xs e :
  go_forall f xs = GoErr e -> exists x, In x xs /\ f x = GoErr e.
Proof.
  induction xs as [|x xs IH]; cbn; [discriminate|]. intros H.
  apply go_then_err in H as [H|[_ H]]; [exists x; auto|]. destruct (IH H) as (y & Hy & Hf). exists y; auto.
Qed.

Lemma goResult_unit_cases (r : goResult unit) : r = GoOk tt \/ exists e, r = GoErr e.
Proof. destruct r as [[]|e]; eauto. Qed.

Lemma tagAliases_loop_ok en seen encs :
  tagAliases_loop en seen encs = GoOk tt <->
  isAllowAlias en = true \/ (NoDup (map ec_Tag encs) /\ Forall (fun t => t ∉ seen) (map ec_Tag encs)).
Proof.
  revert seen; induction encs as [|enc encs IH]; intros seen; cbn.
  - split; [intros _; right; split; constructor|reflexivity].
  - destruct (isAllowAlias en) eqn:Ea; cbn.
    + rewrite andb_false_r, IH. tauto.
    + rewrite andb_true_r. destruct (bool_decide (ec_Tag enc ∈ seen)) eqn:Es.
      * apply bool_decide_eq_true in Es. split; [discriminate|].
        intros [H|[_ H]]; [discriminate|]. inversion H; contradiction.
      * apply bool_decide_eq_false in Es. rewrite IH. rewrite NoDup_cons.
        split.
        -- intros [H|[Hn Hf]]; [discriminate|]. right.
           rewrite List.Forall_forall in Hf |- *.
           split; [split; [|exact Hn]|].
           ++ rewrite list_elem_of_In. intros Hin. apply (Hf _ Hin). set_solver.
           ++ intros t [<-|Ht]; [exact Es|]. specialize (Hf t Ht). set_solver.
        -- intros [H|[[Hn Hd] Hf]]; [discriminate|]. right. split; [exact Hd|].
           rewrite List.Forall_forall in Hf |- *. intros t Ht.
           assert (t <> ec_Tag enc) by (intros ->; apply Hn, list_elem_of_In, Ht).
           specialize (Hf t (or_intror Ht)). set_solver.
Qed.

Lemma tagAliases_loop_err en seen done encs e :
  (forall t, t ∈ seen <-> In t (map ec_Tag done)) ->
  tagAliases_loop en seen encs = GoErr e ->
  isAllowAlias en = false /\
  exists pre enc post, encs = (pre ++ enc :: post)%list /\ In (ec_Tag enc) (map ec_Tag (done ++ pre)) /\
    e = reusing_msg enc.
Proof.
  revert seen done; induction encs as [|enc encs IH]; intros seen done Hseen; cbn; [discriminate|].
  destruct (bool_decide (ec_Tag enc ∈ seen) && negb (isAllowAlias en)) eqn:Eb.
  - intros [= <-]. apply andb_true_iff in Eb as [Es Ea]. apply bool_decide_eq_true in Es.
    apply negb_true_iff in Ea. split; [exact Ea|].
    exists [], enc, encs. rewrite app_nil_r. split; [reflexivity|split; [apply Hseen, Es|reflexivity]].
  - intros H. destruct (IH ({[ec_Tag enc]} ∪ seen) (done ++ [enc])%list) as (Ha & pre & x & post & -> & Hx & ->);
      [|exact H|].
    + intros t. rewrite map_app, in_app_iff, elem_of_union, elem_of_singleton, Hseen. cbn. intuition.
    + split; [exact Ha|]. exists (enc :: pre), x, post. split; [reflexivity|].
      rewrite <- app_assoc in Hx. split; [exact Hx|reflexivity].
Qed.

Lemma reused_tag_in en enc : reused_tag en enc -> In enc (en_EnumConstants en).
Proof. intros (_ & pre & post & -> & _). apply in_or_app. right. left. reflexivity. Qed.

Lemma reused_tag_not_ok en enc : reused_tag en enc -> ~ alias_ok en.
Proof.
  intros (Ha & pre & post & He & Hin) [H|H]; [congruence|].
  rewrite He, map_app in H. cbn in H. apply NoDup_ListNoDup, NoDup_remove_2 in H. apply H, in_or_app. left. exact Hin.
Qed.

Lemma alias_ok_loop en : tagAliases_loop en ∅ (en_EnumConstants en) = GoOk tt <-> alias_ok en.
Proof.
  unfold alias_ok. rewrite tagAliases_loop_ok. split; intros [H|H]; auto; right.
  - exact (proj1 H).
  - split; [exact H|]. apply List.Forall_forall. intros t _. set_solver.
Qed.

Lemma validateEnumConstantTagAliases_ok enums :
  validateEnumConstantTagAliases enums = GoOk tt <-> Forall alias_ok enums.
Proof.
  unfold validateEnumConstantTagAliases. rewrite go_forall_ok, List.Forall_forall.
  split; intros H en Hen; apply alias_ok_loop, H, Hen.
Qed.

Lemma validateEnumConstantTagAliases_err enums e :
  validateEnumConstantTagAliases enums = GoErr e ->
  exists en enc, In en enums /\ reused_tag en enc /\ e = reusing_msg enc.
Proof.
  unfold validateEnumConstantTagAliases. intros H.
  apply go_forall_err in H as (en & Hen & H).
  apply (tagAliases_loop_err _ _ []) in H as (Ha & pre & enc & post & Hl & Hin & ->);
    [|intros t; cbn; split; [set_solver|intros []]].
  exists en, enc. split; [exact Hen|]. split; [|reflexivity]. split; [exact Ha|]. exists pre, post. auto.
Qed.

Lemma validateInMessage_eq M :
  validateEnumConstantTagAliasesInMessage M =
  go_then (validateEnumConstantTagAliases (me_Enums M))
          (go_forall validateEnumConstantTagAliasesInMessage (me_Messages M)).
Proof.
  destruct M as [name qn doc opts fs ens nested oos exts xs rr rn]; cbn [validateEnumConstantTagAliasesInMessage me_Enums me_Messages].
  f_equal. induction nested as [|x l IH]; [reflexivity|]. cbn [go_forall]. rewrite <- IH. reflexivity.
Qed.

Lemma validateInMessage_ok M :
  validateEnumConstantTagAliasesInMessage M = GoOk tt <-> Forall alias_ok (flat_map me_Enums (msg_tree M)).
Proof.
  revert M. apply MessageElement_ind'. intros M IH. cbv beta. rewrite List.Forall_forall in IH.
  rewrite validateInMessage_eq, go_then_ok, validateEnumConstantTagAliases_ok, go_forall_ok, msg_tree_eq.
  cbn [flat_map]. rewrite List.Forall_app, !List.Forall_forall. split.
  - intros [H1 H2]. split; [exact H1|]. intros en Hen.
    apply in_flat_map in Hen as [N [HN Hen]]. apply in_flat_map in HN as [M0 [HM0 HN]].
    specialize (H2 M0 HM0). apply (IH M0 HM0) in H2. rewrite List.Forall_forall in H2.
    apply H2, in_flat_map. eauto.
  - intros [H1 H2]. split; [exact H1|]. intros M0 HM0. apply (IH M0 HM0), List.Forall_forall.
    intros en Hen. apply in_flat_map in Hen as [N [HN Hen]]. apply H2, in_flat_map.
    exists N. split; [apply in_flat_map; eauto|exact Hen].
Qed.

Lemma validateInMessage_err M e :
  validateEnumConstantTagAliasesInMessage M = GoErr e ->
  exists en enc, In en (flat_map me_Enums (msg_tree M)) /\ reused_tag en enc /\ e = reusing_msg enc.
Proof.
  induction M as [M IH] using MessageElement_ind'. rewrite List.Forall_forall in IH.
  rewrite validateInMessage_eq, msg_tree_eq. cbn [flat_map]. intros H.
  apply go_then_err in H as [H|[_ H]].
  - apply validateEnumConstantTagAliases_err in H as (en & enc & Hen & Henc & ->).
    exists en, enc. split; [apply in_or_app; left; exact Hen|auto].
  - apply go_forall_err in H as (M0 & HM0 & H). apply (IH M0 HM0) in H as (en & enc & Hen & Henc & ->).
    exists en, enc. split; [|auto]. apply in_or_app; right.
    apply in_flat_map in Hen as [N [HN Hen]]. apply in_flat_map. exists N. split; [apply in_flat_map; eauto|exact Hen].
Qed.

Lemma enumAliasPhase_ok pf : enumAliasPhase pf = GoOk tt <-> Forall alias_ok (all_enums pf).
Proof.
  unfold enumAliasPhase, all_enums, msg_forest.
  rewrite go_then_ok, validateEnumConstantTagAliases_ok, go_forall_ok, List.Forall_app.
  rewrite (List.Forall_forall _ (flat_map _ _)). split.
  - intros [H1 H2]. split; [exact H1|]. intros en Hen.
    apply in_flat_map in Hen as [N [HN Hen]]. apply in_flat_map in HN as [M [HM HN]].
    specialize (H2 M HM). apply validateInMessage_ok in H2. rewrite List.Forall_forall in H2.
    apply H2, in_flat_map. eauto.
  - intros [H1 H2]. split; [exact H1|]. intros M HM. apply validateInMessage_ok, List.Forall_forall.
    intros en Hen. apply in_flat_map in Hen as [N [HN Hen]]. apply H2, in_flat_map.
    exists N. split; [apply in_flat_map; eauto|exact Hen].
Qed.

Lemma enumAliasPhase_err pf e :
  enumAliasPhase pf = GoErr e ->
  exists en enc, In en (all_enums pf) /\ reused_tag en enc /\ e = reusing_msg enc.
Proof.
  unfold enumAliasPhase, all_enums, msg_forest. intros H.
  apply go_then_err in H as [H|[_ H]].
  - apply validateEnumConstantTagAliases_err in H as (en & enc & Hen & Henc & ->).
    exists en, enc. split; [apply in_or_app; left; exact Hen|auto].
  - apply go_forall_err in H as (M & HM & H). apply validateInMessage_err in H as (en & enc & Hen & Henc & ->).
    exists en, enc. split; [|auto]. apply in_or_app; right.
    apply in_flat_map in Hen as [N [HN Hen]]. apply in_flat_map. exists N. split; [apply in_flat_map; eauto|exact Hen].
Qed.

Lemma checkImportedPackageUsage_msg_spec pkg pkgs M :
  checkImportedPackageUsage_msg pkg pkgs M = true <->
  exists N f, In N (msg_tree M) /\ In f (me_Fields N) /\ field_refers pkgs pkg f.
Proof.
  revert M. apply MessageElement_ind'. intros M IH.
  destruct M as [name qn doc opts fs ens nested oos exts xs rr rn]; cbn in IH |- *.
  rewrite List.Forall_forall in IH.
  rewrite orb_true_iff, andb_true_iff, !existsb_exists. split.
  - intros [[f [Hf H]]|[Hne [N0 [HN0 H]]]].
    + apply andb_true_iff in H as [Hn H]. apply usesPackage_spec in H.
      eexists _, f. split; [left; reflexivity|]. split; [exact Hf|split; assumption].
    + apply (IH N0 HN0) in H as (N & f & HN & H). exists N, f. split; [right; apply in_flat_map; eauto|exact H].
  - intros (N & f & [<-|HN] & Hf & Hn & H).
    + left. exists f. split; [exact Hf|]. apply andb_true_iff. split; [exact Hn|apply usesPackage_spec, H].
    + apply in_flat_map in HN as [N0 [HN0 HN]]. right. split; [destruct nested; [contradiction|reflexivity]|].
      exists N0. split; [exact HN0|]. apply (IH N0 HN0). exists N, f. unfold field_refers in *. auto.
Qed.

Lemma inuse_spec pf pkgs pkg :
  (existsb (fun service => existsb (fun rpc =>
       usesPackage (ndt_name (rpc_RequestType rpc)) pkg pkgs
       || usesPackage (ndt_name (rpc_ResponseType rpc)) pkg pkgs) (svc_RPCs service)) (pf_Services pf)
   || checkImportedPackageUsage (pf_Messages pf) pkg pkgs) = true <->
  package_referenced pf pkgs pkg.
Proof.
  unfold package_referenced, checkImportedPackageUsage, msg_forest.
  rewrite orb_true_iff, !existsb_exists. split.
  - intros [[svc [Hs H]]|[M [HM H]]].
    + apply existsb_exists in H as [rpc [Hr H]]. apply orb_true_iff in H. right. exists svc, rpc.
      split; [exact Hs|split; [exact Hr|]]. destruct H as [H|H]; [left|right]; apply usesPackage_spec, H.
    + apply checkImportedPackageUsage_msg_spec in H as (N & f & HN & Hf & Hn & H). left. exists N, f.
      split; [apply in_flat_map; eauto|auto].
  - intros [(N & f & HN & Hf & Hn & H)|(svc & rpc & Hs & Hr & H)].
    + apply in_flat_map in HN as [M [HM HN]]. right. exists M. split; [exact HM|].
      apply checkImportedPackageUsage_msg_spec. exists N, f. unfold field_refers. auto.
    + left. exists svc. split; [exact Hs|]. apply existsb_exists. exists rpc. split; [exact Hr|].
      apply orb_true_iff. destruct H as [H|H]; [left|right]; apply usesPackage_spec, H.
Qed.

(** C4 (counterexample): the package dep is referenced by a field of a
    oneof of M, yet the file is rejected: the oneofs are not searched. *)
Lemma oneof_import_reported_unused :
  Parse 300 c4_main (Some c4_provider) = Err "Imported package: dep but not used".
Proof. vm_compute. reflexivity. Qed.

Lemma package_referenced_dec pf pkgs pkg : package_referenced pf pkgs pkg \/ ~ package_referenced pf pkgs pkg.
Proof. rewrite <- inuse_spec. destruct (_ || _); [left; reflexivity|right; discriminate]. Qed.

Lemma split_first_not {X} (P : X -> Prop) (dec : forall x, P x \/ ~ P x) xs x :
  In x xs -> ~ P x -> exists pre y post, xs = (pre ++ y :: post)%list /\ Forall P pre /\ ~ P y.
Proof.
  induction xs as [|z xs IH]; intros Hin Hx; [contradiction|]. destruct (dec z) as [Hz|Hz].
  - destruct Hin as [<-|Hin]; [contradiction|]. destruct (IH Hin Hx) as (pre & y & post & -> & F & Hy).
    exists (z :: pre), y, post. split; [reflexivity|split; [constructor; auto|exact Hy]].
  - exists [], z, xs. split; [reflexivity|split; [constructor|exact Hz]].
Qed.

Lemma imported_unused_first pf m pkgs pre pkg post :
  pkgs = (pre ++ pkg :: post)%list -> Forall (package_referenced pf pkgs) pre ->
  ~ package_referenced pf pkgs pkg ->
  verify_checks pf m pkgs = GoErr ("Imported package: " +:+ pkg +:+ " but not used").
Proof.
  intros Hl Hpre Hn.
  unfold verify_checks, checks_before_aliases.
  assert (E : areImportedPackagesUsed pf pkgs = GoErr ("Imported package: " +:+ pkg +:+ " but not used")).
  { unfold areImportedPackagesUsed.
    match goal with |- go_forall ?g pkgs = ?r =>
      enough (Hg : go_forall g (pre ++ pkg :: post)%list = r) by (rewrite <- Hl in Hg; exact Hg) end.
    apply go_forall_first.
    - intros y Hy. rewrite List.Forall_forall in Hpre. cbv zeta.
      pose proof (proj2 (inuse_spec pf pkgs y) (Hpre y Hy)) as Hu. rewrite Hu. reflexivity.
    - cbv zeta. destruct (_ || _) eqn:Ei; [|reflexivity]. exfalso. apply Hn, inuse_spec, Ei. }
  rewrite E. reflexivity.
Qed.

(** C4 (amended): the import check passes exactly when every imported
    package is referenced by a named-type field of a message body (at any
    depth; fields of oneofs and extends are not searched) or by an RPC
    request or response type.  The package names are visited in the order
    of the list [pkgs], which verify takes from the iteration of a Go map
    and which is therefore not fixed: whatever that order, verification
    fails with the error naming the first package of the list that is not
    referenced, and so, as soon as some imported package is not
    referenced, with the error naming one package that is not
    referenced. *)
Theorem imported_package_use pf m pkgs :
  (areImportedPackagesUsed pf pkgs = GoOk tt <-> Forall (package_referenced pf pkgs) pkgs) /\
  (forall pre pkg post, pkgs = (pre ++ pkg :: post)%list -> Forall (package_referenced pf pkgs) pre ->
     ~ package_referenced pf pkgs pkg ->
     verify_checks pf m pkgs = GoErr ("Imported package: " +:+ pkg +:+ " but not used")) /\
  (forall pkg, In pkg pkgs -> ~ package_referenced pf pkgs pkg ->
     exists pkg', In pkg' pkgs /\ ~ package_referenced pf pkgs pkg' /\
       verify_checks pf m pkgs = GoErr ("Imported package: " +:+ pkg' +:+ " but not used")).
Proof.
  split; [|split].
  - unfold areImportedPackagesUsed. rewrite go_forall_ok, List.Forall_forall.
    split; intros H x Hx; specialize (H x Hx); cbv zeta in *.
    + apply inuse_spec. destruct (_ || _); [reflexivity|discriminate].
    + apply inuse_spec in H. rewrite H. reflexivity.
  - intros pre pkg post. apply imported_unused_first.
  - intros pkg Hin Hn.
    destruct (split_first_not _ (package_referenced_dec pf pkgs) pkgs pkg Hin Hn) as (pre & y & post & Hl & F & Hy).
    exists y. split; [rewrite Hl; apply in_or_app; right; left; reflexivity|]. split; [exact Hy|].
    exact (imported_unused_first pf m pkgs pre y post Hl F Hy).
Qed.

Lemma imported_package_use_witness :
  verify_checks emptyProtoFile ∅ ["dep"] = GoErr ("Imported package: " +:+ "dep" +:+ " but not used") /\
  exists pkg', In pkg' ["dep"] /\ ~ package_referenced emptyProtoFile ["dep"] pkg' /\
    verify_checks emptyProtoFile ∅ ["dep"] = GoErr ("Imported package: " +:+ pkg' +:+ " but not used").
Proof.
  split.
  - apply (proj1 (proj2 (imported_package_use emptyProtoFile ∅ ["dep"])) [] "dep" []).
    + reflexivity.
    + constructor.
    + intros [(N & f & HN & _)|(s & r & Hs & _)]; cbn in *; contradiction.
  - apply (proj2 (proj2 (imported_package_use emptyProtoFile ∅ ["dep"])) "dep").
    + left. reflexivity.
    + intros [(N & f & HN & _)|(s & r & Hs & _)]; cbn in *; contradiction.
Defined.

(** C5 (counterexample): the two constants of E share the tag 0 and E has
    no allow_alias option, but the error reported is not the alias one:
    an earlier check rejects the duplicate constant name. *)
Lemma duplicate_tag_other_error :
  Parse 300 c5_content None = Err "Enum constant A is already defined in package p".
Proof. vm_compute. reflexivity. Qed.

(** C5 (amended): the alias step accepts exactly the files whose enums
    (top-level and nested at any depth) have allow_alias = true or no two
    constants with the same tag; when an enum breaks this, verification
    fails, either with the error of an earlier check or with the error
    "... is reusing an enum value ..." of a constant of an enum that breaks
    it: an enum without allow_alias, and a constant whose tag is the tag of
    an earlier constant of that enum. *)
Theorem enum_alias_check pf m pkgs :
  (enumAliasPhase pf = GoOk tt <-> Forall alias_ok (all_enums pf)) /\
  (forall en, In en (all_enums pf) -> ~ alias_ok en ->
     exists e, verify_checks pf m pkgs = GoErr e /\
       (checks_before_aliases pf m pkgs = GoErr e \/
        exists en' enc, In en' (all_enums pf) /\ In enc (en_EnumConstants en') /\
          ~ alias_ok en' /\ reused_tag en' enc /\ e = reusing_msg enc)).
Proof.
  split; [apply enumAliasPhase_ok|]. intros en Hen Hn.
  unfold verify_checks.
  destruct (goResult_unit_cases (checks_before_aliases pf m pkgs)) as [Hc|[e Hc]]; rewrite Hc; cbn.
  - destruct (goResult_unit_cases (enumAliasPhase pf)) as [Ha|[e Ha]].
    + exfalso. apply enumAliasPhase_ok in Ha. rewrite List.Forall_forall in Ha. exact (Hn (Ha en Hen)).
    + exists e. split; [exact Ha|right].
      apply enumAliasPhase_err in Ha as (en' & enc & Hen' & Hr & He).
      exists en', enc. split; [exact Hen'|]. split; [exact (reused_tag_in _ _ Hr)|].
      split; [exact (reused_tag_not_ok _ _ Hr)|]. split; [exact Hr|exact He].
  - exists e. split; [reflexivity|left; reflexivity].
Qed.

Lemma enum_alias_check_witness :
  exists e, verify_checks c5_pf ∅ [] = GoErr e /\
    (checks_before_aliases c5_pf ∅ [] = GoErr e \/
     exists en' enc, In en' (all_enums c5_pf) /\ In enc (en_EnumConstants en') /\
       ~ alias_ok en' /\ reused_tag en' enc /\ e = reusing_msg enc).
Proof.
  apply (proj2 (enum_alias_check c5_pf ∅ []) c5_enum).
  - left; reflexivity.
  - unfold alias_ok. intros [H|H]; [discriminate H|]. inversion H as [|? ? Hn _]. apply Hn. left; reflexivity.
Defined.

Lemma checkMsgName_msg_spec s M :
  checkMsgName_msg s M = true <-> exists N, In N (msg_tree M) /\ me_Name N = s.
Proof.
  revert M. apply MessageElement_ind'. intros M IH.
  destruct M as [name qn doc opts fs ens nested oos exts xs rr rn]; cbn in IH |- *.
  rewrite List.Forall_forall in IH.
  rewrite orb_true_iff, String.eqb_eq. split.
  - intros [->|H].
    + eexists; split; [left; reflexivity|reflexivity].
    + apply andb_true_iff in H as [_ H]. apply existsb_exists in H as [N0 [HN0 HN]].
      apply (IH N0 HN0) in HN as [N [HN HNs]]. exists N. split; [right; apply in_flat_map; eauto|exact HNs].
  - intros [N [[<-|HN] HNs]].
    + left; exact HNs.
    + right. apply in_flat_map in HN as [N0 [HN0 HN]]. apply andb_true_iff; split.
      * destruct nested; [contradiction|reflexivity].
      * apply existsb_exists. exists N0. split; [exact HN0|]. apply (IH N0 HN0). eauto.
Qed.

Lemma checkEnumName_msg_spec s M :
  checkEnumName_msg s M = true <->
  exists N en, In N (msg_tree M) /\ me_Messages N <> [] /\ In en (me_Enums N) /\ en_Name en = s.
Proof.
  revert M. apply MessageElement_ind'. intros M IH.
  destruct M as [name qn doc opts fs ens nested oos exts xs rr rn]; cbn in IH |- *.
  rewrite List.Forall_forall in IH.
  rewrite andb_true_iff, orb_true_iff. split.
  - intros [Hne [H|H]].
    + apply existsb_exists in H as [en [Hen Hs]]. apply String.eqb_eq in Hs.
      eexists _, en; split; [left; reflexivity|]. cbn. split; [destruct nested; [discriminate|congruence]|].
      split; assumption.
    + apply existsb_exists in H as [N0 [HN0 HN]].
      apply (IH N0 HN0) in HN as (N & en & HN & H). exists N, en. split; [right; apply in_flat_map; eauto|exact H].
  - intros (N & en & [<-|HN] & Hne & Hen & Hs).
    + cbn in Hne, Hen. split; [destruct nested; [congruence|reflexivity]|].
      left. apply existsb_exists. exists en. split; [exact Hen|apply String.eqb_eq, Hs].
    + apply in_flat_map in HN as [N0 [HN0 HN]]. split; [destruct nested; [contradiction|reflexivity]|].
      right. apply existsb_exists. exists N0. split; [exact HN0|]. apply (IH N0 HN0). eauto 7.
Qed.

Lemma checkMsgOrEnumName_spec s msgs enums :
  checkMsgOrEnumName s msgs enums = true <-> resolves_in s msgs enums.
Proof.
  unfold checkMsgOrEnumName, checkMsgName, checkEnumName, resolves_in, msg_forest.
  rewrite !orb_true_iff, !existsb_exists. split.
  - intros [[M [HM H]]|[[en [Hen H]]|[M [HM H]]]].
    + apply checkMsgName_msg_spec in H as [N [HN Hs]]. left. exists N. split; [apply in_flat_map; eauto|exact Hs].
    + right; left. exists en. split; [exact Hen|apply String.eqb_eq, H].
    + apply checkEnumName_msg_spec in H as (N & en & HN & H). right; right. exists N, en.
      split; [apply in_flat_map; eauto|exact H].
  - intros [[N [HN Hs]]|[[en [Hen Hs]]|(N & en & HN & H)]].
    + apply in_flat_map in HN as [M [HM HN]]. left. exists M. split; [exact HM|].
      apply checkMsgName_msg_spec. eauto.
    + right; left. exists en. split; [exact Hen|apply String.eqb_eq, Hs].
    + apply in_flat_map in HN as [M [HM HN]]. right; right. exists M. split; [exact HM|].
      apply checkEnumName_msg_spec. eauto.
Qed.


(** Dot-free type names: a type name without a dot is accepted exactly when it
    resolves among the messages nested in the enclosing message (at any
    depth) and its enums, or among the messages of the file (at any
    depth) and its top-level enums (an enum nested in a message counts
    when that message has nested messages); otherwise the error names the
    type and the field. *)
Theorem validateFieldDataTypes_dotless mainpkg f msgs enums m packageNames :
  ContainsRune (category f) "." = false ->
  (validateFieldDataTypes mainpkg f msgs enums m packageNames = GoOk tt <->
     resolves_in (category f) (me_Messages (fd_msg f)) (me_Enums (fd_msg f)) \/ resolves_in (category f) msgs enums) /\
  (validateFieldDataTypes mainpkg f msgs enums m packageNames <> GoOk tt ->
     validateFieldDataTypes mainpkg f msgs enums m packageNames =
       GoErr ("Datatype: '" +:+ category f +:+ "' referenced in field: '" +:+ fd_name f +:+ "' is not defined")).
Proof.
  intros Hc. unfold validateFieldDataTypes. rewrite Hc.
  rewrite <- !checkMsgOrEnumName_spec, <- orb_true_iff.
  destruct (_ || _).
  - split; [split; intros; reflexivity|intros H; exfalso; apply H; reflexivity].
  - split; [split; intros H; discriminate H|intros _; reflexivity].
Qed.

Lemma validateFieldDataTypes_dotless_witness :
  (validateFieldDataTypes "p" c7_fd [c7_A; c7_B] [] ∅ [] = GoOk tt <->
     resolves_in "Inner" (me_Messages c7_B) (me_Enums c7_B) \/ resolves_in "Inner" [c7_A; c7_B] []) /\
  (validateFieldDataTypes "p" c7_fd [c7_A; c7_B] [] ∅ [] <> GoOk tt ->
     validateFieldDataTypes "p" c7_fd [c7_A; c7_B] [] ∅ [] =
       GoErr ("Datatype: '" +:+ "Inner" +:+ "' referenced in field: '" +:+ "x" +:+ "' is not defined")).
Proof. apply (validateFieldDataTypes_dotless "p" c7_fd [c7_A; c7_B] [] ∅ []). reflexivity. Defined.

(* ------------------------------------------------------------------ *)
(** ** Further properties of the verifier and the parser *)

Lemma fold_union_enums (l : list EnumElement) (e0 : gset string) :
  fold_left (fun e en => {[en_QualifiedName en]} ∪ e) l e0 = list_to_set (map en_QualifiedName l) ∪ e0.
Proof.
  revert e0. induction l as [|x l IH]; intros e0; cbn; [set_solver|].
  rewrite IH. set_solver.
Qed.

Lemma gather_spec M a b :
  gatherNestedQNames M (a, b) =
    (list_to_set (map me_QualifiedName (flat_map msg_tree (me_Messages M))) ∪ a,
     list_to_set (map en_QualifiedName (flat_map me_Enums (msg_tree M))) ∪ b).
Proof.
  revert a b. induction M as [M IH] using MessageElement_ind'. intros a b.
  destruct M as [name qn doc opts fs ens nested oos exts xs rr rn].
  cbn [gatherNestedQNames me_Messages] in *.
  assert (Hf : forall a b, fold_left (fun acc nm => gatherNestedQNames nm ({[me_QualifiedName nm]} ∪ acc.1, acc.2)) nested (a, b) =
     (list_to_set (map me_QualifiedName (flat_map msg_tree nested)) ∪ a,
      list_to_set (map en_QualifiedName (flat_map me_Enums (flat_map msg_tree nested))) ∪ b)).
  { clear -IH. induction IH as [|x l Hx Hl IHl]; intros a b; cbn [fold_left flat_map]; [f_equal; set_solver|].
    cbn [fst snd]. rewrite Hx, IHl. rewrite msg_tree_eq. cbn [flat_map map].
    rewrite !flat_map_app, !map_app, !list_to_set_app_L. cbn [map list_to_set]. f_equal; set_solver. }
  rewrite Hf, fold_union_enums. rewrite msg_tree_eq. cbn [flat_map me_Enums me_Messages].
  rewrite map_app, list_to_set_app_L. f_equal. set_solver.
Qed.

(** makeQNameLookup collects the qualified names of all the messages of a file, nested ones included, and of all its enums, top-level and nested in messages. *)
Theorem makeQNameLookup_contents dpf :
  makeQNameLookup dpf =
    (list_to_set (map me_QualifiedName (msg_forest (pf_Messages dpf))),
     list_to_set (map en_QualifiedName (all_enums dpf))).
Proof.
  unfold makeQNameLookup, all_enums, msg_forest.
  assert (Hf : forall l a b, fold_left (fun acc msg => gatherNestedQNames msg ({[me_QualifiedName msg]} ∪ acc.1, acc.2)) l (a, b) =
     (list_to_set (map me_QualifiedName (flat_map msg_tree l)) ∪ a,
      list_to_set (map en_QualifiedName (flat_map me_Enums (flat_map msg_tree l))) ∪ b)).
  { induction l as [|x l IHl]; intros a b; cbn [fold_left flat_map]; [f_equal; set_solver|].
    cbn [fst snd]. rewrite gather_spec, IHl. rewrite (msg_tree_eq x). cbn [flat_map map].
    rewrite !flat_map_app, !map_app, !list_to_set_app_L. cbn [map list_to_set]. f_equal; set_solver. }
  rewrite Hf, fold_union_enums. rewrite map_app, list_to_set_app_L. f_equal; set_solver.
Qed.

(** findFieldsToValidate lists, message by message in depth-first order, the fields of named type of every message, nested ones included. *)
Theorem findFieldsToValidate_forest msgs :
  findFieldsToValidate msgs =
  flat_map (fun msg => map (fun f => mkFd (fe_Name f) (Name (fe_Type f)) msg)
                           (filter (fun f => is_named (fe_Type f)) (me_Fields msg)))
           (msg_forest msgs).
Proof.
  unfold findFieldsToValidate, msg_forest.
  induction msgs as [|M rest IHr]; [reflexivity|].
  cbn [flat_map]. rewrite IHr, flat_map_app. f_equal.
  clear. induction M as [M IH] using MessageElement_ind'.
  rewrite (msg_tree_eq M). cbn [flat_map].
  destruct M as [name qn doc opts fs ens nested oos exts xs rr rn]. cbn [findFieldsToValidate_msg me_Messages me_Fields] in *.
  f_equal. destruct nested as [|x l]; [reflexivity|]. cbn [has_elems].
  induction IH as [|y l' Hy Hl IHl]; [reflexivity|].
  cbn [flat_map]. rewrite Hy, IHl, flat_map_app. reflexivity.
Qed.

Lemma dup_names_none seen l :
  fst (dup_names seen l) = None <-> NoDup l /\ (forall x, x ∈ l -> x ∉ seen).
Proof.
  revert seen. induction l as [|y l IH]; intros seen; cbn [dup_names].
  - split; [intros _; split; [constructor|intros x Hx; inversion Hx]|reflexivity].
  - case_decide as Hy.
    + split; [discriminate|]. intros [_ H]. exfalso. apply (H y); [left|exact Hy].
    + rewrite IH. rewrite NoDup_cons. split.
      * intros [Hn Hs]. split; [split; [intros Hin; apply (Hs y Hin); set_solver|exact Hn]|].
        intros x Hx. apply elem_of_cons in Hx. destruct Hx as [->|Hx]; [exact Hy|]. specialize (Hs x Hx). set_solver.
      * intros [[Hyl Hn] Hs]. split; [exact Hn|]. intros x Hx Hx'. apply elem_of_union in Hx'.
        destruct Hx' as [Hx'|Hx'].
        -- apply elem_of_singleton in Hx'. subst. contradiction.
        -- apply (Hs x); [right; exact Hx|exact Hx'].
Qed.

Lemma dup_names_seen seen l :
  fst (dup_names seen l) = None -> snd (dup_names seen l) = list_to_set l ∪ seen.
Proof.
  revert seen. induction l as [|y l IH]; intros seen; cbn [dup_names].
  - intros _. cbn. set_solver.
  - case_decide; [discriminate|]. intros Hd. rewrite (IH _ Hd). cbn. set_solver.
Qed.

Lemma dup_names_some seen l x :
  fst (dup_names seen l) = Some x ->
  exists pre post, l = (pre ++ x :: post)%list /\ (x ∈ seen \/ In x pre) /\ NoDup pre /\ (forall y, y ∈ pre -> y ∉ seen).
Proof.
  revert seen. induction l as [|y l IH]; intros seen; cbn [dup_names]; [discriminate|].
  case_decide as Hy.
  - intros [= <-]. exists [], l. split; [reflexivity|]. split; [left; exact Hy|]. split; [constructor|]. intros z Hz; inversion Hz.
  - intros H. destruct (IH _ H) as (pre & post & -> & Hx & Hn & Hs).
    exists (y :: pre), post. split; [reflexivity|]. split.
    + destruct Hx as [Hx|Hx]; [|right; right; exact Hx].
      apply elem_of_union in Hx. destruct Hx as [Hx|Hx]; [apply elem_of_singleton in Hx; subst; right; left; reflexivity|].
      left; exact Hx.
    + split.
      * constructor; [|exact Hn]. intros Hin. apply (Hs y); [exact Hin|set_solver].
      * intros z Hz. apply elem_of_cons in Hz. destruct Hz as [->|Hz]; [exact Hy|]. specialize (Hs z Hz). set_solver.
Qed.

Lemma uniqueNamesAtLevel_ok c enums msgs :
  uniqueNamesAtLevel c enums msgs = GoOk tt <-> NoDup (map en_Name enums ++ map me_Name msgs).
Proof.
  unfold uniqueNamesAtLevel. rewrite NoDup_app.
  destruct (dup_names ∅ (map en_Name enums)) as [d1 seen] eqn:E1.
  pose proof (dup_names_none ∅ (map en_Name enums)) as H1. rewrite E1 in H1. cbn [fst] in H1.
  destruct d1 as [x|].
  - split; [discriminate|]. intros [Hn [_ _]]. exfalso. assert (Some x = None) by (apply H1; split; [exact Hn|set_solver]). discriminate.
  - pose proof (dup_names_seen ∅ (map en_Name enums)) as Hs. rewrite E1 in Hs. cbn [fst snd] in Hs.
    specialize (Hs eq_refl). subst seen.
    pose proof (dup_names_none (list_to_set (map en_Name enums) ∪ ∅) (map me_Name msgs)) as H2.
    destruct (fst (dup_names _ (map me_Name msgs))) as [y|].
    + split; [discriminate|]. intros [Hn1 [Hd Hn2]]. exfalso. assert (Some y = None) as HH; [|discriminate HH].
      apply H2. split; [exact Hn2|]. intros z Hz Hz'. apply elem_of_union in Hz'. destruct Hz' as [Hz'|Hz']; [|set_solver].
      apply elem_of_list_to_set in Hz'. exact (Hd z Hz' Hz).
    + split; [intros _|reflexivity]. destruct (proj1 H2 eq_refl) as [Hn2 Hd]. split; [apply H1; reflexivity|]. split; [|exact Hn2].
      intros z Hz1 Hz2. apply (Hd z Hz2). apply elem_of_union_l. apply elem_of_list_to_set. exact Hz1.
Qed.

Lemma validateUniqueInMessage_ok M :
  validateUniqueInMessage M = GoOk tt <-> Forall level_unique (msg_tree M).
Proof.
  induction M as [M IH] using MessageElement_ind'.
  rewrite (msg_tree_eq M), List.Forall_cons_iff.
  destruct M as [name qn doc opts fs ens nested oos exts xs rr rn]. cbn [validateUniqueInMessage me_Messages] in *.
  rewrite go_then_ok, uniqueNamesAtLevel_ok, go_forall_ok. unfold level_unique at 1. cbn [me_Enums me_Messages].
  rewrite List.Forall_forall in IH. rewrite List.Forall_forall.
  split.
  - intros [H1 H2]. split; [exact H1|]. intros N HN. apply in_flat_map in HN. destruct HN as (K & HK & HN).
    exact (proj1 (List.Forall_forall _ _) (proj1 (IH K HK) (H2 K HK)) N HN).
  - intros [H1 H2]. split; [exact H1|]. intros K HK. apply (IH K HK). apply List.Forall_forall.
    intros N HN. apply H2. apply in_flat_map. exists K. split; assumption.
Qed.

(** validateUniqueMessageEnumNames succeeds exactly when the enum and message names are distinct at the top level and at the level of each message, nested ones included. *)
Theorem validateUniqueMessageEnumNames_spec ctxName enums msgs :
  validateUniqueMessageEnumNames ctxName enums msgs = GoOk tt <->
  NoDup (map en_Name enums ++ map me_Name msgs) /\ Forall level_unique (msg_forest msgs).
Proof.
  unfold validateUniqueMessageEnumNames. rewrite go_then_ok, uniqueNamesAtLevel_ok, go_forall_ok.
  unfold msg_forest. rewrite !List.Forall_forall. split.
  - intros [H1 H2]. split; [exact H1|]. intros N HN. apply in_flat_map in HN. destruct HN as (K & HK & HN).
    exact (proj1 (List.Forall_forall _ _) (proj1 (validateUniqueInMessage_ok K) (H2 K HK)) N HN).
  - intros [H1 H2]. split; [exact H1|]. intros K HK. apply validateUniqueInMessage_ok. apply List.Forall_forall.
    intros N HN. apply H2. apply in_flat_map. exists K. split; assumption.
Qed.

Lemma validateEnumConstants_ok ctxName enums :
  validateEnumConstants ctxName enums = GoOk tt <-> NoDup (enum_constant_names enums).
Proof.
  unfold validateEnumConstants, enum_constant_names.
  pose proof (dup_names_none ∅ (map ec_Name (concat (map en_EnumConstants enums)))) as H1.
  destruct (fst (dup_names _ _)) as [x|].
  - split; [discriminate|]. intros Hn. assert (Some x = None) as HH; [|discriminate HH]. apply H1. split; [exact Hn|set_solver].
  - split; [intros _; apply H1; reflexivity|reflexivity].
Qed.

(** validateEnumConstants succeeds exactly when the constant names of the enums are distinct; otherwise it names the first repeated constant. *)
Theorem validateEnumConstants_spec ctxName enums :
  (validateEnumConstants ctxName enums = GoOk tt <-> NoDup (enum_constant_names enums)) /\
  (forall e, validateEnumConstants ctxName enums = GoErr e ->
     exists pre x post, enum_constant_names enums = (pre ++ x :: post)%list /\ In x pre /\ NoDup pre /\
       e = "Enum constant " +:+ x +:+ " is already defined in " +:+ ctxName).
Proof.
  unfold validateEnumConstants, enum_constant_names.
  pose proof (dup_names_none ∅ (map ec_Name (concat (map en_EnumConstants enums)))) as H1.
  pose proof (dup_names_some ∅ (map ec_Name (concat (map en_EnumConstants enums)))) as H2.
  destruct (fst (dup_names _ _)) as [x|].
  - split.
    + split; [discriminate|]. intros Hn. assert (Some x = None) as HH; [|discriminate HH]. apply H1. split; [exact Hn|set_solver].
    + intros e [= <-]. destruct (H2 x eq_refl) as (pre & post & Hl & Hx & Hn & _).
      exists pre, x, post. split; [exact Hl|]. split; [destruct Hx as [Hx|Hx]; [set_solver|exact Hx]|]. split; [exact Hn|reflexivity].
  - split; [split; [intros _; apply H1; reflexivity|reflexivity]|]. intros e He; discriminate He.
Qed.

Lemma validateEnumConstantsInMessage_eq M :
  validateEnumConstantsInMessage M =
  go_then (validateEnumConstants ("message " +:+ me_Name M) (me_Enums M))
          (go_forall validateEnumConstantsInMessage (me_Messages M)).
Proof.
  destruct M as [name qn doc opts fs ens nested oos exts xs rr rn]; cbn [validateEnumConstantsInMessage me_Enums me_Messages me_Name].
  f_equal. induction nested as [|x l IH]; [reflexivity|]. cbn [go_forall]. rewrite <- IH. reflexivity.
Qed.

(** The per-message loop of validateEnumConstantsInMessage succeeds exactly when, in every message (nested ones included), the constants of its enums have distinct names. *)
Theorem enum_constants_unique_in_messages msgs :
  go_forall validateEnumConstantsInMessage msgs = GoOk tt <->
  Forall (fun M => NoDup (enum_constant_names (me_Enums M))) (msg_forest msgs).
Proof.
  unfold msg_forest. induction msgs as [|M rest IHr].
  - cbn. split; [constructor|reflexivity].
  - cbn [go_forall flat_map]. rewrite go_then_ok, IHr, List.Forall_app. apply and_iff_compat_r.
    clear. induction M as [M IH] using MessageElement_ind'.
    rewrite validateEnumConstantsInMessage_eq, go_then_ok, validateEnumConstants_ok, (msg_tree_eq M), List.Forall_cons_iff.
    apply and_iff_compat_l. induction IH as [|K l HK Hl IHl]; cbn [go_forall flat_map].
    + split; [constructor|reflexivity].
    + rewrite go_then_ok, HK, IHl, List.Forall_app. reflexivity.
Qed.

(** getDependencyPackageNames lists each key of the oracle map other than the main package exactly once. *)
Theorem getDependencyPackageNames_spec mainPkgName m :
  NoDup (getDependencyPackageNames mainPkgName m) /\
  (forall k, In k (getDependencyPackageNames mainPkgName m) <-> is_Some (m !! k) /\ k <> mainPkgName).
Proof.
  unfold getDependencyPackageNames. split.
  - apply NoDup_filter. apply NoDup_fst_map_to_list.
  - intros k. rewrite <- list_elem_of_In, list_elem_of_filter, list_elem_of_In, in_map_iff.
    split.
    + intros [Hk (kv & <- & Hin)]. destruct kv as [k v]. cbn in *. split.
      * exists v. apply elem_of_map_to_list. apply list_elem_of_In. exact Hin.
      * intros ->. rewrite String.eqb_refl in Hk. exact Hk.
    + intros [[v Hv] Hne]. split.
      * apply String.eqb_neq in Hne. rewrite Hne. exact I.
      * exists (k, v). split; [reflexivity|]. apply list_elem_of_In. apply elem_of_map_to_list. exact Hv.
Qed.

Lemma add_oracle_other m dpf k : k <> PackageName dpf -> add_oracle m dpf !! k = m !! k.
Proof.
  intros Hk. unfold add_oracle. destruct (makeQNameLookup dpf) as [mm em]. unfold oracleMap in *.
  destruct (m !! PackageName dpf); apply lookup_insert_ne; congruence.
Qed.

Lemma add_oracle_grows m dpf k :
  (is_Some (m !! k) -> is_Some (add_oracle m dpf !! k)) /\
  msgmap (oracle_at m k) ⊆ msgmap (oracle_at (add_oracle m dpf) k) /\
  enummap (oracle_at m k) ⊆ enummap (oracle_at (add_oracle m dpf) k).
Proof.
  destruct (decide (k = PackageName dpf)) as [->|Hk].
  - unfold add_oracle, oracle_at. destruct (makeQNameLookup dpf) as [mm em]. unfold oracleMap in *.
    destruct (m !! PackageName dpf) as [o|] eqn:Ho; rewrite lookup_insert_eq; cbn.
    + split; [intros _; eexists; reflexivity|]. split; set_solver.
    + split; [intros _; eexists; reflexivity|]. split; set_solver.
  - unfold oracle_at. rewrite (add_oracle_other m dpf k Hk). split; [tauto|]. split; reflexivity.
Qed.

Lemma add_oracle_own m dpf :
  is_Some (add_oracle m dpf !! PackageName dpf) /\
  (makeQNameLookup dpf).1 ⊆ msgmap (oracle_at (add_oracle m dpf) (PackageName dpf)) /\
  (makeQNameLookup dpf).2 ⊆ enummap (oracle_at (add_oracle m dpf) (PackageName dpf)).
Proof.
  unfold add_oracle, oracle_at. destruct (makeQNameLookup dpf) as [mm em]. unfold oracleMap in *.
  destruct (m !! PackageName dpf); rewrite lookup_insert_eq; cbn; (split; [eexists; reflexivity|]); split; set_solver.
Qed.

(** A successful parseDependencies keeps the packages of the map and their names, and every dependency was provided, parsed, had a syntax, and has its names in the oracle of its package. *)
Theorem parseDependencies_ok n impr deps m m' :
  parseDependencies n impr deps m = Ok m' ->
  (forall k, is_Some (m !! k) -> is_Some (m' !! k)) /\
  (forall k, msgmap (oracle_at m k) ⊆ msgmap (oracle_at m' k) /\ enummap (oracle_at m k) ⊆ enummap (oracle_at m' k)) /\
  (forall d, In d deps -> exists content dpf, impr d = Provided content /\ parse n content = Ok dpf /\
     Syntax dpf <> "" /\ is_Some (m' !! PackageName dpf) /\
     (makeQNameLookup dpf).1 ⊆ msgmap (oracle_at m' (PackageName dpf)) /\
     (makeQNameLookup dpf).2 ⊆ enummap (oracle_at m' (PackageName dpf))).
Proof.
  revert m. induction deps as [|d rest IH]; intros m; cbn [parseDependencies].
  - intros [= <-]. split; [tauto|]. split; [intros k; split; reflexivity|]. intros d [].
  - destruct (impr d) as [content|e|] eqn:Hd; try discriminate.
    destruct (parse n content) as [dpf|e|e|] eqn:Hp; try discriminate.
    unfold validateSyntax. destruct (String.eqb (Syntax dpf) "") eqn:Hs; [discriminate|].
    intros H. destruct (IH _ H) as (H1 & H2 & H3).
    split; [|split].
    + intros k Hk. apply H1. apply (proj1 (add_oracle_grows m dpf k)). exact Hk.
    + intros k. destruct (add_oracle_grows m dpf k) as (_ & Ha & Hb). destruct (H2 k) as [Hc Hd'].
      split; etransitivity; eassumption.
    + intros d' [<-|Hin]; [|exact (H3 d' Hin)].
      exists content, dpf. split; [exact Hd|]. split; [exact Hp|]. split; [apply String.eqb_neq; exact Hs|].
      destruct (add_oracle_own m dpf) as (Ho1 & Ho2 & Ho3). destruct (H2 (PackageName dpf)) as [Hm He].
      split; [apply H1; exact Ho1|]. split; etransitivity; eassumption.
Qed.

Lemma parseDependencies_ok_witness :
  exists m', parseDependencies 300 c4_provider ["dep.proto"] ∅ = Ok m' /\
  (forall k, is_Some ((∅ : oracleMap) !! k) -> is_Some (m' !! k)) /\
  (forall k, msgmap (oracle_at ∅ k) ⊆ msgmap (oracle_at m' k) /\ enummap (oracle_at ∅ k) ⊆ enummap (oracle_at m' k)) /\
  (forall d, In d ["dep.proto"] -> exists content dpf, c4_provider d = Provided content /\ parse 300 content = Ok dpf /\
     Syntax dpf <> "" /\ is_Some (m' !! PackageName dpf) /\
     (makeQNameLookup dpf).1 ⊆ msgmap (oracle_at m' (PackageName dpf)) /\
     (makeQNameLookup dpf).2 ⊆ enummap (oracle_at m' (PackageName dpf))).
Proof.
  destruct (parseDependencies 300 c4_provider ["dep.proto"] ∅) as [m'|e|e|] eqn:E;
    [|vm_compute in E; discriminate E..].
  exists m'. split; [reflexivity|]. exact (parseDependencies_ok 300 c4_provider ["dep.proto"] ∅ m' E).
Defined.

(** verify first rejects a file without syntax, and then a file with imports when no import provider is given. *)
Theorem verify_syntax_and_provider n impr pf :
  (Syntax pf = "" -> verify n impr pf = Err "No syntax specified in the proto file") /\
  (Syntax pf <> "" -> (Dependencies pf <> [] \/ PublicDependencies pf <> []) ->
     verify n None pf = Err "ImportModuleProvider is required to validate imports").
Proof.
  split.
  - intros Hs. unfold verify, validateSyntax. rewrite Hs. reflexivity.
  - intros Hs Hd. unfold verify, validateSyntax. apply String.eqb_neq in Hs. rewrite Hs.
    destruct Hd as [Hd|Hd].
    + destruct (Dependencies pf); [contradiction|reflexivity].
    + destruct (Dependencies pf), (PublicDependencies pf); (contradiction || reflexivity).
Qed.

(** For a file without imports, verify succeeds exactly when the file has a syntax and its checks pass against the oracle of its own package alone; the result is the file itself. *)
Theorem verify_without_imports n impr pf pf' :
  Dependencies pf = [] -> PublicDependencies pf = [] ->
  verify n impr pf = Ok pf' <->
  pf' = pf /\ Syntax pf <> "" /\
  verify_checks pf {[PackageName pf := mkOracle pf (makeQNameLookup pf).1 (makeQNameLookup pf).2]} [] = GoOk tt.
Proof.
  intros Hd Hp. unfold verify, validateSyntax. rewrite Hd, Hp. cbn [parseDependencies has_elems orb andb].
  destruct (String.eqb (Syntax pf) "") eqn:Hs.
  - apply String.eqb_eq in Hs. split; [discriminate|]. intros (_ & H & _). contradiction.
  - apply String.eqb_neq in Hs. destruct (makeQNameLookup pf) as [mm em]. cbn [fst snd].
    unfold oracleMap in *. rewrite lookup_empty. rewrite insert_empty.
    unfold getDependencyPackageNames at 1. unfold oracleMap in *. rewrite map_to_list_singleton. cbn [map fst].
    rewrite filter_cons_False by (rewrite String.eqb_refl; cbn; tauto). cbn [filter list_filter].
    destruct (verify_checks _ _ _) as [[]|e].
    + split; [intros [= <-]; tauto|intros (-> & _); reflexivity].
    + split; [discriminate|intros (_ & _ & H); discriminate H].
Qed.

Lemma verify_without_imports_witness :
  verify 300 None c5_pf = Ok c5_pf <->
  c5_pf = c5_pf /\ Syntax c5_pf <> "" /\
  verify_checks c5_pf {[PackageName c5_pf := mkOracle c5_pf (makeQNameLookup c5_pf).1 (makeQNameLookup c5_pf).2]} [] = GoOk tt.
Proof. apply (verify_without_imports 300 None c5_pf c5_pf); reflexivity. Defined.

(** An RPC type name without a dot is accepted exactly when a message of the file, nested ones included, has that name; otherwise the error names the type, the RPC and the service. *)
Theorem validateRPCDataType_dotless mainpkg service rpc dt msgs m packageNames :
  ContainsRune (ndt_name dt) "." = false ->
  (validateRPCDataType mainpkg service rpc dt msgs m packageNames = GoOk tt <->
     exists M, In M (msg_forest msgs) /\ me_Name M = ndt_name dt) /\
  (validateRPCDataType mainpkg service rpc dt msgs m packageNames <> GoOk tt ->
     validateRPCDataType mainpkg service rpc dt msgs m packageNames =
       GoErr ("Datatype: '" +:+ ndt_name dt +:+ "' referenced in RPC: '" +:+ rpc +:+ "' of Service: '" +:+ service
              +:+ "' is not defined OR is not a message type")).
Proof.
  intros Hc. unfold validateRPCDataType. rewrite Hc.
  assert (Hm : checkMsgName (ndt_name dt) msgs = true <-> exists M, In M (msg_forest msgs) /\ me_Name M = ndt_name dt).
  { unfold checkMsgName, msg_forest. rewrite existsb_exists. split.
    - intros (K & HK & H). apply checkMsgName_msg_spec in H. destruct H as (N & HN & HNm).
      exists N. split; [apply in_flat_map; exists K; split; assumption|exact HNm].
    - intros (N & HN & HNm). apply in_flat_map in HN. destruct HN as (K & HK & HN).
      exists K. split; [exact HK|]. apply checkMsgName_msg_spec. exists N. split; assumption. }
  rewrite <- Hm. destruct (checkMsgName _ _).
  - split; [split; intros; reflexivity|intros H; exfalso; apply H; reflexivity].
  - split; [split; intros H; discriminate H|intros _; reflexivity].
Qed.

Lemma validateRPCDataType_dotless_witness :
  (validateRPCDataType "p" "S" "Get" (mkNamed false "M") [c10_msg] ∅ [] = GoOk tt <->
     exists M, In M (msg_forest [c10_msg]) /\ me_Name M = "M") /\
  (validateRPCDataType "p" "S" "Get" (mkNamed false "M") [c10_msg] ∅ [] <> GoOk tt ->
     validateRPCDataType "p" "S" "Get" (mkNamed false "M") [c10_msg] ∅ [] =
       GoErr ("Datatype: '" +:+ "M" +:+ "' referenced in RPC: '" +:+ "Get" +:+ "' of Service: '" +:+ "S"
              +:+ "' is not defined OR is not a message type")).
Proof. apply (validateRPCDataType_dotless "p" "S" "Get" (mkNamed false "M") [c10_msg] ∅ []). reflexivity. Defined.

Ltac stp E := repeat rewrite pm_bind_assoc; rewrite (pm_bind_ok _ _ _ _ _ E); cbv beta.

Lemma read_spec c r st :
  input st = String c r ->
  exists st', read st = (Ok c, st') /\ input st' = r /\ pf st' = pf st /\ lastRune st' = Some c.
Proof.
  intros Hin. destruct st as [inp lr ln col lcr eofr pfx p]; cbn in Hin; subst inp.
  unfold read; cbn. destruct (char_eqb c nl); eexists; (split; [reflexivity|split; [reflexivity|split; reflexivity]]).
Qed.

Lemma unread_spec c st :
  lastRune st = Some c ->
  exists st', unread st = (Ok tt, st') /\ input st' = String c (input st) /\ pf st' = pf st.
Proof.
  intros Hl. destruct st as [inp lr ln col lcr eofr pfx p]; cbn in Hl; subst lr.
  unfold unread; cbn. eexists; (split; [reflexivity|split; reflexivity]).
Qed.

Lemma skipWhitespace_stop n d r st :
  (1 <= n)%nat -> input st = String d r -> isWhitespace d = false -> char_eqb d eof = false ->
  exists st', skipWhitespace n st = (Ok tt, st') /\ input st' = String d r /\ pf st' = pf st.
Proof.
  intros Hn Hin Hw He. destruct n as [|n]; [lia|].
  destruct st as [inp lr ln col lcr eofr pfx p]; cbn in Hin; subst inp.
  cbn [skipWhitespace]. unfold mbind, PM_bind, pm_bind. cbn -[isWhitespace].
  destruct (char_eqb d nl); cbn -[isWhitespace]; rewrite He, Hw; cbn; eexists; (split; [reflexivity|split; reflexivity]).
Qed.

Lemma readWordAdvanced_loop_spec n f buf w c rest st :
  Forall (fun x => isValidCharInWord x f = true) (list_ascii_of_string w) ->
  input st = w +:+ String c rest -> isValidCharInWord c f = false -> (String.length w < n)%nat ->
  exists st', readWordAdvanced_loop n f buf st = (Ok (buf +:+ w), st') /\
    input st' = String c rest /\ pf st' = pf st.
Proof.
  revert n buf st. induction w as [|x w IH]; intros n buf st Hw Hin Hc Hn;
    destruct n as [|n]; cbn in Hn; try lia.
  - rewrite sapp_nil_l in Hin. destruct st as [inp lr ln col lcr eofr pfx p]; cbn in Hin; subst inp.
    cbn [readWordAdvanced_loop]. unfold mbind, PM_bind, pm_bind. cbn -[isValidCharInWord].
    destruct (char_eqb c nl); cbn -[isValidCharInWord]; rewrite Hc; cbn; eexists;
      rewrite sapp_nil_r; (split; [reflexivity|split; reflexivity]).
  - rewrite sapp_cons in Hin. cbn in Hw. inversion Hw as [|? ? Hx Hw']; subst.
    destruct st as [inp lr ln col lcr eofr pfx p]; cbn in Hin; subst inp.
    cbn [readWordAdvanced_loop]. unfold mbind, PM_bind, pm_bind. cbn -[isValidCharInWord readWordAdvanced_loop].
    destruct (char_eqb x nl); cbn -[isValidCharInWord readWordAdvanced_loop]; rewrite Hx;
    (match goal with |- context [readWordAdvanced_loop n f ?b ?s0] =>
       destruct (IH n b s0 Hw' eq_refl Hc ltac:(lia)) as (st' & E & Hi & Hp) end);
    exists st'; rewrite E; (split; [rewrite <- sapp_assoc; reflexivity|split; [exact Hi|exact Hp]]).
Qed.

Lemma readQuotedString_spec n f w rest st :
  Forall (fun x => isValidCharInWord x f = true) (list_ascii_of_string w) -> isValidCharInWord dq f = false ->
  input st = quoted w +:+ rest -> (String.length w < n)%nat ->
  exists st', readQuotedString n f st = (Ok w, st') /\ input st' = rest /\ pf st' = pf st.
Proof.
  intros Hw Hq Hin Hn. unfold readQuotedString.
  destruct (read_spec dq (w +:+ String dq rest) st) as (st1 & E1 & Hi1 & Hp1 & _).
  { rewrite Hin. unfold quoted. rewrite <- !sapp_assoc. reflexivity. }
  stp E1. replace (char_eqb dq dq) with true by reflexivity; cbn [negb].
  unfold readWordAdvanced.
  destruct (readWordAdvanced_loop_spec n f "" w dq rest st1 Hw Hi1 Hq Hn) as (st2 & E2 & Hi2 & Hp2).
  stp E2. rewrite sapp_nil_l.
  destruct (read_spec dq rest st2 Hi2) as (st3 & E3 & Hi3 & Hp3 & _).
  stp E3. replace (char_eqb dq dq) with true by reflexivity; cbn [negb].
  exists st3. split; [reflexivity|split; [exact Hi3|congruence]].
Qed.

Lemma char_eqb_refl c : char_eqb c c = true.
Proof. apply Ascii.eqb_refl. Qed.

Lemma read_string_until_spec d v rest :
  ~ In d (list_ascii_of_string v) ->
  read_string_until d (v +:+ String d rest) = (v +:+ str1 d, rest, false).
Proof.
  induction v as [|x v IH]; intros Hv.
  - rewrite !sapp_nil_l. cbn [read_string_until]. rewrite char_eqb_refl. reflexivity.
  - rewrite !sapp_cons. cbn [read_string_until]. cbn in Hv.
    unfold char_eqb at 1. rewrite (proj2 (Ascii.eqb_neq x d)) by (intros ->; apply Hv; left; reflexivity).
    rewrite IH by (intros H; apply Hv; right; exact H). reflexivity.
Qed.

Lemma trimSuffixChar_spec d v : trimSuffixChar (v +:+ str1 d) d = v.
Proof.
  induction v as [|x v IH].
  - rewrite sapp_nil_l. unfold str1. cbn [trimSuffixChar]. rewrite char_eqb_refl. reflexivity.
  - rewrite sapp_cons. destruct v as [|y v'].
    + rewrite sapp_nil_l. unfold str1. cbn [trimSuffixChar]. rewrite char_eqb_refl. reflexivity.
    + rewrite sapp_cons in *.
      change (trimSuffixChar (String x (String y (v' +:+ str1 d))) d)
        with (String x (trimSuffixChar (String y (v' +:+ str1 d)) d)).
      rewrite IH. reflexivity.
Qed.

Lemma readUntil_spec d v rest st :
  ~ In d (list_ascii_of_string v) -> input st = v +:+ String d rest ->
  exists st', readUntil d st = (Ok v, st') /\ input st' = rest /\ pf st' = pf st /\ lastRune st' = None.
Proof.
  intros Hv Hin. unfold readUntil. rewrite Hin, read_string_until_spec by exact Hv.
  rewrite trimSuffixChar_spec. eexists. split; [reflexivity|]. cbn. split; [reflexivity|split; reflexivity].
Qed.

Ltac not_in := let H := fresh in intro H; vm_compute in H; repeat (destruct H as [H|H]; [discriminate H|]); exact H.

Ltac ceq := repeat match goal with
  | |- context [char_eqb ?a ?b] =>
      let v := eval vm_compute in (char_eqb a b) in
      lazymatch v with
      | true => change (char_eqb a b) with true
      | false => change (char_eqb a b) with false
      end
  end; cbn [negb andb orb].

Lemma pm_bind_ret {A B} (a : A) (k : A -> PM B) st : (mret a ≫= k) st = k a st.
Proof. reflexivity. Qed.

Lemma word_char_facts c : isValidCharInWord c None = true ->
  isWhitespace c = false /\ char_eqb c eof = false /\ char_eqb c "(" = false /\
  char_eqb c "[" = false /\ char_eqb c dq = false.
Proof.
  destruct c as [[] [] [] [] [] [] [] []]; vm_compute; first [discriminate | intros _; repeat split].
Qed.

(** readOption rejects a parenthesized option name: readName leaves the closing parenthesis in the input, and readOption then expects '='. *)
Theorem readOption_parenthesized_name n doc ctx w rest st :
  Forall (fun x => isValidCharInWord x None = true) (list_ascii_of_string w) ->
  (String.length w < n)%nat ->
  input st = "(" +:+ w +:+ ")" +:+ rest ->
  exists e st', readOption n doc ctx st = (Err ("Expected '=', but found: ')'" +:+ e), st').
Proof.
  intros Hw Hn Hin. unfold readOption.
  destruct (skipWhitespace_stop n "(" (w +:+ ")" +:+ rest) st) as (st1 & E1 & Hi1 & _);
    [lia|exact Hin|reflexivity|reflexivity|].
  stp E1. unfold readName.
  destruct (read_spec "(" (w +:+ ")" +:+ rest) st1 Hi1) as (st2 & E2 & Hi2 & _).
  stp E2. ceq.
  destruct (readWord_spec n w ")" rest st2 Hw Hi2 eq_refl Hn) as (st3 & E3 & Hi3 & _).
  stp E3.
  destruct (read_spec ")" rest st3 Hi3) as (st4 & E4 & Hi4 & _ & Hl4).
  stp E4. ceq.
  destruct (unread_spec ")" st4 Hl4) as (st5 & E5 & Hi5 & _).
  stp E5. rewrite Hi4 in Hi5. rewrite pm_bind_ret. cbv beta iota.
  destruct (skipWhitespace_stop n ")" rest st5) as (st6 & E6 & Hi6 & _); [lia|exact Hi5|reflexivity|reflexivity|].
  stp E6.
  destruct (read_spec ")" rest st6 Hi6) as (st7 & E7 & _).
  stp E7. ceq. unfold throw, errcol. do 2 eexists.
  change (QuoteRune "=") with "'='". change (QuoteRune ")") with "')'".
  f_equal; f_equal; rewrite <- ?sapp_assoc; reflexivity.
Qed.

Lemma readOption_parenthesized_name_witness :
  exists e st', readOption 10 "" (mkCtx NoObj fileCtx) (initState "(foo) = true;") =
    (Err ("Expected '=', but found: ')'" +:+ e), st').
Proof.
  apply (readOption_parenthesized_name 10 "" (mkCtx NoObj fileCtx) "foo" " = true;");
    [repeat constructor | cbn; lia | reflexivity].
Defined.

Ltac inp H := rewrite H; unfold quoted, str1; rewrite ?sapp_cons, ?sapp_nil_l; rewrite <- ?sapp_assoc; rewrite ?sapp_cons, ?sapp_nil_l; reflexivity.

Lemma readName_plain n w c rest st :
  w <> "" -> Forall (fun x => isValidCharInWord x None = true) (list_ascii_of_string w) ->
  isValidCharInWord c None = false -> (String.length w < n)%nat ->
  input st = w +:+ String c rest ->
  exists st', readName n st = (Ok (w, unenclosed), st') /\ input st' = String c rest /\ pf st' = pf st.
Proof.
  intros Hne Hw Hc Hn Hin. destruct w as [|c0 w']; [congruence|].
  pose proof Hw as Hw0. cbn in Hw0. inversion Hw0 as [|? ? Hc0 _]; subst.
  destruct (word_char_facts c0 Hc0) as (_ & _ & Hp & Hb & _).
  rewrite sapp_cons in Hin.
  unfold readName.
  destruct (read_spec c0 (w' +:+ String c rest) st Hin) as (st1 & E1 & Hi1 & Hp1 & Hl1).
  stp E1. rewrite Hp, Hb.
  destruct (unread_spec c0 st1 Hl1) as (st2 & E2 & Hi2 & Hp2).
  stp E2. rewrite Hi1, <- sapp_cons in Hi2.
  destruct (readWord_spec n (String c0 w') c rest st2 Hw Hi2 Hc Hn) as (st3 & E3 & Hi3 & Hp3).
  stp E3. exists st3. split; [reflexivity|split; [exact Hi3|congruence]].
Qed.

(** An option with a plain name and a quoted value is added to its context with the value between the quotes as it is written and IsParenthesized false. *)
Theorem readOption_quoted_value n doc ctx w v rest st :
  w <> "" -> Forall (fun x => isValidCharInWord x None = true) (list_ascii_of_string w) ->
  ~ In dq (list_ascii_of_string v) -> (String.length w < n)%nat -> (2 <= n)%nat ->
  input st = w +:+ " = " +:+ quoted v +:+ ";" +:+ rest ->
  exists st1, input st1 = rest /\ pf st1 = pf st /\
    readOption n doc ctx st = addOption ctx (mkOption w v false) st1.
Proof.
  intros Hne Hw Hv Hn Hn2 Hin. unfold readOption.
  destruct w as [|c0 w']; [congruence|].
  pose proof Hw as Hw0. cbn in Hw0. inversion Hw0 as [|? ? Hc0 _]; subst.
  destruct (word_char_facts c0 Hc0) as (Hws & Heof & _).
  destruct (skipWhitespace_stop n c0 (w' +:+ " = " +:+ quoted v +:+ ";" +:+ rest) st) as (st1 & E1 & Hi1 & Hp1);
    [lia|inp Hin|exact Hws|exact Heof|].
  stp E1.
  destruct (readName_plain n (String c0 w') " " ("= " +:+ quoted v +:+ ";" +:+ rest) st1) as (st2 & E2 & Hi2 & Hp2);
    [congruence|exact Hw|reflexivity|exact Hn|inp Hi1|].
  stp E2. cbv beta iota.
  destruct (skipWhitespace_spec n "=" (" " +:+ quoted v +:+ ";" +:+ rest) st2) as (st3 & E3 & Hi3 & Hp3);
    [lia|inp Hi2|reflexivity|reflexivity|].
  stp E3.
  destruct (read_spec "=" (" " +:+ quoted v +:+ ";" +:+ rest) st3 Hi3) as (st4 & E4 & Hi4 & Hp4 & _).
  stp E4. ceq.
  destruct (skipWhitespace_spec n dq (v +:+ str1 dq +:+ ";" +:+ rest) st4) as (st5 & E5 & Hi5 & Hp5);
    [lia|inp Hi4|reflexivity|reflexivity|].
  stp E5.
  destruct (read_spec dq (v +:+ str1 dq +:+ ";" +:+ rest) st5 Hi5) as (st6 & E6 & Hi6 & Hp6 & _).
  stp E6. ceq.
  destruct (readUntil_spec dq v (";" +:+ rest) st6 Hv) as (st7 & E7 & Hi7 & Hp7 & _); [inp Hi6|].
  stp E7.
  destruct (skipWhitespace_stop n ";" rest st7) as (st8 & E8 & Hi8 & Hp8); [lia|inp Hi7|reflexivity|reflexivity|].
  stp E8.
  destruct (read_spec ";" rest st8 Hi8) as (st9 & E9 & Hi9 & Hp9 & _).
  stp E9. ceq. exists st9. split; [exact Hi9|split; [congruence|reflexivity]].
Qed.

Lemma readOption_quoted_value_witness :
  exists st1, input st1 = "" /\ pf st1 = pf (initState ("java_package = " +:+ quoted "a b" +:+ ";")) /\
    readOption 20 "" (mkCtx NoObj fileCtx) (initState ("java_package = " +:+ quoted "a b" +:+ ";")) =
    addOption (mkCtx NoObj fileCtx) (mkOption "java_package" "a b" false) st1.
Proof.
  apply (readOption_quoted_value 20 "" (mkCtx NoObj fileCtx) "java_package" "a b" "");
    [discriminate | repeat constructor | not_in
    | cbn; lia | lia | reflexivity].
Defined.

(** readSyntax accepts the quoted words proto2 and proto3 and records them as the syntax of the file; any other word is an error. *)
Theorem readSyntax_spec n s rest st :
  Forall (fun x => isValidCharInWord x None = true) (list_ascii_of_string s) ->
  (String.length s < n)%nat -> (2 <= n)%nat ->
  input st = " = " +:+ quoted s +:+ ";" +:+ rest ->
  ((s = "proto2" \/ s = proto3) ->
     exists st', readSyntax n st = (Ok tt, st') /\ input st' = rest /\ pf st' = pf_set_Syntax (pf st) s) /\
  (s <> "proto2" -> s <> proto3 ->
     exists e st', readSyntax n st = (Err ("'syntax' must be 'proto2' or 'proto3'. Found: " +:+ s +:+ e), st')).
Proof.
  intros Hw Hn Hn2 Hin. unfold readSyntax.
  destruct (skipWhitespace_spec n "=" (" " +:+ quoted s +:+ ";" +:+ rest) st) as (st1 & E1 & Hi1 & Hp1);
    [lia|inp Hin|reflexivity|reflexivity|].
  destruct (read_spec "=" (" " +:+ quoted s +:+ ";" +:+ rest) st1 Hi1) as (st2 & E2 & Hi2 & Hp2 & _).
  destruct (skipWhitespace_spec n dq (s +:+ str1 dq +:+ ";" +:+ rest) st2) as (st3 & E3 & Hi3 & Hp3);
    [lia|inp Hi2|reflexivity|reflexivity|].
  destruct (readQuotedString_spec n None s (";" +:+ rest) st3 Hw eq_refl) as (st4 & E4 & Hi4 & Hp4);
    [inp Hi3|exact Hn|].
  stp E1. stp E2. ceq. stp E3. stp E4. split.
  - intros Hs. replace (negb (String.eqb s "proto2") && negb (String.eqb s proto3)) with false
      by (destruct Hs as [-> | ->]; reflexivity).
    destruct (read_spec ";" rest st4) as (st5 & E5 & Hi5 & Hp5 & _); [inp Hi4|].
    stp E5. ceq. eexists. split; [reflexivity|]. cbn. split; [exact Hi5|congruence].
  - intros H2 H3. rewrite (proj2 (String.eqb_neq _ _) H2), (proj2 (String.eqb_neq _ _) H3). cbn [negb andb].
    unfold errline. do 2 eexists. rewrite <- sapp_assoc. reflexivity.
Qed.

Lemma readSyntax_spec_witness :
  ((proto3 = "proto2" \/ proto3 = proto3) ->
     exists st', readSyntax 10 (initState (" = " +:+ quoted proto3 +:+ ";")) = (Ok tt, st') /\ input st' = "" /\
       pf st' = pf_set_Syntax (pf (initState (" = " +:+ quoted proto3 +:+ ";"))) proto3) /\
  (proto3 <> "proto2" -> proto3 <> proto3 ->
     exists e st', readSyntax 10 (initState (" = " +:+ quoted proto3 +:+ ";")) =
       (Err ("'syntax' must be 'proto2' or 'proto3'. Found: " +:+ proto3 +:+ e), st')).
Proof. apply (readSyntax_spec 10 proto3 ""); [repeat constructor | cbn; lia | lia | reflexivity]. Defined.

(** readImport appends a quoted import path to the dependencies of the file, or to its public dependencies after the word public. *)
Theorem readImport_spec n path rest st :
  Forall (fun x => isValidCharInWord x (Some isPathSeparator) = true) (list_ascii_of_string path) ->
  (String.length path < n)%nat -> (7 <= n)%nat ->
  (input st = " " +:+ quoted path +:+ ";" +:+ rest ->
     exists st', readImport n st = (Ok tt, st') /\ input st' = rest /\ pf st' = pf_add_Dependency (pf st) path) /\
  (input st = " public " +:+ quoted path +:+ ";" +:+ rest ->
     exists st', readImport n st = (Ok tt, st') /\ input st' = rest /\ pf st' = pf_add_PublicDependency (pf st) path).
Proof.
  intros Hw Hn Hn7. unfold readImport. split; intros Hin.
  - destruct (skipWhitespace_spec n dq (path +:+ str1 dq +:+ ";" +:+ rest) st) as (st1 & E1 & Hi1 & Hp1);
      [lia|inp Hin|reflexivity|reflexivity|].
    stp E1.
    destruct (read_unread_spec dq (path +:+ str1 dq +:+ ";" +:+ rest) st1 Hi1) as (st2 & st3 & E2 & E3 & Hi3 & Hp3).
    stp E2. stp E3. ceq.
    destruct (readQuotedString_spec n (Some isPathSeparator) path (";" +:+ rest) st3 Hw eq_refl) as (st4 & E4 & Hi4 & Hp4);
      [inp Hi3|exact Hn|].
    stp E4. unfold modify_pf, modify. rewrite ?pm_bind_assoc.
    rewrite (pm_bind_ok _ _ _ _ _ (eq_refl : (fun st0 => (Ok tt, set_pf st0 (pf_add_Dependency (pf st0) path))) st4 = _)).
    destruct (read_spec ";" rest (set_pf st4 (pf_add_Dependency (pf st4) path))) as (st5 & E5 & Hi5 & Hp5 & _);
      [cbn; inp Hi4|].
    stp E5. ceq. eexists. split; [reflexivity|]. split; [exact Hi5|]. rewrite Hp5. cbn. congruence.
  - destruct (skipWhitespace_spec n "p" ("ublic " +:+ quoted path +:+ ";" +:+ rest) st) as (st1 & E1 & Hi1 & Hp1);
      [lia|inp Hin|reflexivity|reflexivity|].
    stp E1.
    destruct (read_unread_spec "p" ("ublic " +:+ quoted path +:+ ";" +:+ rest) st1 Hi1) as (st2 & st3 & E2 & E3 & Hi3 & Hp3).
    stp E2. stp E3. ceq.
    destruct (readWord_spec n "public" " " (quoted path +:+ ";" +:+ rest) st3) as (st4 & E4 & Hi4 & Hp4);
      [repeat constructor|inp Hi3|reflexivity|cbn; lia|].
    stp E4. rewrite String.eqb_refl; cbn [negb].
    destruct (skipWhitespace_spec n dq (path +:+ str1 dq +:+ ";" +:+ rest) st4) as (st5 & E5 & Hi5 & Hp5);
      [lia|inp Hi4|reflexivity|reflexivity|].
    stp E5.
    destruct (readQuotedString_spec n (Some isPathSeparator) path (";" +:+ rest) st5 Hw eq_refl) as (st6 & E6 & Hi6 & Hp6);
      [inp Hi5|exact Hn|].
    stp E6. unfold modify_pf, modify. rewrite ?pm_bind_assoc.
    rewrite (pm_bind_ok _ _ _ _ _ (eq_refl : (fun st0 => (Ok tt, set_pf st0 (pf_add_PublicDependency (pf st0) path))) st6 = _)).
    destruct (read_spec ";" rest (set_pf st6 (pf_add_PublicDependency (pf st6) path))) as (st7 & E7 & Hi7 & Hp7 & _);
      [cbn; inp Hi6|].
    stp E7. ceq. eexists. split; [reflexivity|]. split; [exact Hi7|]. rewrite Hp7. cbn. congruence.
Qed.

Lemma readImport_spec_witness :
  (input (initState (" " +:+ quoted "a/dep.proto" +:+ ";")) = " " +:+ quoted "a/dep.proto" +:+ ";" +:+ "" ->
     exists st', readImport 20 (initState (" " +:+ quoted "a/dep.proto" +:+ ";")) = (Ok tt, st') /\ input st' = "" /\
       pf st' = pf_add_Dependency (pf (initState (" " +:+ quoted "a/dep.proto" +:+ ";"))) "a/dep.proto") /\
  (input (initState (" " +:+ quoted "a/dep.proto" +:+ ";")) = " public " +:+ quoted "a/dep.proto" +:+ ";" +:+ "" ->
     exists st', readImport 20 (initState (" " +:+ quoted "a/dep.proto" +:+ ";")) = (Ok tt, st') /\ input st' = "" /\
       pf st' = pf_add_PublicDependency (pf (initState (" " +:+ quoted "a/dep.proto" +:+ ";"))) "a/dep.proto").
Proof. apply (readImport_spec 20 "a/dep.proto" ""); [repeat constructor | cbn; lia | lia]. Defined.

Lemma soa_app (l1 l2 : list ascii) :
  string_of_list_ascii (l1 ++ l2)%list = string_of_list_ascii l1 +:+ string_of_list_ascii l2.
Proof.
  induction l1 as [|x l1 IH]; cbn [app string_of_list_ascii].
  - rewrite sapp_nil_l. reflexivity.
  - rewrite sapp_cons, IH. reflexivity.
Qed.

Lemma string_rev_cons c s : string_rev (String c s) = string_rev s +:+ str1 c.
Proof. unfold string_rev. cbn [list_ascii_of_string rev]. rewrite soa_app. reflexivity. Qed.

Lemma split_acc_none sep s cur :
  ~ In sep (list_ascii_of_string s) -> split_acc sep s cur = [string_rev cur +:+ s].
Proof.
  revert cur. induction s as [|c s IH]; intros cur Hs; cbn [split_acc].
  - rewrite sapp_nil_r. reflexivity.
  - cbn in Hs. unfold char_eqb. rewrite (proj2 (Ascii.eqb_neq c sep)) by (intros ->; apply Hs; left; reflexivity).
    rewrite IH by (intros H; apply Hs; right; exact H).
    rewrite string_rev_cons, <- sapp_assoc. reflexivity.
Qed.

Lemma split_acc_one sep s t cur :
  ~ In sep (list_ascii_of_string s) ->
  split_acc sep (s +:+ String sep t) cur = (string_rev cur +:+ s) :: split_acc sep t "".
Proof.
  revert cur. induction s as [|c s IH]; intros cur Hs.
  - rewrite sapp_nil_l. cbn [split_acc]. rewrite char_eqb_refl, sapp_nil_r. reflexivity.
  - rewrite sapp_cons. cbn [split_acc]. cbn in Hs.
    unfold char_eqb at 1. rewrite (proj2 (Ascii.eqb_neq c sep)) by (intros ->; apply Hs; left; reflexivity).
    rewrite IH by (intros H; apply Hs; right; exact H).
    rewrite string_rev_cons, <- sapp_assoc. reflexivity.
Qed.

Lemma list_ascii_app a b : list_ascii_of_string (a +:+ b) = (list_ascii_of_string a ++ list_ascii_of_string b)%list.
Proof.
  induction a as [|x a IH].
  - rewrite sapp_nil_l. reflexivity.
  - rewrite sapp_cons. cbn. rewrite IH. reflexivity.
Qed.

(** An option list whose last pair has no value, as in [[default=]]. *)
Theorem readListOptions_empty_value_panics s rest st :
  ~ In "]"%char (list_ascii_of_string s) -> ~ In ","%char (list_ascii_of_string s) ->
  ~ In "="%char (list_ascii_of_string s) ->
  input st = s +:+ "=]" +:+ rest ->
  exists st', readListOptions st = (Panic index_panic, st').
Proof.
  intros Hb Hc He Hin. unfold readListOptions.
  destruct (readUntil_spec "]" (s +:+ "=") rest st) as (st1 & E1 & _).
  { rewrite list_ascii_app. cbn. rewrite in_app_iff. intros [H|[H|H]]; [exact (Hb H)|discriminate|exact H]. }
  { rewrite Hin. rewrite <- sapp_assoc. reflexivity. }
  stp E1. unfold Split.
  rewrite split_acc_none by (rewrite list_ascii_app; cbn; rewrite in_app_iff; intros [H|[H|H]]; [exact (Hc H)|discriminate|exact H]).
  change (string_rev "") with "". rewrite sapp_nil_l. cbn [readListOptions_pairs]. unfold Split.
  rewrite (split_acc_one "=" s "" "" He). cbn [split_acc]. change (string_rev "") with "". rewrite sapp_nil_l.
  unfold stripParenthesis at 1. destruct (first_char (TrimSpace s)) as [c0|] eqn:Hf.
  - destruct (char_eqb c0 "(" && match last_char (TrimSpace s) with Some c => char_eqb c ")" | None => false end);
      rewrite pm_bind_ret; cbv beta iota; eexists; reflexivity.
  - eexists. reflexivity.
Qed.

Lemma readListOptions_empty_value_panics_witness :
  exists st', readListOptions (initState "default=]; ") = (Panic index_panic, st').
Proof.
  apply (readListOptions_empty_value_panics "default" "; ");
    [not_in ..| reflexivity].
Defined.

(** readEnumConstant appends to the enum a constant with the label, the documentation, no options and the decimal value of the tag. *)
Theorem readEnumConstant_spec n label doc ee t ds rest st :
  Forall (fun x => isDigit x = true) (list_ascii_of_string ds) -> (0 < String.length ds < 19)%nat ->
  (String.length ds < n)%nat -> (2 <= n)%nat ->
  input st = " = " +:+ ds +:+ ";" +:+ String nl rest ->
  exists st', readEnumConstant n label doc (mkCtx (EnumObj ee) t) st =
    (Ok (mkCtx (EnumObj (en_add_Constant ee (mkEnumConstant label doc [] (decimal_value ds)))) t), st') /\
    input st' = rest /\ pf st' = pf st.
Proof.
  intros Hd Hl Hn Hn2 Hin. unfold readEnumConstant.
  destruct ds as [|d0 ds']; [cbn in Hl; lia|].
  pose proof Hd as Hd0. cbn in Hd0. inversion Hd0 as [|? ? Hdd _]; subst.
  destruct (digit_facts d0 Hdd) as (Heof & _ & Hws & _).
  destruct (skipWhitespace_spec n "=" (" " +:+ String d0 ds' +:+ ";" +:+ String nl rest) st) as (st1 & E1 & Hi1 & Hp1);
    [lia|inp Hin|reflexivity|reflexivity|].
  stp E1.
  destruct (read_spec "=" (" " +:+ String d0 ds' +:+ ";" +:+ String nl rest) st1 Hi1) as (st2 & E2 & Hi2 & Hp2 & _).
  stp E2. ceq.
  destruct (skipWhitespace_spec n d0 (ds' +:+ ";" +:+ String nl rest) st2) as (st3 & E3 & Hi3 & Hp3);
    [lia|inp Hi2|exact Hws|exact Heof|].
  stp E3.
  destruct (readInt_spec n (String d0 ds') ";" (String nl rest) st3 Hd Hl) as (st4 & E4 & Hi4 & Hp4);
    [inp Hi3|reflexivity|exact Hn|].
  rewrite ?pm_bind_assoc. unfold catch_err at 1.
  rewrite (pm_bind_ok (fun st0 => match readInt n st0 with (Err e, st') => _ | r => r end) _ st3 (decimal_value (String d0 ds')) st4)
    by (rewrite E4; reflexivity).
  cbv beta. unfold readListOptionsOnALine.
  destruct (skipWhitespace_stop n ";" (String nl rest) st4) as (st5 & E5 & Hi5 & Hp5); [lia|exact Hi4|reflexivity|reflexivity|].
  stp E5.
  destruct (read_spec ";" (String nl rest) st5 Hi5) as (st6 & E6 & Hi6 & Hp6 & _).
  stp E6. ceq. cbv iota. rewrite ?pm_bind_assoc, pm_bind_ret. cbv beta.
  destruct n as [|n']; [lia|]. cbn [skipUntilNewline].
  destruct (read_spec nl rest st6 Hi6) as (st7 & E7 & Hi7 & Hp7 & _).
  stp E7. ceq. rewrite pm_bind_ret.
  eexists. split; [reflexivity|split; [exact Hi7|congruence]].
Qed.

Lemma readEnumConstant_spec_witness :
  exists st', readEnumConstant 10 "A" "" (mkCtx (EnumObj (mkEnum "E" "E" "" [] [])) enumCtx) (initState (" = 1;" +:+ str1 nl)) =
    (Ok (mkCtx (EnumObj (en_add_Constant (mkEnum "E" "E" "" [] []) (mkEnumConstant "A" "" [] (decimal_value "1")))) enumCtx), st') /\
    input st' = "" /\ pf st' = pf (initState (" = 1;" +:+ str1 nl)).
Proof.
  apply (readEnumConstant_spec 10 "A" "" (mkEnum "E" "E" "" [] []) enumCtx "1" "");
    [repeat constructor | cbn; lia | cbn; lia | lia | reflexivity].
Defined.

Lemma wrap64_id z : - 2 ^ 63 <= z < 2 ^ 63 -> wrap64 z = z.
Proof. intros H. unfold wrap64. rewrite Z.mod_small by lia. lia. Qed.

(** read followed by unread gives back the rune to the reader, but only a
    newline also gives back the location. *)
Theorem read_unread_location c r st :
  input st = String c r -> 0 <= line st < 2 ^ 63 - 1 -> 0 <= column st < 2 ^ 63 - 1 ->
  exists st', (read ;; unread) st = (Ok tt, st') /\ input st' = String c r /\ line st' = line st /\
    (c = nl -> column st' = column st) /\ (c <> nl -> column st' = column st + 1).
Proof.
  intros Hin Hln Hcol. destruct st as [inp lr ln col lcr eofr pfx p]; cbn in Hin, Hln, Hcol; subst inp.
  unfold mbind, PM_bind, pm_bind, read, unread. cbn [input line column lastColumnRead lastRune set_reader].
  destruct (char_eqb c nl) eqn:Hc.
  - apply Ascii.eqb_eq in Hc. subst c. cbn.
    unfold go_dec, go_inc. rewrite (wrap64_id (ln + 1)) by lia. rewrite (wrap64_id (ln + 1 - 1)) by lia.
    eexists. split; [reflexivity|]. cbn. split; [reflexivity|]. split; [lia|]. split; [intros _; reflexivity|intros H; congruence].
  - apply Ascii.eqb_neq in Hc. cbn.
    unfold go_inc. rewrite (wrap64_id (col + 1)) by lia.
    replace (col + 1 =? 0) with false by lia.
    eexists. split; [reflexivity|]. cbn. split; [reflexivity|]. split; [reflexivity|]. split; [intros H; congruence|intros _; reflexivity].
Qed.

Lemma read_unread_location_witness :
  exists st', (read ;; unread) (initState "ab") = (Ok tt, st') /\ input st' = "ab" /\ line st' = line (initState "ab") /\
    ("a"%char = nl -> column st' = column (initState "ab")) /\ ("a"%char <> nl -> column st' = column (initState "ab") + 1).
Proof. apply (read_unread_location "a" "b"); [reflexivity | cbn; lia | cbn; lia]. Defined.

Lemma scalarLookupMap_in k : In k scalar_names <-> exists t, scalarLookupMap k = Some t.
Proof.
  split.
  - intros H. repeat (destruct H as [<-|H]; [eexists; reflexivity|]). destruct H.
  - intros [t Ht]. unfold scalarLookupMap in Ht.
    repeat match goal with
    | H : context [String.eqb k ?x] |- _ =>
        destruct (String.eqb_spec k x) as [->|_]; [cbn; tauto|]
    end; discriminate.
Qed.

Lemma NewScalarDataType_cases s :
  (In (ToLower s) scalar_names -> exists t, NewScalarDataType s = GoOk (ScalarDataType t (ToLower s))) /\
  (~ In (ToLower s) scalar_names -> NewScalarDataType s = GoErr ("'" +:+ s +:+ "' is not a valid ScalarDataType")).
Proof.
  unfold NewScalarDataType. split; intros H.
  - apply scalarLookupMap_in in H. destruct H as [t ->]. eexists. reflexivity.
  - destruct (scalarLookupMap (ToLower s)) eqn:E; [|reflexivity].
    exfalso. apply H, scalarLookupMap_in. eexists. exact E.
Qed.

(** A type word other than map is a scalar type when its lower-case form is a scalar name, with that lower-case name, and otherwise a named type; no input is read. *)
Theorem readDataTypeInternal_word n name st :
  name <> "map" ->
  (In (ToLower name) scalar_names ->
     exists t, readDataTypeInternal n name st = (Ok (ScalarDataType t (ToLower name)), st)) /\
  (~ In (ToLower name) scalar_names ->
     readDataTypeInternal n name st = (Ok (NamedDT (mkNamed false name)), st)).
Proof.
  intros Hm. destruct n; cbn [readDataTypeInternal]; rewrite (proj2 (String.eqb_neq _ _) Hm);
  destruct (NewScalarDataType_cases name) as [H1 H2]; split; intros H.
  all: first [ destruct (H1 H) as [t ->]; eexists; reflexivity | rewrite (H2 H); reflexivity ].
Qed.

Lemma readDataTypeInternal_word_witness :
  (In (ToLower "Int32") scalar_names ->
     exists t, readDataTypeInternal 5 "Int32" (initState "") = (Ok (ScalarDataType t (ToLower "Int32")), initState "")) /\
  (~ In (ToLower "Int32") scalar_names ->
     readDataTypeInternal 5 "Int32" (initState "") = (Ok (NamedDT (mkNamed false "Int32")), initState "")).
Proof. apply (readDataTypeInternal_word 5 "Int32" (initState "")). discriminate. Defined.

Lemma ws_not_eof c : isWhitespace c = true -> char_eqb c eof = false.
Proof. destruct c as [[] [] [] [] [] [] [] []]; vm_compute; first [discriminate | reflexivity]. Qed.

Lemma skipWhitespace_all m s st :
  Forall (fun c => isWhitespace c = true) (list_ascii_of_string s) -> (String.length s < m)%nat ->
  input st = s ->
  exists st', skipWhitespace m st = (Ok tt, st') /\ input st' = "" /\ eofReached st' = true /\ pf st' = pf st.
Proof.
  revert m st. induction s as [|c s IH]; intros m st Hs Hm Hin; destruct m as [|m]; cbn in Hm; try lia.
  - destruct st as [inp lr ln col lcr eofr pfx p]; cbn in Hin; subst inp.
    eexists. split; [reflexivity|]. cbn. repeat split.
  - cbn in Hs. inversion Hs as [|? ? Hc Hs']; subst.
    cbn [skipWhitespace].
    destruct (read_spec c s st Hin) as (st1 & E1 & Hi1 & Hp1 & _).
    stp E1. rewrite (ws_not_eof c Hc), Hc. cbn [negb].
    destruct (IH m st1 Hs' ltac:(lia) Hi1) as (st2 & E2 & Hi2 & He2 & Hp2).
    exists st2. split; [exact E2|split; [exact Hi2|split; [exact He2|congruence]]].
Qed.

Lemma readDocumentationIfFound_blank m s st :
  Forall (fun c => isWhitespace c = true) (list_ascii_of_string s) -> (String.length s + 2 <= m)%nat ->
  input st = s ->
  exists st', readDocumentationIfFound m st = (Ok "", st') /\ eofReached st' = true /\ pf st' = pf st.
Proof.
  intros Hs Hm Hin. destruct m as [|[|m]]; try lia.
  destruct s as [|c s].
  - destruct st as [inp lr ln col lcr eofr pfx p]; cbn in Hin; subst inp.
    eexists. split; [reflexivity|]. cbn. split; reflexivity.
  - cbn in Hs. inversion Hs as [|? ? Hc Hs']; subst. cbn in Hm.
    cbn [readDocumentationIfFound].
    destruct (read_spec c s st Hin) as (st1 & E1 & Hi1 & Hp1 & _).
    stp E1. rewrite (ws_not_eof c Hc), Hc.
    destruct (skipWhitespace_all (S (S m)) s st1 Hs' ltac:(lia) Hi1) as (st2 & E2 & Hi2 & _ & Hp2).
    stp E2. cbn [readDocumentationIfFound].
    destruct st2 as [inp lr ln col lcr eofr pfx p]; cbn in Hi2, Hp2; subst inp.
    eexists. split; [reflexivity|]. cbn. split; [reflexivity|congruence].
Qed.

(** A file of white space only: parsing succeeds with the zero ProtoFile,
    which the verification rejects. *)
Theorem parse_blank n s impr :
  Forall (fun c => isWhitespace c = true) (list_ascii_of_string s) -> (String.length s + 2 <= n)%nat ->
  parse n s = Ok emptyProtoFile /\ Parse n s impr = Err "No syntax specified in the proto file".
Proof.
  intros Hs Hn.
  assert (Hp : parse n s = Ok emptyProtoFile).
  { unfold parse. destruct n as [|n']; [lia|]. cbn [parse_loop].
    destruct (readDocumentationIfFound_blank (S n') s (initState s) Hs Hn eq_refl) as (st1 & E1 & He1 & Hp1).
    stp E1. unfold isEofReached, gets. rewrite pm_bind_ok with (a := true) (st' := st1)
      by (rewrite <- He1; reflexivity).
    cbv beta iota. unfold mret, PM_ret, pm_ret. rewrite Hp1. reflexivity. }
  split; [exact Hp|]. unfold Parse. rewrite Hp. reflexivity.
Qed.

Lemma parse_blank_witness :
  parse 10 (" " +:+ str1 nl +:+ "  ") = Ok emptyProtoFile /\
  Parse 10 (" " +:+ str1 nl +:+ "  ") None = Err "No syntax specified in the proto file".
Proof. apply (parse_blank 10 (" " +:+ str1 nl +:+ "  ") None); [vm_compute; repeat constructor | vm_compute; lia]. Defined.

Lemma get_last x c : String.get (String.length x) (x +:+ str1 c) = Some c.
Proof.
  induction x as [|d x IH].
  - reflexivity.
  - rewrite sapp_cons. cbn [String.length String.get]. exact IH.
Qed.

Lemma length_sapp a b : String.length (a +:+ b) = (String.length a + String.length b)%nat.
Proof.
  induction a as [|d a IH]; [rewrite sapp_nil_l; reflexivity|].
  rewrite sapp_cons. cbn [String.length]. rewrite IH. reflexivity.
Qed.

Lemma enclosed_chars o s c :
  first_char (String o (s +:+ str1 c)) = Some o /\ last_char (String o (s +:+ str1 c)) = Some c.
Proof.
  split; [reflexivity|]. unfold last_char. cbn [String.length].
  replace (S (String.length (s +:+ str1 c)) - 1)%nat with (S (String.length s)).
  - cbn [String.get]. apply get_last.
  - rewrite length_sapp. cbn. lia.
Qed.

Lemma split_at_dq_spec l r : ~ In dq l -> split_at_dq (l ++ dq :: r) = Some (l, r).
Proof.
  induction l as [|x l IH]; intros Hl; cbn [app split_at_dq].
  - rewrite char_eqb_refl. reflexivity.
  - unfold char_eqb at 1. rewrite (proj2 (Ascii.eqb_neq x dq)) by (intros ->; apply Hl; left; reflexivity).
    rewrite IH by (intros H; apply Hl; right; exact H). reflexivity.
Qed.

Lemma take_no_dq_spec l : ~ In dq l -> take_no_dq l = l.
Proof.
  induction l as [|x l IH]; intros Hl; cbn [take_no_dq]; [reflexivity|].
  unfold char_eqb. rewrite (proj2 (Ascii.eqb_neq x dq)) by (intros ->; apply Hl; left; reflexivity).
  rewrite IH by (intros H; apply Hl; right; exact H). reflexivity.
Qed.

Lemma last_index_of_last c l i acc : last_index_of c (l ++ [c]) i acc = Some (i + length l)%nat.
Proof.
  revert i acc. induction l as [|x l IH]; intros i acc; cbn [app last_index_of].
  - rewrite char_eqb_refl. cbn. f_equal. lia.
  - rewrite IH. cbn [length]. f_equal. lia.
Qed.

Lemma list_ascii_enclosed o s c :
  list_ascii_of_string (String o (s +:+ str1 c)) = o :: (list_ascii_of_string s ++ [c])%list.
Proof. cbn [list_ascii_of_string]. rewrite list_ascii_app. reflexivity. Qed.

(** The option helpers of readListOptions take off a surrounding pair of
    double quotes or parentheses, and panic on an empty string. *)
Theorem strip_enclosing s st :
  ~ In dq (list_ascii_of_string s) ->
  stripQuotes (quoted s) st = (Ok s, st) /\
  stripParenthesis ("(" +:+ s +:+ ")") st = (Ok (s, true), st) /\
  stripQuotes "" st = (Panic index_panic, st) /\
  stripParenthesis "" st = (Panic index_panic, st).
Proof.
  intros Hs. split; [|split; [|split; reflexivity]].
  - unfold quoted. change (str1 dq +:+ (s +:+ str1 dq)) with (String dq (s +:+ str1 dq)).
    unfold stripQuotes. destruct (enclosed_chars dq s dq) as [-> ->]. rewrite char_eqb_refl. cbn [andb].
    unfold quoteRemovalRegex_Replace. rewrite list_ascii_enclosed. cbn [length].
    cbn [quote_replace]. rewrite char_eqb_refl, split_at_dq_spec by exact Hs.
    destruct (length _); cbn [quote_replace]; rewrite app_nil_r, string_of_list_ascii_of_string; reflexivity.
  - change ("(" +:+ s +:+ ")") with (String "(" (s +:+ str1 ")")).
    unfold stripParenthesis. destruct (enclosed_chars "(" s ")") as [-> ->]. ceq.
    unfold parenthesisRemovalRegex_Replace. rewrite list_ascii_enclosed. cbn [length].
    cbn [paren_replace]. ceq. rewrite take_no_dq_spec.
    + rewrite last_index_of_last. cbn [Nat.add].
      rewrite firstn_app, firstn_all, Nat.sub_diag, firstn_O, app_nil_r.
      rewrite skipn_app, skipn_all2 by (cbn; lia).
      replace (S (length (list_ascii_of_string s)) - length (list_ascii_of_string s))%nat with 1%nat by lia.
      cbn [skipn app]. destruct (length _); cbn [paren_replace]; rewrite app_nil_r, string_of_list_ascii_of_string; reflexivity.
    + rewrite in_app_iff. intros [H|[H|H]]; [exact (Hs H)|discriminate|exact H].
Qed.

Lemma strip_enclosing_witness :
  stripQuotes (quoted "foo") (initState "") = (Ok "foo", initState "") /\
  stripParenthesis ("(" +:+ "foo" +:+ ")") (initState "") = (Ok ("foo", true), initState "") /\
  stripQuotes "" (initState "") = (Panic index_panic, initState "") /\
  stripParenthesis "" (initState "") = (Panic index_panic, initState "").
Proof. apply (strip_enclosing "foo" (initState "")). not_in. Defined.

(** A reserved range 'a to b;' adds one range from a to b to the message. *)
Theorem readReservedRanges_to n doc me ds1 ds2 rest st :
  Forall (fun x => isDigit x = true) (list_ascii_of_string ds1) -> (0 < String.length ds1 < 19)%nat ->
  Forall (fun x => isDigit x = true) (list_ascii_of_string ds2) -> (0 < String.length ds2 < 19)%nat ->
  (String.length ds1 < n)%nat -> (String.length ds2 < n)%nat -> (3 <= n)%nat ->
  input st = ds1 +:+ " to " +:+ ds2 +:+ ";" +:+ rest ->
  exists st', readReservedRanges n doc me st =
    (Ok (me_add_ReservedRange me (mkReservedRange doc (decimal_value ds1) (decimal_value ds2))), st') /\
    input st' = rest /\ pf st' = pf st.
Proof.
  intros Hd1 Hl1 Hd2 Hl2 Hn1 Hn2 Hn Hin.
  destruct ds2 as [|d0 ds2']; [cbn in Hl2; lia|].
  pose proof Hd2 as Hd0. cbn in Hd0. inversion Hd0 as [|? ? Hdd _]; subst.
  destruct (digit_facts d0 Hdd) as (Heof & _ & Hws & _).
  destruct n as [|n']; [lia|]. cbn [readReservedRanges].
  destruct (readInt_spec (S n') ds1 " " ("to " +:+ String d0 ds2' +:+ ";" +:+ rest) st Hd1 Hl1)
    as (st1 & E1 & Hi1 & Hp1); [inp Hin|reflexivity|exact Hn1|].
  stp E1. cbv zeta.
  destruct (read_unread_spec " " ("to " +:+ String d0 ds2' +:+ ";" +:+ rest) st1 Hi1)
    as (st2 & st3 & E2 & E3 & Hi3 & Hp3).
  stp E2. ceq. stp E3.
  destruct (skipWhitespace_spec (S n') "t" ("o " +:+ String d0 ds2' +:+ ";" +:+ rest) st3)
    as (st4 & E4 & Hi4 & Hp4); [lia|inp Hi3|reflexivity|reflexivity|].
  stp E4.
  destruct (readWord_spec (S n') "to" " " (String d0 ds2' +:+ ";" +:+ rest) st4)
    as (st5 & E5 & Hi5 & Hp5); [repeat constructor|inp Hi4|reflexivity|cbn; lia|].
  stp E5. rewrite String.eqb_refl. cbn [negb].
  destruct (skipWhitespace_spec (S n') d0 (ds2' +:+ ";" +:+ rest) st5)
    as (st6 & E6 & Hi6 & Hp6); [lia|inp Hi5|exact Hws|exact Heof|].
  stp E6.
  destruct (readInt_spec (S n') (String d0 ds2') ";" rest st6 Hd2 Hl2)
    as (st7 & E7 & Hi7 & Hp7); [inp Hi6|reflexivity|exact Hn2|].
  stp E7. cbv zeta.
  destruct (read_spec ";" rest st7 Hi7) as (st8 & E8 & Hi8 & Hp8 & _).
  stp E8. ceq. eexists. split; [reflexivity|]. split; [exact Hi8|congruence].
Qed.

Lemma readReservedRanges_to_witness :
  exists st', readReservedRanges 5 "" c10_msg (initState "9 to 11;") =
    (Ok (me_add_ReservedRange c10_msg (mkReservedRange "" (decimal_value "9") (decimal_value "11"))), st') /\
    input st' = "" /\ pf st' = pf (initState "9 to 11;").
Proof.
  apply (readReservedRanges_to 5 "" c10_msg "9" "11" "");
    [repeat constructor | cbn; lia | repeat constructor | cbn; lia | cbn; lia | cbn; lia | lia | reflexivity].
Defined.
